(** * Schema rewriting of [AbstractFileBasedSpec]

    A shallow embedding of
    [airbyte_cdk/sources/file_based/config/abstract_file_based_spec.py]:
    the three-stage pass that [AbstractFileBasedSpec.schema] runs over the
    schema generated for a file-based source
    ([expand_refs], [replace_enum_allOf_and_anyOf], [add_legacy_format]).

    The development has two layers.

    - [Module Tree]: schema documents as JSON values.  The Python code
      mutates one tree in place; here every statement takes the tree and
      returns the tree after the statement (explicit state passing), and a
      raised exception is an [Err] result.
    - [Module Heap]: the same functions over a store of dict and list
      objects addressed by references, with [copy.deepcopy], used for the
      statements about aliasing between the input and the output. *)

From Stdlib Require Import ZArith String Ascii List Bool Lia.
From stdpp Require Import base option list.
Import ListNotations.
Local Open Scope string_scope.
Set Warnings "-register-all".

(** ** Exceptions and the error monad *)

(** The exception classes the modelled statements can raise. *)
Inductive exn : Type :=
  | KeyError        (* missing dict key *)
  | IndexError      (* sequence index out of range *)
  | TypeError       (* operation not supported by the operand's type *)
  | AttributeError  (* method looked up on a type that lacks it *)
  | RuntimeError    (* a dict changed while it was iterated *)
  | Stuck.          (* no Python exception: where the store model has no
                       answer (a reference to no object, copy budget
                       exhausted); excluded on well-formed stores *)

Inductive result (A : Type) : Type :=
  | Ok (a : A)
  | Err (e : exn).
Arguments Ok {A} a.
Arguments Err {A} e.

(** [result] is a monad; [x ← m; k] runs [k] unless [m] raised. *)
#[export] Instance result_bind : MBind result := fun A B f m =>
  match m with
  | Ok a => f a
  | Err e => Err e
  end.

Definition raises {A} (m : result A) : Prop := exists e, m = Err e.
Definition returns {A} (m : result A) : Prop := exists a, m = Ok a.

(** [for x in xs: acc = body(acc, x)], stopping at the first exception. *)
Fixpoint foldM {A B} (body : A -> B -> result A) (xs : list B) (acc : A)
  : result A :=
  match xs with
  | [] => Ok acc
  | x :: xs' => acc' ← body acc x; foldM body xs' acc'
  end.

(** ** Insertion-ordered dictionaries *)

Section Alist.
Context {V : Type}.

(** [d.get(k)]: the value bound to [k]. *)
Fixpoint assoc (k : string) (d : list (string * V)) : option V :=
  match d with
  | [] => None
  | (k', v) :: d' => if String.eqb k k' then Some v else assoc k d'
  end.

(** [d[k] = v]: an existing key keeps its position, a new key goes last. *)
Fixpoint alist_set (k : string) (v : V) (d : list (string * V))
  : list (string * V) :=
  match d with
  | [] => [(k, v)]
  | (k', v') :: d' =>
      if String.eqb k k' then (k', v) :: d' else (k', v') :: alist_set k v d'
  end.

(** [del d[k]]. *)
Fixpoint alist_remove (k : string) (d : list (string * V))
  : list (string * V) :=
  match d with
  | [] => []
  | (k', v') :: d' =>
      if String.eqb k k' then d' else (k', v') :: alist_remove k d'
  end.

Definition keys (d : list (string * V)) : list string := map fst d.

Definition has_key (k : string) (d : list (string * V)) : bool :=
  match assoc k d with Some _ => true | None => false end.
End Alist.

(** No string occurs twice. *)
Fixpoint distinct (l : list string) : bool :=
  match l with
  | [] => true
  | x :: l' => negb (existsb (String.eqb x) l') && distinct l'
  end.

(** ** JSON-compatible values *)

Inductive json : Type :=
  | JNull
  | JBool (b : bool)
  | JNum (n : Z)
  | JStr (s : string)
  | JArr (items : list json)
  | JObj (fields : list (string * json)).

(** A Python dict holds each key once. *)
Fixpoint json_wf (t : json) : bool :=
  match t with
  | JArr items => forallb json_wf items
  | JObj fields =>
      distinct (keys fields)
      && (fix go (d : list (string * json)) : bool :=
            match d with
            | [] => true
            | (_, v) :: d' => json_wf v && go d'
            end) fields
  | _ => true
  end.

(** ** The Python operations the source uses, on JSON values *)

(** [needle in hay] for two [str]s. *)
Fixpoint is_substring (needle hay : string) : bool :=
  String.prefix needle hay
  || match hay with
     | EmptyString => false
     | String _ hay' => is_substring needle hay'
     end.

(** The one-character strings that iterating a [str] yields. *)
Fixpoint chars (s : string) : list json :=
  match s with
  | EmptyString => []
  | String c s' => JStr (String c EmptyString) :: chars s'
  end.

(** [seq[i]] for an [int] index: negative indices count from the end. *)
Definition seq_index {A} (l : list A) (i : Z) : result A :=
  let n := Z.of_nat (length l) in
  let j := (if i <? 0 then n + i else i)%Z in
  if ((0 <=? j) && (j <? n))%Z
  then match nth_error l (Z.to_nat j) with
       | Some x => Ok x
       | None => Err IndexError
       end
  else Err IndexError.

(** A value used as an index: [int], or [bool] (a subclass of [int]). *)
Definition as_index (k : json) : option Z :=
  match k with
  | JNum n => Some n
  | JBool b => Some (if b then 1 else 0)%Z
  | _ => None
  end.

(** [o[k]]. *)
Definition py_subscript (o k : json) : result json :=
  match o with
  | JObj fields =>
      match k with
      | JStr s => match assoc s fields with
                  | Some v => Ok v
                  | None => Err KeyError
                  end
      | JArr _ | JObj _ => Err TypeError   (* unhashable key *)
      | _ => Err KeyError                  (* the keys are all [str] *)
      end
  | JArr items =>
      match as_index k with
      | Some i => seq_index items i
      | None => Err TypeError
      end
  | JStr s =>
      match as_index k with
      | Some i => seq_index (chars s) i
      | None => Err TypeError
      end
  | _ => Err TypeError                     (* not subscriptable *)
  end.

(** Chained subscripts, [m["k"]] and [m[i]], over a value that may already
    have raised. *)
Definition getitem (m : result json) (k : string) : result json :=
  o ← m; py_subscript o (JStr k).
Definition getindex (m : result json) (i : Z) : result json :=
  o ← m; py_subscript o (JNum i).

Notation "m .[ k ]" := (getitem m k)
  (at level 1, left associativity, format "m .[ k ]").
Notation "m .[# i ]" := (getindex m i)
  (at level 1, left associativity, format "m .[# i ]").

(** [k in o] for a [str] literal [k]. *)
Definition py_in (k : string) (o : json) : result bool :=
  match o with
  | JObj fields => Ok (has_key k fields)
  | JArr items =>
      Ok (existsb (fun x => match x with
                            | JStr s => String.eqb k s
                            | _ => false
                            end) items)
  | JStr s => Ok (is_substring k s)
  | _ => Err TypeError                     (* not iterable *)
  end.

(** [o[k] = v] for a [str] literal [k]. *)
Definition py_setitem (o : json) (k : string) (v : json) : result json :=
  match o with
  | JObj fields => Ok (JObj (alist_set k v fields))
  | _ => Err TypeError
  end.

(** [o.pop(k)]: the popped value and [o] afterwards. *)
Definition py_pop (o : json) (k : string) : result (json * json) :=
  match o with
  | JObj fields =>
      match assoc k fields with
      | Some v => Ok (v, JObj (alist_remove k fields))
      | None => Err KeyError
      end
  | JArr _ => Err TypeError                (* [list.pop] wants an [int] *)
  | _ => Err AttributeError
  end.

(** [o.pop(k, default)]. *)
Definition py_pop_default (o : json) (k : string) (default : json)
  : result (json * json) :=
  match o with
  | JObj fields =>
      match assoc k fields with
      | Some v => Ok (v, JObj (alist_remove k fields))
      | None => Ok (default, o)
      end
  | JArr _ => Err TypeError                (* [list.pop] takes one argument *)
  | _ => Err AttributeError
  end.

(** The values [for x in o] binds [x] to. *)
Definition py_iter (o : json) : result (list json) :=
  match o with
  | JArr items => Ok items
  | JObj fields => Ok (map JStr (keys fields))
  | JStr s => Ok (chars s)
  | _ => Err TypeError
  end.

(** Python's [==] on JSON values: dicts compare without regard to key
    order, and [True == 1]. *)
Fixpoint py_eq (a b : json) : bool :=
  match a, b with
  | JNull, JNull => true
  | JStr s, JStr s' => String.eqb s s'
  | JArr l, JArr l' =>
      (fix go (l l' : list json) : bool :=
         match l, l' with
         | [], [] => true
         | x :: xs, y :: ys => py_eq x y && go xs ys
         | _, _ => false
         end) l l'
  | JObj d, JObj d' =>
      Nat.eqb (length d) (length d')
      && (fix go (d : list (string * json)) : bool :=
            match d with
            | [] => true
            | (k, v) :: r =>
                match assoc k d' with
                | Some v' => py_eq v v'
                | None => false
                end && go r
            end) d
  | _, _ =>
      match as_index a, as_index b with
      | Some i, Some j => Z.eqb i j
      | _, _ => false
      end
  end.

(** In the source a nested object is reached by reference and mutated in
    place.  With values, the mutated object is stored back where it was
    read from: [store o k v] is [o] once the object at [o[k]] has become
    [v].  It never adds a key or an index. *)
Definition store (o k v : json) : json :=
  match o, k with
  | JObj fields, JStr s =>
      if has_key s fields then JObj (alist_set s v fields) else o
  | JArr items, _ =>
      match as_index k with
      | Some i =>
          let n := Z.of_nat (length items) in
          let j := (if i <? 0 then n + i else i)%Z in
          if ((0 <=? j) && (j <? n))%Z
          then JArr (<[Z.to_nat j := v]> items)
          else o
      | None => o
      end
  | _, _ => o
  end.

(** [get_path [k1; ..; kn] t] is [t[k1]..[kn]]. *)
Fixpoint get_path (path : list string) (t : json) : result json :=
  match path with
  | [] => Ok t
  | k :: path' => o ← py_subscript t (JStr k); get_path path' o
  end.

(** [store_path [k1; ..; kn] v t] is [t] once the object at
    [t[k1]..[kn]] has become [v]. *)
Fixpoint store_path (path : list string) (v : json) (t : json) : json :=
  match path with
  | [] => v
  | k :: path' =>
      match py_subscript t (JStr k) with
      | Ok o => store t (JStr k) (store_path path' v o)
      | Err _ => t
      end
  end.

(** * The pass over schema trees *)

Module Tree.

(** [schema["properties"]["streams"]["items"]["properties"]]: the schema
    of one entry of the list of streams. *)
Definition stream_properties : list string :=
  ["properties"; "streams"; "items"; "properties"].

Definition format_path : list string := stream_properties ++ ["format"].

(** [copy.deepcopy] of a JSON value: a new value built constructor by
    constructor. *)
Fixpoint deepcopy (t : json) : json :=
  match t with
  | JArr items => JArr (map deepcopy items)
  | JObj fields =>
      JObj ((fix go (d : list (string * json)) : list (string * json) :=
               match d with
               | [] => []
               | (k, v) :: d' => (k, deepcopy v) :: go d'
               end) fields)
  | _ => t
  end.

(** Line 71, the condition
    ["allOf" in object_property and "enum" in object_property["allOf"][0]];
    [and] evaluates its right operand only when the left one is true. *)
Definition is_allOf_enum (object_property : json) : result bool :=
  has_allOf ← py_in "allOf" object_property;
  if has_allOf : bool
  then first ← (Ok object_property).["allOf"].[#0]; py_in "enum" first
  else Ok false.

(** Lines 70-73, the body of the loop over the fields of one format:
    the field's schema after the body. *)
Definition hoist_enum (object_property : json) : result json :=
  is_enum ← is_allOf_enum object_property;
  if is_enum : bool
  then enum ← (Ok object_property).["allOf"].[#0].["enum"];
       object_property ← py_setitem object_property "enum" enum;
       '(_, object_property) ← py_pop object_property "allOf";
       Ok object_property
  else Ok object_property.

(** Lines 69-73, [for key in format["properties"]: ...]: the format after
    the loop. *)
Definition hoist_enums_of_format (format : json) : result json :=
  properties ← (Ok format).["properties"];
  ks ← py_iter properties;
  properties ← foldM (fun properties key =>
                        object_property ← py_subscript properties key;
                        object_property ← hoist_enum object_property;
                        Ok (store properties key object_property))
                     ks properties;
  Ok (store format (JStr "properties") properties).

(** [for x in xs: body(x)] where the body mutates [x]: the items after
    the loop. *)
Fixpoint mapM {A B} (body : A → result B) (xs : list A) : result (list B) :=
  match xs with
  | [] => Ok []
  | x :: xs' => y ← body x; ys ← mapM body xs'; Ok (y :: ys)
  end.

(** Lines 68-73, [for format in ...["oneOf"]: ...]: the value of [oneOf]
    after the loop.  Only a list has items the body can mutate: the items
    of a dict or of a [str] are [str]s. *)
Definition hoist_enums (formats : json) : result json :=
  items ← py_iter formats;
  items ← mapM hoist_enums_of_format items;
  Ok (match formats with JArr _ => JArr items | _ => formats end).

Definition properties_to_change : list string :=
  ["primary_key"; "input_schema"].

(** Lines 77-79, the body of the loop over [properties_to_change]. *)
Definition anyOf_to_oneOf (schema : json) (property_to_change : string)
  : result json :=
  node ← (Ok schema).["properties"].["streams"].["items"].["properties"]
                    .[property_to_change];
  '(any_of, node) ← py_pop node "anyOf";
  node ← py_setitem node "oneOf" any_of;
  Ok (store_path (stream_properties ++ [property_to_change]) node schema).

(** Lines 66-73, the block guarded by
    [if "additionalProperties" in objects_to_check]. *)
Definition rewrite_format_union (objects_to_check : json) : result json :=
  additional ← (Ok objects_to_check).["additionalProperties"];
  '(any_of, additional) ← py_pop_default additional "anyOf" (JArr []);
  additional ← py_setitem additional "oneOf" any_of;
  formats ← (Ok additional).["oneOf"];
  formats ← hoist_enums formats;
  let additional := store additional (JStr "oneOf") formats in
  Ok (store objects_to_check (JStr "additionalProperties") additional).

Definition replace_enum_allOf_and_anyOf (schema : json) : result json :=
  objects_to_check ←
    (Ok schema).["properties"].["streams"].["items"].["properties"].["format"];
  has_additional ← py_in "additionalProperties" objects_to_check;
  schema ← (if has_additional : bool
            then objects_to_check ← rewrite_format_union objects_to_check;
                 Ok (store_path format_path objects_to_check schema)
            else Ok schema);
  foldM anyOf_to_oneOf properties_to_change schema.

Definition legacy_format_options : json :=
  JObj [("title", JStr "Legacy Format");
        ("required", JArr [JStr "filetype"]);
        ("type", JStr "object");
        ("properties",
          JObj [("filetype",
                  JObj [("title", JStr "Filetype");
                        ("type", JStr "string")])])].

Definition add_legacy_format (schema : json) : result json :=
  csv_format_options ←
    (Ok schema).["properties"].["streams"].["items"].["properties"].["format"];
  let union_format :=
    JObj [("oneOf", JArr [csv_format_options; legacy_format_options])] in
  properties ← (Ok schema).["properties"].["streams"].["items"].["properties"];
  properties ← py_setitem properties "format" union_format;
  Ok (store_path stream_properties properties schema).

(** ** The same statements, seen from the stream schema node

    Every statement of [replace_enum_allOf_and_anyOf] reads or writes
    below [schema["properties"]["streams"]["items"]["properties"]].  The
    definitions below are its two blocks as functions of that node; lemma
    [replace_enum_allOf_and_anyOf_node] shows that the function is their
    composition, stored back at that path. *)

Definition format_block (properties : json) : result json :=
  objects_to_check ← (Ok properties).["format"];
  has_additional ← py_in "additionalProperties" objects_to_check;
  if has_additional : bool
  then objects_to_check ← rewrite_format_union objects_to_check;
       Ok (store properties (JStr "format") objects_to_check)
  else Ok properties.

Definition anyOf_to_oneOf_node (properties : json) (property_to_change : string)
  : result json :=
  node ← (Ok properties).[property_to_change];
  '(any_of, node) ← py_pop node "anyOf";
  node ← py_setitem node "oneOf" any_of;
  Ok (store properties (JStr property_to_change) node).

Definition normalize_node (properties : json) : result json :=
  properties ← format_block properties;
  foldM anyOf_to_oneOf_node properties_to_change properties.

(** ** Vocabulary of the specification *)

(** The schema of field [key] of the [i]-th format alternative, the
    alternatives being listed under [union] ([anyOf] before the
    normalizer has run, [oneOf] after). *)
Definition field_of (union : string) (schema : json) (i : nat) (key : string)
  : result json :=
  (Ok schema).["properties"].["streams"].["items"].["properties"].["format"]
             .["additionalProperties"].[union].[#Z.of_nat i]
             .["properties"].[key].

Definition field_before := field_of "anyOf".
Definition field_after := field_of "oneOf".

(** [schema["properties"]["streams"]["items"]["properties"][name]]. *)
Definition stream_field (schema : json) (name : string) : result json :=
  (Ok schema).["properties"].["streams"].["items"].["properties"].[name].

(** The schema of field [key] of the [i]-th format alternative in the
    document [schema] returns: under the first member of the union that
    [add_legacy_format] builds. *)
Definition field_served (schema : json) (i : nat) (key : string)
  : result json :=
  (stream_field schema "format").["oneOf"].[#0]
    .["additionalProperties"].["oneOf"].[#Z.of_nat i].["properties"].[key].

(** [node] lists [key] under [required]. *)
Definition declares_required (key : string) (node : json) : bool :=
  match node with
  | JObj fields =>
      match assoc "required" fields with
      | Some (JArr names) =>
          existsb (fun x => match x with
                            | JStr s => String.eqb key s
                            | _ => false
                            end) names
      | _ => false
      end
  | _ => false
  end.




Section Schema.
(** [schema_helpers.expand_refs] mutates its argument in place; as a
    function it maps the tree to the tree afterwards.  Its source is
    outside this file. *)
Variable expand_refs : json → result json.

(** [AbstractFileBasedSpec.schema], from the mapping that
    [super().schema(...)] returned. *)
Definition schema (raw : json) : result json :=
  let transformed_schema := deepcopy raw in
  transformed_schema ← expand_refs transformed_schema;
  transformed_schema ← replace_enum_allOf_and_anyOf transformed_schema;
  add_legacy_format transformed_schema.
End Schema.

End Tree.

(** * The pass over a store of objects *)

Module Heap.

Abbreviation loc := nat.

(** What a variable, a dict entry or a list item holds: an immutable
    scalar, or a reference to a dict or list object. *)
Inductive value : Type :=
  | VNone
  | VBool (b : bool)
  | VInt (n : Z)
  | VStr (s : string)
  | VRef (l : loc).

Inductive object : Type :=
  | ODict (fields : list (string * value))
  | OList (items : list value).

(** The store: object [l] is the [l]-th; a new object goes last. *)
Abbreviation heap := (list object).

(** Statements: they may mutate the store, and raise; the store as the
    exception left it is kept. *)
Definition M (A : Type) : Type := heap → result A * heap.

Definition ret {A} (a : A) : M A := fun h => (Ok a, h).
Definition raise {A} (e : exn) : M A := fun h => (Err e, h).

#[export] Instance M_bind : MBind M := fun A B f m h =>
  match m h with
  | (Ok a, h') => f a h'
  | (Err e, h') => (Err e, h')
  end.

Definition lift {A} (r : result A) : M A := fun h => (r, h).

Definition get_obj (l : loc) : M object := fun h =>
  match h !! l with
  | Some o => (Ok o, h)
  | None => (Err Stuck, h)
  end.

Definition put_obj (l : loc) (o : object) : M unit := fun h =>
  (Ok tt, <[l := o]> h).

Definition alloc_loc (o : object) : M loc := fun h =>
  (Ok (length h), (h ++ [o])%list).

Definition alloc (o : object) : M value := l ← alloc_loc o; ret (VRef l).

(** [for x in xs: body(x)]. *)
Fixpoint forM {B} (xs : list B) (body : B → M unit) : M unit :=
  match xs with
  | [] => ret tt
  | x :: xs' => _ ← body x; forM xs' body
  end.

Fixpoint chars (s : string) : list value :=
  match s with
  | EmptyString => []
  | String c s' => VStr (String c EmptyString) :: chars s'
  end.

Definition as_index (k : value) : option Z :=
  match k with
  | VInt n => Some n
  | VBool b => Some (if b then 1 else 0)%Z
  | _ => None
  end.

(** [o[k]]. *)
Definition subscript (o k : value) : M value :=
  match o with
  | VRef l =>
      obj ← get_obj l;
      match obj with
      | ODict fields =>
          match k with
          | VStr s => match assoc s fields with
                      | Some v => ret v
                      | None => raise KeyError
                      end
          | VRef _ => raise TypeError      (* unhashable key *)
          | _ => raise KeyError            (* the keys are all [str] *)
          end
      | OList items =>
          match as_index k with
          | Some i => lift (seq_index items i)
          | None => raise TypeError
          end
      end
  | VStr s =>
      match as_index k with
      | Some i => lift (seq_index (chars s) i)
      | None => raise TypeError
      end
  | _ => raise TypeError
  end.

Definition getitem (m : M value) (k : string) : M value :=
  o ← m; subscript o (VStr k).
Definition getindex (m : M value) (i : Z) : M value :=
  o ← m; subscript o (VInt i).

Declare Scope heap_scope.
Notation "m .[ k ]" := (getitem m k)
  (at level 1, left associativity, format "m .[ k ]") : heap_scope.
Notation "m .[# i ]" := (getindex m i)
  (at level 1, left associativity, format "m .[# i ]") : heap_scope.
Local Open Scope heap_scope.

(** [k in o] for a [str] literal [k]. *)
Definition contains (k : string) (o : value) : M bool :=
  match o with
  | VRef l =>
      obj ← get_obj l;
      match obj with
      | ODict fields => ret (has_key k fields)
      | OList items =>
          ret (existsb (fun x => match x with
                                 | VStr s => String.eqb k s
                                 | _ => false
                                 end) items)
      end
  | VStr s => ret (is_substring k s)
  | _ => raise TypeError
  end.

(** [o[k] = v] for a [str] literal [k]. *)
Definition setitem (o : value) (k : string) (v : value) : M unit :=
  match o with
  | VRef l =>
      obj ← get_obj l;
      match obj with
      | ODict fields => put_obj l (ODict (alist_set k v fields))
      | OList _ => raise TypeError
      end
  | _ => raise TypeError
  end.

(** [o.pop(k)]. *)
Definition pop (o : value) (k : string) : M value :=
  match o with
  | VRef l =>
      obj ← get_obj l;
      match obj with
      | ODict fields =>
          match assoc k fields with
          | Some v => _ ← put_obj l (ODict (alist_remove k fields)); ret v
          | None => raise KeyError
          end
      | OList _ => raise TypeError
      end
  | _ => raise AttributeError
  end.

(** Looking up the method [pop] on [o], which precedes the evaluation of
    the call's arguments: dicts and lists have it. *)
Definition pop_method (o : value) : M unit :=
  match o with
  | VRef _ => ret tt
  | _ => raise AttributeError
  end.

(** [o.pop(k, default)]. *)
Definition pop_default (o : value) (k : string) (default : value) : M value :=
  match o with
  | VRef l =>
      obj ← get_obj l;
      match obj with
      | ODict fields =>
          match assoc k fields with
          | Some v => _ ← put_obj l (ODict (alist_remove k fields)); ret v
          | None => ret default
          end
      | OList _ => raise TypeError
      end
  | _ => raise AttributeError
  end.

Fixpoint same_keys (ks ks' : list string) : bool :=
  match ks, ks' with
  | [], [] => true
  | k :: ks, k' :: ks' => String.eqb k k' && same_keys ks ks'
  | _, _ => false
  end.

(** The dict iterator's check before it yields the next key or stops:
    the dict must still have the keys it had when the loop began. *)
Definition check_unchanged (l : loc) (ks : list string) : M unit :=
  obj ← get_obj l;
  match obj with
  | ODict fields => if same_keys (keys fields) ks then ret tt
                    else raise RuntimeError
  | OList _ => ret tt
  end.

(** [for x in o: body(x)].  The source never mutates a list, so a list
    is iterated over the items it has when the loop begins. *)
Definition for_each (o : value) (body : value → M unit) : M unit :=
  match o with
  | VRef l =>
      obj ← get_obj l;
      match obj with
      | OList items => forM items body
      | ODict fields =>
          let ks := keys fields in
          forM ks (fun k => _ ← body (VStr k); check_unchanged l ks)
      end
  | VStr s => forM (chars s) body
  | _ => raise TypeError
  end.

(** ** [copy.deepcopy] *)

(** The memo of a deep copy: the objects copied so far, each with its
    copy. *)
Abbreviation memo_table := (list (loc * loc)).

Fixpoint memo_get (l : loc) (memo : memo_table) : option loc :=
  match memo with
  | [] => None
  | (l', y) :: memo' => if Nat.eqb l l' then Some y else memo_get l memo'
  end.

(** [y.append(v)] and [y[k] = v] on the copy under construction. *)
Definition list_append (y : loc) (v : value) : M unit :=
  obj ← get_obj y;
  match obj with
  | OList items => put_obj y (OList (items ++ [v])%list)
  | ODict _ => raise TypeError
  end.

Definition dict_set (y : loc) (k : string) (v : value) : M unit :=
  obj ← get_obj y;
  match obj with
  | ODict fields => put_obj y (ODict (alist_set k v fields))
  | OList _ => raise TypeError
  end.

(** The type of [deepcopy(x, memo)]: the copy and the memo afterwards. *)
Abbreviation copier := (value → memo_table → M (value * memo_table)).

(** [for a in x: y.append(deepcopy(a, memo))], with [copy] for the
    recursive [deepcopy]: the memo after the loop. *)
Fixpoint copy_items (copy : copier)
    (y : loc) (items : list value) (memo : memo_table)
  : M (memo_table) :=
  match items with
  | [] => ret memo
  | a :: items' =>
      r ← copy a memo;
      _ ← list_append y (fst r);
      copy_items copy y items' (snd r)
  end.

(** [for key, value in x.items(): y[deepcopy(key, memo)] =
    deepcopy(value, memo)]; the keys are [str]s, which are their own
    copies. *)
Fixpoint copy_fields (copy : copier)
    (y : loc) (fields : list (string * value)) (memo : memo_table)
  : M (memo_table) :=
  match fields with
  | [] => ret memo
  | (k, a) :: fields' =>
      r ← copy a memo;
      _ ← dict_set y k (fst r);
      copy_fields copy y fields' (snd r)
  end.

(** [deepcopy(x, memo)]: scalars are returned as they are; an object
    copied before is answered from the memo; otherwise an empty copy is
    created, recorded in the memo, and filled with the copies of the
    items.  [fuel] bounds the nesting of objects not yet in the memo. *)
Fixpoint deepcopy_memo (fuel : nat) (x : value) (memo : memo_table)
  : M (value * memo_table) :=
  match x with
  | VRef l =>
      match memo_get l memo with
      | Some y => ret (VRef y, memo)
      | None =>
          match fuel with
          | O => raise Stuck
          | S fuel' =>
              obj ← get_obj l;
              match obj with
              | OList items =>
                  y ← alloc_loc (OList []);
                  memo ← copy_items (deepcopy_memo fuel') y items
                           ((l, y) :: memo);
                  ret (VRef y, memo)
              | ODict fields =>
                  y ← alloc_loc (ODict []);
                  memo ← copy_fields (deepcopy_memo fuel') y fields
                           ((l, y) :: memo);
                  ret (VRef y, memo)
              end
          end
      end
  | _ => ret (x, memo)
  end.

(** [copy.deepcopy(x)].  No nesting is deeper than the number of objects
    in the store. *)
Definition deepcopy (x : value) : M value := fun h =>
  (r ← deepcopy_memo (S (length h)) x []; ret (fst r)) h.

(** ** The three functions of the source *)

(** Line 71. *)
Definition is_allOf_enum (object_property : value) : M bool :=
  has_allOf ← contains "allOf" object_property;
  if has_allOf : bool
  then first ← (ret object_property).["allOf"].[#0]; contains "enum" first
  else ret false.

(** Lines 70-73, the body of the loop over the keys of
    [format["properties"]]. *)
Definition hoist_enum (format key : value) : M unit :=
  properties ← (ret format).["properties"];
  object_property ← subscript properties key;
  is_enum ← is_allOf_enum object_property;
  if is_enum : bool
  then enum ← (ret object_property).["allOf"].[#0].["enum"];
       _ ← setitem object_property "enum" enum;
       _ ← pop object_property "allOf";
       ret tt
  else ret tt.

(** Lines 69-73. *)
Definition hoist_enums_of_format (format : value) : M unit :=
  properties ← (ret format).["properties"];
  for_each properties (hoist_enum format).

Definition stream_properties (schema : value) : M value :=
  (ret schema).["properties"].["streams"].["items"].["properties"].

(** Lines 66-73, the block guarded by
    [if "additionalProperties" in objects_to_check].  The default [[]] is
    built once [pop] has been looked up and before it is called. *)
Definition rewrite_format_union (objects_to_check : value) : M unit :=
  additional ← (ret objects_to_check).["additionalProperties"];
  _ ← pop_method additional;
  default ← alloc (OList []);
  any_of ← pop_default additional "anyOf" default;
  additional ← (ret objects_to_check).["additionalProperties"];
  _ ← setitem additional "oneOf" any_of;
  formats ← (ret objects_to_check).["additionalProperties"].["oneOf"];
  for_each formats hoist_enums_of_format.

(** Lines 77-79: the right-hand side is evaluated first. *)
Definition anyOf_to_oneOf (schema : value) (property_to_change : string)
  : M unit :=
  node ← (stream_properties schema).[property_to_change];
  any_of ← pop node "anyOf";
  node ← (stream_properties schema).[property_to_change];
  setitem node "oneOf" any_of.

Definition replace_enum_allOf_and_anyOf (schema : value) : M value :=
  objects_to_check ← (stream_properties schema).["format"];
  has_additional ← contains "additionalProperties" objects_to_check;
  _ ← (if has_additional : bool
       then rewrite_format_union objects_to_check
       else ret tt);
  _ ← forM Tree.properties_to_change (anyOf_to_oneOf schema);
  ret schema.

Definition add_legacy_format (schema : value) : M value :=
  required ← alloc (OList [VStr "filetype"]);
  filetype ← alloc (ODict [("title", VStr "Filetype");
                           ("type", VStr "string")]);
  properties ← alloc (ODict [("filetype", filetype)]);
  legacy_format_options ←
    alloc (ODict [("title", VStr "Legacy Format");
                  ("required", required);
                  ("type", VStr "object");
                  ("properties", properties)]);
  csv_format_options ← (stream_properties schema).["format"];
  members ← alloc (OList [csv_format_options; legacy_format_options]);
  union_format ← alloc (ODict [("oneOf", members)]);
  properties ← stream_properties schema;
  _ ← setitem properties "format" union_format;
  ret schema.

Section Schema.
(** [schema_helpers.expand_refs], whose source is outside this file. *)
Variable expand_refs : value → M unit.

(** [AbstractFileBasedSpec.schema], from the mapping that
    [super().schema(...)] returned. *)
Definition schema (raw : value) : M value :=
  transformed_schema ← deepcopy raw;
  _ ← expand_refs transformed_schema;
  _ ← replace_enum_allOf_and_anyOf transformed_schema;
  _ ← add_legacy_format transformed_schema;
  ret transformed_schema.
End Schema.

(** ** Stores and trees *)

(** The tree a value unfolds to, down to [fuel] levels of objects. *)
Fixpoint reify (fuel : nat) (h : heap) (v : value) : option json :=
  match v with
  | VNone => Some JNull
  | VBool b => Some (JBool b)
  | VInt n => Some (JNum n)
  | VStr s => Some (JStr s)
  | VRef l =>
      match fuel with
      | O => None
      | S fuel' =>
          match h !! l with
          | Some (OList items) =>
              JArr <$> (fix go (items : list value) : option (list json) :=
                          match items with
                          | [] => Some []
                          | a :: items' =>
                              x ← reify fuel' h a; xs ← go items';
                              Some (x :: xs)
                          end) items
          | Some (ODict fields) =>
              JObj <$> (fix go (fields : list (string * value))
                          : option (list (string * json)) :=
                          match fields with
                          | [] => Some []
                          | (k, a) :: fields' =>
                              x ← reify fuel' h a; xs ← go fields';
                              Some ((k, x) :: xs)
                          end) fields
          | None => None
          end
      end
  end.

(** Building a tree in the store, each dict and list a new object. *)
Fixpoint load (t : json) : M value :=
  match t with
  | JNull => ret VNone
  | JBool b => ret (VBool b)
  | JNum n => ret (VInt n)
  | JStr s => ret (VStr s)
  | JArr items =>
      vs ← (fix go (items : list json) : M (list value) :=
              match items with
              | [] => ret []
              | a :: items' => v ← load a; vs ← go items'; ret (v :: vs)
              end) items;
      alloc (OList vs)
  | JObj fields =>
      kvs ← (fix go (fields : list (string * json))
               : M (list (string * value)) :=
               match fields with
               | [] => ret []
               | (k, a) :: fields' =>
                   v ← load a; kvs ← go fields'; ret ((k, v) :: kvs)
               end) fields;
      alloc (ODict kvs)
  end.

(** The references an object holds. *)
Definition obj_values (o : object) : list value :=
  match o with
  | ODict fields => map snd fields
  | OList items => items
  end.

(** [reachable h v l]: object [l] is [v] or is reached from [v] through
    dict values and list items. *)
Inductive reachable (h : heap) : value → loc → Prop :=
  | reach_here l : reachable h (VRef l) l
  | reach_step l o v l' :
      h !! l = Some o → In v (obj_values o) → reachable h v l' →
      reachable h (VRef l) l'.

(** No reference of the store dangles. *)
Definition value_in (n : nat) (v : value) : bool :=
  match v with VRef l => Nat.ltb l n | _ => true end.

Definition heap_wf (h : heap) : bool :=
  forallb (fun o => forallb (value_in (length h)) (obj_values o)) h.

(** ** Isolation of the objects created since a given store *)

Definition value_ge (n : nat) (v : value) : Prop :=
  match v with VRef l => n ≤ l | _ => True end.

(** [isolated h0 h]: store [h] is store [h0], object for object, followed
    by newer objects that hold no reference to an object of [h0]. *)
Definition isolated (h0 h : heap) : Prop :=
  ∃ ext, h = (h0 ++ ext)%list
         ∧ Forall (fun o => Forall (value_ge (length h0)) (obj_values o)) ext.

(** Every copy recorded in the memo is at or after [n]. *)
Definition memo_ge (n : nat) (memo : memo_table) : Prop :=
  ∀ l y, memo_get l memo = Some y → n ≤ y.

(** [safe h0 m ok]: run on a store isolated from [h0], statement [m]
    leaves the store isolated from [h0], whether it returns or raises,
    and what it returns satisfies [ok]. *)
Definition safe (h0 : heap) {A} (m : M A) (ok : A → Prop) : Prop :=
  ∀ h, isolated h0 h →
       isolated h0 (snd (m h)) ∧ ∀ a, fst (m h) = Ok a → ok a.

(** ** Two runs compared up to the identity of objects *)

(** [R l1 l2]: object [l1] of one store plays the part of object [l2] of
    the other. *)
Definition sub (R R' : loc → loc → Prop) : Prop := ∀ l1 l2, R l1 l2 → R' l1 l2.

Definition vrel (R : loc → loc → Prop) (v1 v2 : value) : Prop :=
  match v1, v2 with
  | VRef l1, VRef l2 => R l1 l2
  | VRef _, _ | _, VRef _ => False
  | _, _ => v1 = v2
  end.

Definition orel (R : loc → loc → Prop) (o1 o2 : object) : Prop :=
  match o1, o2 with
  | ODict d1, ODict d2 =>
      Forall2 (fun kv1 kv2 => fst kv1 = fst kv2 ∧ vrel R (snd kv1) (snd kv2))
              d1 d2
  | OList i1, OList i2 => Forall2 (vrel R) i1 i2
  | _, _ => False
  end.

(** [R] pairs objects one to one, and paired objects hold equal scalars
    and paired references at the same keys and positions. *)
Definition hrel (R : loc → loc → Prop) (h1 h2 : heap) : Prop :=
  (∀ l1 l2 l2', R l1 l2 → R l1 l2' → l2 = l2')
  ∧ (∀ l1 l1' l2, R l1 l2 → R l1' l2 → l1 = l1')
  ∧ ∀ l1 l2, R l1 l2 →
      ∃ o1 o2, h1 !! l1 = Some o1 ∧ h2 !! l2 = Some o2 ∧ orel R o1 o2.

Definition rrel {A} (Q : A → A → Prop) (r1 r2 : result A) : Prop :=
  match r1, r2 with
  | Ok a1, Ok a2 => Q a1 a2
  | Err e1, Err e2 => e1 = e2
  | _, _ => False
  end.

(** [mrel Q R m1 m2]: from stores paired by [R], the two statements end
    in stores paired by an extension of [R], both returning, with results
    related by [Q], or both raising the same exception. *)
Definition mrel {A} (Q : (loc → loc → Prop) → A → A → Prop)
    (R : loc → loc → Prop) (m1 m2 : M A) : Prop :=
  ∀ h1 h2, hrel R h1 h2 →
    ∃ R', sub R R' ∧ hrel R' (snd (m1 h1)) (snd (m2 h2))
          ∧ rrel (Q R') (fst (m1 h1)) (fst (m2 h2)).

Definition memo_rel (R : loc → loc → Prop) (m1 m2 : memo_table) : Prop :=
  Forall2 (fun p1 p2 => R (fst p1) (fst p2) ∧ R (snd p1) (snd p2)) m1 m2.

Definition copy_rel (R : loc → loc → Prop)
    (r1 r2 : value * memo_table) : Prop :=
  vrel R (fst r1) (fst r2) ∧ memo_rel R (snd r1) (snd r2).

(** [memo'] holds what [memo] holds. *)
Definition memo_ext (memo memo' : memo_table) : Prop :=
  ∀ l y, memo_get l memo = Some y → memo_get l memo' = Some y.

(** The number of objects below [n] that the memo does not hold. *)
Fixpoint unmemoized (n : nat) (memo : memo_table) : nat :=
  match n with
  | O => 0
  | S n' =>
      match memo_get n' memo with
      | None => S (unmemoized n' memo)
      | Some _ => unmemoized n' memo
      end
  end.

(** [copies_well h0 fuel copy]: on a store that still has the objects of
    [h0] as they were, [copy] returns for every value of [h0] when at most
    [fuel] objects of [h0] are not in the memo; it keeps the memo's
    entries and the objects the store had. *)
Definition copies_well (h0 : heap) (fuel : nat)
    (copy : copier) : Prop :=
  ∀ a memo h,
    value_in (length h0) a = true →
    unmemoized (length h0) memo ≤ fuel →
    (∀ l, l < length h0 → h !! l = h0 !! l) →
    length h0 ≤ length h →
    ∃ r h', copy a memo h = (Ok r, h')
            ∧ memo_ext memo (snd r)
            ∧ (∀ l, l < length h → h' !! l = h !! l)
            ∧ length h ≤ length h'.

End Heap.

(** * Sample schemas *)

Module Samples.

(** A field of enum type as pydantic writes it once its reference is
    expanded: the enum under [allOf], next to the field's own keys. *)
Definition quoting_behavior : json :=
  JObj [("title", JStr "Quoting Behavior");
        ("default", JStr "Quote Special Characters");
        ("allOf",
          JArr [JObj [("title", JStr "QuotingBehavior");
                      ("description", JStr "An enumeration.");
                      ("enum", JArr [JStr "Quote All";
                                     JStr "Quote Special Characters";
                                     JStr "Quote None"])]])].

Definition csv_format : json :=
  JObj [("title", JStr "CsvFormat");
        ("type", JStr "object");
        ("properties",
          JObj [("delimiter", JObj [("title", JStr "Delimiter");
                                    ("type", JStr "string")]);
                ("quoting_behavior", quoting_behavior)])].

Definition primary_key : json :=
  JObj [("title", JStr "Primary Key");
        ("anyOf", JArr [JObj [("type", JStr "string")];
                        JObj [("type", JStr "array");
                              ("items", JObj [("type", JStr "string")])]])].

Definition input_schema : json :=
  JObj [("title", JStr "Input Schema");
        ("anyOf", JArr [JObj [("type", JStr "object")];
                        JObj [("type", JStr "string")]])].

(** A schema document whose stream entry has the given [format],
    [primary_key] and [input_schema] schemas. *)
Definition spec_with (format primary_key input_schema : json) : json :=
  JObj [("title", JStr "AbstractFileBasedSpec");
        ("type", JStr "object");
        ("properties",
          JObj [("start_date", JObj [("title", JStr "Start Date");
                                     ("type", JStr "string")]);
                ("streams",
                  JObj [("title", JStr "The list of streams to sync");
                        ("type", JStr "array");
                        ("items",
                          JObj [("title", JStr "FileBasedStreamConfig");
                                ("type", JStr "object");
                                ("properties",
                                  JObj [("name", JObj [("type", JStr "string")]);
                                        ("format", format);
                                        ("primary_key", primary_key);
                                        ("input_schema", input_schema)])])])])].

Definition format_of (alternatives : list json) : json :=
  JObj [("title", JStr "Format");
        ("type", JStr "object");
        ("additionalProperties", JObj [("anyOf", JArr alternatives)])].

Definition spec : json :=
  spec_with (format_of [csv_format]) primary_key input_schema.

(** The field schema of the enum-hoist example of the specification. *)
Definition wrapped_enum : json :=
  JObj [("allOf", JArr [JObj [("enum", JArr [JStr "a"; JStr "b"])];
                        JObj [("title", JStr "X")]])].

Definition spec_wrapped_enum : json :=
  spec_with
    (format_of [JObj [("properties", JObj [("kind", wrapped_enum)])]])
    primary_key input_schema.

(** A field whose [allOf] does not start with an enum. *)
Definition wrapped_titles : json :=
  JObj [("allOf", JArr [JObj [("title", JStr "X")];
                        JObj [("title", JStr "Y")]])].

Definition spec_wrapped_titles : json :=
  spec_with
    (format_of [JObj [("properties", JObj [("kind", wrapped_titles)])]])
    primary_key input_schema.

(** A union of two types, as in the rename example of the specification. *)
Definition two_types : json :=
  JObj [("anyOf", JArr [JObj [("type", JStr "string")];
                        JObj [("type", JStr "integer")]])].

Definition spec_two_types : json :=
  spec_with (format_of [csv_format]) two_types two_types.

(** A format node without [additionalProperties] that itself requires
    [filetype]. *)
Definition format_requiring_filetype : json :=
  JObj [("title", JStr "Format");
        ("type", JStr "object");
        ("required", JArr [JStr "filetype"])].

Definition spec_requiring_filetype : json :=
  spec_with format_requiring_filetype primary_key input_schema.

(** A format node that allows any additional property. *)
Definition spec_additional_true : json :=
  spec_with (JObj [("type", JStr "object");
                   ("additionalProperties", JBool true)])
            primary_key input_schema.

(** A format node whose [additionalProperties] has no [anyOf]. *)
Definition spec_no_union : json :=
  spec_with (JObj [("type", JStr "object");
                   ("additionalProperties", JObj [("type", JStr "object")])])
            primary_key input_schema.

(** As [spec_no_union], with a [primary_key] that is no union. *)
Definition spec_no_union_plain_key : json :=
  spec_with (JObj [("type", JStr "object");
                   ("additionalProperties", JObj [("type", JStr "object")])])
            (JObj [("title", JStr "Primary Key"); ("type", JStr "string")])
            input_schema.

(** The tree a run of the normalizer leaves, [JNull] if it raises. *)
Definition normalized (t : json) : json :=
  match Tree.replace_enum_allOf_and_anyOf t with
  | Ok t' => t'
  | Err _ => JNull
  end.

Definition normalized_spec : json := Eval vm_compute in normalized spec.
Definition normalized_spec_wrapped_enum : json :=
  Eval vm_compute in normalized spec_wrapped_enum.
Definition normalized_spec_wrapped_titles : json :=
  Eval vm_compute in normalized spec_wrapped_titles.
Definition normalized_spec_two_types : json :=
  Eval vm_compute in normalized spec_two_types.
Definition normalized_spec_requiring_filetype : json :=
  Eval vm_compute in normalized spec_requiring_filetype.
Definition normalized_spec_no_union : json :=
  Eval vm_compute in normalized spec_no_union.

(** The sample schema as objects in an otherwise empty store; the root
    dict is the newest object. *)
Definition spec_heap : Heap.heap :=
  Eval vm_compute in snd (Heap.load spec []).
Definition spec_root : Heap.value :=
  Eval vm_compute in
    match fst (Heap.load spec []) with Ok v => v | Err _ => Heap.VNone end.

(** An [expand_refs] for schemas without references. *)
Definition no_refs (schema : Heap.value) : Heap.M unit := Heap.ret tt.

(** A field whose [allOf] is an empty list. *)
Definition spec_empty_allOf : json :=
  spec_with
    (format_of [JObj [("properties",
                        JObj [("kind", JObj [("allOf", JArr [])])])]])
    primary_key input_schema.

(** A format alternative without [properties]. *)
Definition spec_bare_alternative : json :=
  spec_with (format_of [JObj [("title", JStr "CsvFormat")]])
            primary_key input_schema.

(** The document [schema] returns for the sample, [JNull] if it raises. *)
Definition served_spec : json :=
  Eval vm_compute in
    match Tree.schema Ok spec with Ok t => t | Err _ => JNull end.


End Samples.

(** * Facts about dictionaries and paths *)

Section AlistFacts.
Context {V : Type}.
Implicit Types (d : list (string * V)) (k : string) (v : V).

Lemma assoc_set_eq k v d : assoc k (alist_set k v d) = Some v.
Proof.
  induction d as [|[k' v'] d IH]; simpl.
  - by rewrite String.eqb_refl.
  - destruct (String.eqb k k') eqn:E; simpl; rewrite E; auto.
Qed.

Lemma assoc_set_ne k k' v d :
  k ≠ k' → assoc k' (alist_set k v d) = assoc k' d.
Proof.
  intros Hne. induction d as [|[k0 v0] d IH]; simpl.
  - destruct (String.eqb k' k) eqn:E; [|done].
    apply String.eqb_eq in E. congruence.
  - destruct (String.eqb k k0) eqn:E; simpl; [|by rewrite IH].
    apply String.eqb_eq in E. subst k0.
    destruct (String.eqb k' k) eqn:E'; [|done].
    apply String.eqb_eq in E'. congruence.
Qed.

Lemma alist_set_same k v d : assoc k d = Some v → alist_set k v d = d.
Proof.
  induction d as [|[k' v'] d IH]; simpl; [done|].
  destruct (String.eqb k k'); [congruence|].
  intros H. by rewrite IH.
Qed.

Lemma alist_set_set k v v' d :
  alist_set k v' (alist_set k v d) = alist_set k v' d.
Proof.
  induction d as [|[k0 v0] d IH]; simpl.
  - by rewrite String.eqb_refl.
  - destruct (String.eqb k k0) eqn:E; simpl; rewrite E; [done|].
    by rewrite IH.
Qed.

Lemma assoc_remove_ne k k' d :
  k ≠ k' → assoc k' (alist_remove k d) = assoc k' d.
Proof.
  intros Hne. induction d as [|[k0 v0] d IH]; simpl; [done|].
  destruct (String.eqb k k0) eqn:E; simpl.
  - apply String.eqb_eq in E. subst k0.
    destruct (String.eqb k' k) eqn:E'; [|done].
    apply String.eqb_eq in E'. congruence.
  - by rewrite IH.
Qed.

Lemma existsb_eqb_keys k d :
  existsb (String.eqb k) (keys d) = has_key k d.
Proof.
  unfold has_key. induction d as [|[k0 v0] d IH]; simpl; [done|].
  destruct (String.eqb k k0); simpl; auto.
Qed.

Lemma assoc_remove_eq k d :
  distinct (keys d) = true → assoc k (alist_remove k d) = None.
Proof.
  induction d as [|[k0 v0] d IH]; simpl; [done|].
  intros [Hk Hd]%andb_prop.
  destruct (String.eqb k k0) eqn:E; simpl.
  - apply String.eqb_eq in E. subst k0.
    rewrite existsb_eqb_keys in Hk. unfold has_key in Hk.
    by destruct (assoc k d).
  - rewrite E. auto.
Qed.

Lemma has_key_set k k' v d :
  has_key k' (alist_set k v d) = has_key k' d || String.eqb k' k.
Proof.
  unfold has_key. destruct (String.eqb k' k) eqn:E.
  - apply String.eqb_eq in E. subst k'. rewrite assoc_set_eq.
    by rewrite orb_true_r.
  - apply String.eqb_neq in E. rewrite assoc_set_ne by congruence.
    by rewrite orb_false_r.
Qed.

Lemma keys_set_present k v d :
  has_key k d = true → keys (alist_set k v d) = keys d.
Proof.
  unfold has_key. induction d as [|[k0 v0] d IH]; simpl; [done|].
  destruct (String.eqb k k0) eqn:E; simpl; [done|].
  intros H. by rewrite IH.
Qed.

Lemma length_set_present k v d :
  has_key k d = true → length (alist_set k v d) = length d.
Proof.
  intros H. apply keys_set_present with (v := v) in H.
  apply (f_equal length) in H. unfold keys in H.
  by rewrite !length_map in H.
Qed.
End AlistFacts.

Lemma has_key_assoc {V} k (d : list (string * V)) :
  has_key k d = true ↔ ∃ v, assoc k d = Some v.
Proof.
  unfold has_key. destruct (assoc k d); split; eauto; [|intros [? ?]]; done.
Qed.

Lemma result_bind_ok {A B} (m : result A) (f : A → result B) b :
  (a ← m; f a) = Ok b ↔ ∃ a, m = Ok a ∧ f a = Ok b.
Proof.
  destruct m as [a|e]; simpl; split.
  - eauto.
  - by intros (? & [= <-] & ?).
  - done.
  - by intros (? & ? & ?).
Qed.

(** A successful subscript by a [str] reads a key of a dict. *)
Lemma py_subscript_str_ok o k v :
  py_subscript o (JStr k) = Ok v ↔ ∃ d, o = JObj d ∧ assoc k d = Some v.
Proof.
  split.
  - destruct o; simpl; try done.
    destruct (assoc k fields) eqn:E; [|done]. intros [= <-]. eauto.
  - intros (d & -> & H). simpl. by rewrite H.
Qed.

Lemma store_same o k v :
  py_subscript o (JStr k) = Ok v → store o (JStr k) v = o.
Proof.
  intros (d & -> & H)%py_subscript_str_ok. simpl.
  unfold has_key. rewrite H. by rewrite alist_set_same.
Qed.

Lemma subscript_store_eq o k v v' :
  py_subscript o (JStr k) = Ok v →
  py_subscript (store o (JStr k) v') (JStr k) = Ok v'.
Proof.
  intros (d & -> & H)%py_subscript_str_ok. simpl.
  unfold has_key. rewrite H. simpl. by rewrite assoc_set_eq.
Qed.

Lemma subscript_store_ne o k k' v' :
  k ≠ k' →
  py_subscript (store o (JStr k) v') (JStr k') = py_subscript o (JStr k').
Proof.
  intros Hne. destruct o; try done. simpl.
  destruct (has_key k fields); [|done]. simpl.
  by rewrite assoc_set_ne.
Qed.

Lemma store_store o k v v' :
  store (store o (JStr k) v) (JStr k) v' = store o (JStr k) v'.
Proof.
  destruct o; try done. simpl.
  destruct (has_key k fields) eqn:E; simpl; [|by rewrite E].
  rewrite has_key_set, E. simpl. by rewrite alist_set_set.
Qed.

Lemma get_path_app p q t :
  get_path (p ++ q) t = (o ← get_path p t; get_path q o).
Proof.
  revert t. induction p as [|k p IH]; intros t; simpl; [done|].
  destruct (py_subscript t (JStr k)); simpl; auto.
Qed.

Lemma get_store_path p t o v :
  get_path p t = Ok o → get_path p (store_path p v t) = Ok v.
Proof.
  revert t. induction p as [|k p IH]; intros t; simpl; [done|].
  destruct (py_subscript t (JStr k)) as [c|] eqn:E; simpl; [|done].
  intros H. erewrite subscript_store_eq by eauto. simpl. eauto.
Qed.

Lemma store_path_same p t o : get_path p t = Ok o → store_path p o t = t.
Proof.
  revert t. induction p as [|k p IH]; intros t; simpl; [congruence|].
  destruct (py_subscript t (JStr k)) as [c|] eqn:E; simpl; [|done].
  intros H. rewrite IH by done. by apply store_same.
Qed.

Lemma store_path_app p q t o v :
  get_path p t = Ok o →
  store_path (p ++ q) v t = store_path p (store_path q v o) t.
Proof.
  revert t. induction p as [|k p IH]; intros t; simpl; [congruence|].
  destruct (py_subscript t (JStr k)) as [c|] eqn:E; simpl; [|done].
  intros H. by rewrite (IH _ H).
Qed.

Lemma store_path_twice p t o v v' :
  get_path p t = Ok o →
  store_path p v' (store_path p v t) = store_path p v' t.
Proof.
  revert t. induction p as [|k p IH]; intros t; simpl; [done|].
  destruct (py_subscript t (JStr k)) as [c|] eqn:E; simpl; [|done].
  intros H. erewrite subscript_store_eq by eauto.
  rewrite store_store. by rewrite (IH _ H).
Qed.

(** The chained subscripts of the source are [get_path]. *)
Lemma getitem_get_path p t k :
  (get_path p t).[k] = get_path (p ++ [k]) t.
Proof.
  rewrite get_path_app. unfold getitem. simpl.
  destruct (get_path p t); simpl; [|done].
  by destruct (py_subscript _ _).
Qed.

(** * Facts about the normalizer *)

Import Tree.
#[local] Arguments stream_properties : simpl never.
#[local] Arguments store_path : simpl never.

Tactic Notation "rsimpl" := cbn [mbind result_bind].
Tactic Notation "rsimpl" "in" hyp(H) := cbn [mbind result_bind] in H.

Lemma stream_properties_chain t :
  (Ok t).["properties"].["streams"].["items"].["properties"]
  = get_path stream_properties t.
Proof.
  unfold stream_properties, getitem. simpl.
  repeat (destruct (py_subscript _ _); simpl; try done).
Qed.

Lemma foldM_ext {A B} (f g : A → B → result A) xs a :
  (∀ a x, f a x = g a x) → foldM f xs a = foldM g xs a.
Proof.
  intros H. revert a. induction xs as [|x xs IH]; intros a; simpl; [done|].
  rewrite H. destruct (g a x); simpl; auto.
Qed.

Lemma foldM_store_path {B} (body : json → B → result json) p xs :
  ∀ t o,
    get_path p t = Ok o →
    foldM (fun t x => o ← get_path p t; o' ← body o x;
                      Ok (store_path p o' t)) xs t
    = (o' ← foldM body xs o; Ok (store_path p o' t)).
Proof.
  induction xs as [|x xs IH]; intros t o Hp; simpl.
  - by rewrite (store_path_same _ _ _ Hp).
  - rewrite Hp. simpl. destruct (body o x) as [o1|e]; simpl; [|done].
    rewrite (IH _ o1) by (eapply get_store_path; eauto).
    destruct (foldM body xs o1); simpl; [|done].
    by rewrite (store_path_twice _ _ _ _ _ Hp).
Qed.

Lemma anyOf_to_oneOf_node_eq t p :
  anyOf_to_oneOf t p
  = (o ← get_path stream_properties t; o' ← anyOf_to_oneOf_node o p;
     Ok (store_path stream_properties o' t)).
Proof.
  unfold anyOf_to_oneOf, anyOf_to_oneOf_node.
  rewrite stream_properties_chain.
  destruct (get_path stream_properties t) as [o|e] eqn:Hp; simpl; [|done].
  destruct (py_subscript o (JStr p)) as [n|e] eqn:Hn; simpl; [|done].
  destruct (py_pop n "anyOf") as [[v n1]|e]; simpl; [|done].
  destruct (py_setitem n1 "oneOf" v) as [n2|e]; simpl; [|done].
  change (store_path _ n2 t) with (store_path (stream_properties ++ [p]) n2 t).
  rewrite (store_path_app _ _ _ _ _ Hp).
  unfold store_path at 2. by rewrite Hn.
Qed.

(** [replace_enum_allOf_and_anyOf] acts on the stream schema node only. *)
Lemma replace_enum_allOf_and_anyOf_node t :
  replace_enum_allOf_and_anyOf t
  = (o ← get_path stream_properties t; o' ← normalize_node o;
     Ok (store_path stream_properties o' t)).
Proof.
  assert (Hfold : ∀ t' o', get_path stream_properties t' = Ok o' →
            foldM anyOf_to_oneOf properties_to_change t'
            = (o'' ← foldM anyOf_to_oneOf_node properties_to_change o';
               Ok (store_path stream_properties o'' t'))).
  { intros t' o' Hp'.
    rewrite <- (foldM_store_path anyOf_to_oneOf_node _ _ _ _ Hp').
    apply foldM_ext. intros; apply anyOf_to_oneOf_node_eq. }
  unfold replace_enum_allOf_and_anyOf, normalize_node, format_block.
  rewrite stream_properties_chain. unfold getitem.
  destruct (get_path stream_properties t) as [o|e] eqn:Hp; rsimpl; [|done].
  destruct (py_subscript o (JStr "format")) as [f|e] eqn:Hf; rsimpl; [|done].
  destruct (py_in "additionalProperties" f) as [[]|e]; rsimpl; [| |done].
  - destruct (rewrite_format_union f) as [f'|e]; rsimpl; [|done].
    change (store_path format_path f' t)
      with (store_path (stream_properties ++ ["format"]) f' t).
    rewrite (store_path_app _ _ _ _ _ Hp).
    unfold store_path at 2. rewrite Hf.
    erewrite Hfold by (eapply get_store_path; eauto).
    destruct (foldM _ _ _); rsimpl; [|done].
    by rewrite (store_path_twice _ _ _ _ _ Hp).
  - by apply Hfold.
Qed.

Lemma getitem_ok m k v :
  m.[k] = Ok v ↔ ∃ d, m = Ok (JObj d) ∧ assoc k d = Some v.
Proof.
  unfold getitem. rewrite result_bind_ok. split.
  - intros (o & -> & (d & -> & H)%py_subscript_str_ok). eauto.
  - intros (d & -> & H). eexists; split; [done|]. simpl. by rewrite H.
Qed.

Lemma seq_index_nat {A} (l : list A) (i : nat) :
  seq_index l (Z.of_nat i)
  = match nth_error l i with Some x => Ok x | None => Err IndexError end.
Proof.
  unfold seq_index.
  destruct (Z.of_nat i <? 0)%Z eqn:E; [apply Z.ltb_lt in E; lia|].
  rewrite Nat2Z.id.
  destruct (nth_error l i) eqn:Hn.
  - assert (i < length l)%nat by (apply nth_error_Some; congruence).
    replace (0 <=? Z.of_nat i)%Z with true by (symmetry; apply Z.leb_le; lia).
    replace (Z.of_nat i <? Z.of_nat (length l))%Z with true
      by (symmetry; apply Z.ltb_lt; lia).
    done.
  - by destruct (_ && _).
Qed.

Lemma chars_are_str s i x : nth_error (chars s) i = Some x → ∃ c, x = JStr c.
Proof.
  revert i. induction s as [|c s IH]; intros [|i]; simpl; try done.
  - intros [= <-]. eauto.
  - apply IH.
Qed.

(** An item that can itself be subscripted by a [str] was read from a list. *)
Lemma getindex_getitem_ok m i k v :
  m.[#Z.of_nat i].[k] = Ok v ↔
  ∃ l d, m = Ok (JArr l) ∧ nth_error l i = Some (JObj d) ∧ assoc k d = Some v.
Proof.
  rewrite getitem_ok. unfold getindex. split.
  - intros (d & (o & -> & H)%result_bind_ok & Hk).
    destruct o; simpl in H; try done.
    + rewrite seq_index_nat in H.
      destruct (nth_error (chars s) i) eqn:E; [|done].
      apply chars_are_str in E as [c ->]. done.
    + rewrite seq_index_nat in H.
      destruct (nth_error items i) eqn:E; [|done].
      injection H as ->. eauto.
  - intros (l & d & -> & Hn & Hk). exists d. split; [|done].
    rsimpl. simpl. rewrite seq_index_nat. by rewrite Hn.
Qed.

Lemma mapM_ok {A B} (f : A → result B) xs ys :
  mapM f xs = Ok ys ↔ Forall2 (fun x y => f x = Ok y) xs ys.
Proof.
  revert ys. induction xs as [|x xs IH]; intros ys; simpl.
  - split; [intros [= <-]; constructor | by inversion 1].
  - split.
    + intros (y & Hy & H)%result_bind_ok.
      apply result_bind_ok in H as (ys' & Hys & [= <-]).
      constructor; [done|]. by apply IH.
    + inversion 1 as [|? y ? ys' Hy Hys]; subst.
      rewrite Hy. rsimpl. apply IH in Hys. rewrite Hys. done.
Qed.

Lemma Forall2_nth_error_l {A B} (R : A → B → Prop) xs ys i x :
  Forall2 R xs ys → nth_error xs i = Some x →
  ∃ y, nth_error ys i = Some y ∧ R x y.
Proof.
  intros H. revert i. induction H; intros [|i]; simpl; try done.
  - intros [= <-]. eauto.
  - auto.
Qed.

Lemma Forall2_nth_error_r {A B} (R : A → B → Prop) xs ys i y :
  Forall2 R xs ys → nth_error ys i = Some y →
  ∃ x, nth_error xs i = Some x ∧ R x y.
Proof.
  intros H. revert i. induction H; intros [|i]; simpl; try done.
  - intros [= <-]. eauto.
  - auto.
Qed.

(** ** Well-formedness is inherited by the parts of a tree *)

Lemma json_wf_obj d :
  json_wf (JObj d) = true →
  distinct (keys d) = true ∧ ∀ k v, assoc k d = Some v → json_wf v = true.
Proof.
  simpl. intros [Hd Hg]%andb_prop. split; [done|].
  clear Hd. induction d as [|[k0 v0] d IH]; simpl; [done|].
  apply andb_prop in Hg as [H0 Hg]. intros k v.
  destruct (String.eqb k k0); [by intros [= <-]|]. by apply IH.
Qed.

Lemma json_wf_arr l i x :
  json_wf (JArr l) = true → nth_error l i = Some x → json_wf x = true.
Proof.
  simpl. intros H Hn. rewrite forallb_forall in H.
  apply H. eapply nth_error_In; eauto.
Qed.

Lemma distinct_not_in k ks :
  distinct (k :: ks) = true → ¬ In k ks ∧ distinct ks = true.
Proof.
  simpl. intros [Hk Hd]%andb_prop. split; [|done].
  intros Hin. apply negb_true_iff in Hk.
  assert (existsb (String.eqb k) ks = true); [|congruence].
  apply existsb_exists. exists k. split; [done|].
  apply String.eqb_refl.
Qed.

Lemma has_key_In {V} k (d : list (string * V)) :
  has_key k d = true ↔ In k (keys d).
Proof.
  rewrite <- existsb_eqb_keys, existsb_exists. split.
  - by intros (x & Hx & ->%String.eqb_eq).
  - intros H. exists k. split; [done|]. apply String.eqb_refl.
Qed.

(** ** The loop over the fields of one format alternative *)

Lemma store_not_obj p key v : (∀ d, p ≠ JObj d) → ∀ d, store p key v ≠ JObj d.
Proof.
  intros Hp d. destruct p; simpl; try done.
  - destruct (as_index key); [|done]. by destruct (_ && _).
  - by destruct (Hp fields).
Qed.

Lemma fold_fields_not_obj ks :
  ∀ p p',
    (∀ d, p ≠ JObj d) →
    foldM (fun properties key =>
             object_property ← py_subscript properties key;
             object_property ← hoist_enum object_property;
             Ok (store properties key object_property)) ks p = Ok p' →
    ∀ d, p' ≠ JObj d.
Proof.
  induction ks as [|key ks IH]; intros p p' Hp; simpl.
  - by intros [= <-].
  - intros (p1 & H1 & H)%result_bind_ok.
    apply result_bind_ok in H1 as (f & _ & H1).
    apply result_bind_ok in H1 as (f' & _ & [= <-]).
    eapply IH; [|done]. by apply store_not_obj.
Qed.

Lemma fold_fields ks :
  ∀ pd props',
    distinct ks = true →
    (∀ k, In k ks → has_key k pd = true) →
    foldM (fun properties key =>
             object_property ← py_subscript properties key;
             object_property ← hoist_enum object_property;
             Ok (store properties key object_property))
          (map JStr ks) (JObj pd) = Ok props' →
    ∃ pd', props' = JObj pd' ∧ keys pd' = keys pd
      ∧ (∀ k, In k ks → ∃ f f', assoc k pd = Some f ∧ hoist_enum f = Ok f'
                                ∧ assoc k pd' = Some f')
      ∧ (∀ k, ¬ In k ks → assoc k pd' = assoc k pd).
Proof.
  induction ks as [|k0 ks IH]; intros pd props' Hd Hin; simpl.
  - intros [= <-]. exists pd. repeat split; try done; by intros ? [].
  - intros (p1 & H1 & H)%result_bind_ok.
    apply result_bind_ok in H1 as (f & Hf & H1).
    apply result_bind_ok in H1 as (f1 & Hf1 & [= <-]).
    change (py_subscript (JObj pd) (JStr k0) = Ok f) in Hf.
    apply py_subscript_str_ok in Hf as (d & [= <-] & Hf).
    apply distinct_not_in in Hd as [Hk0 Hd].
    assert (Hk : has_key k0 pd = true) by (apply Hin; by left).
    simpl in H. rewrite Hk in H.
    apply IH in H as (pd' & -> & Hkeys & Hin' & Hout); [|done|].
    + exists pd'. split; [done|]. split.
      { by rewrite Hkeys, keys_set_present. }
      split.
      * intros k [<-|Hk'].
        { exists f, f1. repeat split; try done.
          rewrite Hout by done. apply assoc_set_eq. }
        destruct (Hin' k Hk') as (g & g' & Hg & Hh & Hg').
        exists g, g'. repeat split; try done.
        rewrite <- Hg. symmetry. apply assoc_set_ne. by intros ->.
      * intros k Hk'. rewrite Hout by tauto.
        apply assoc_set_ne. intros ->. apply Hk'. by left.
    + intros k Hk'. rewrite has_key_set. rewrite Hin; [done|by right].
Qed.

(** After the loop, each field of the alternative is the loop body's
    result on that field, and there are no other fields. *)
Lemma hoist_enums_of_format_fields a a' k :
  json_wf a = true →
  hoist_enums_of_format a = Ok a' →
  (∀ f, (Ok a).["properties"].[k] = Ok f →
        ∃ f', hoist_enum f = Ok f' ∧ (Ok a').["properties"].[k] = Ok f')
  ∧ (∀ f', (Ok a').["properties"].[k] = Ok f' →
        ∃ f, (Ok a).["properties"].[k] = Ok f ∧ hoist_enum f = Ok f').
Proof.
  intros Hwf. unfold hoist_enums_of_format.
  intros (props & Hprops & H)%result_bind_ok.
  apply result_bind_ok in H as (ks & Hks & H).
  apply result_bind_ok in H as (props' & Hfold & [= <-]).
  apply getitem_ok in Hprops as (ad & [= ->] & Hprops).
  assert (Ha' : (Ok (store (JObj ad) (JStr "properties") props')).["properties"]
                = Ok props').
  { unfold getitem. rsimpl.
    eapply subscript_store_eq. simpl. by rewrite Hprops. }
  assert (Ha : (Ok (JObj ad)).["properties"] = Ok props).
  { apply getitem_ok. eauto. }
  rewrite Ha, Ha'. clear Ha Ha'.
  apply json_wf_obj in Hwf as [_ Hwf]. specialize (Hwf _ _ Hprops).
  destruct props as [| | | |l|pd];
    try (simpl in Hks; discriminate).
  - (* the properties are a [str] *)
    injection Hks as <-.
    assert (∀ d, props' ≠ JObj d)
      by (eapply fold_fields_not_obj; [|done]; done).
    split; [by intros f (d & [= ] & _)%getitem_ok|].
    intros f' (d & [= ->] & _)%getitem_ok. by destruct (H d).
  - (* the properties are a list *)
    injection Hks as <-.
    assert (∀ d, props' ≠ JObj d)
      by (eapply fold_fields_not_obj; [|done]; done).
    split; [by intros f (d & [= ] & _)%getitem_ok|].
    intros f' (d & [= ->] & _)%getitem_ok. by destruct (H d).
  - (* the properties are a dict *)
    injection Hks as <-.
    apply json_wf_obj in Hwf as [Hd _].
    apply fold_fields in Hfold as (pd' & -> & Hkeys & Hin & _);
      [|done|by intros ? ?%has_key_In].
    split.
    + intros f (d & [= <-] & Hf)%getitem_ok.
      destruct (Hin k) as (g & g' & Hg & Hh & Hg').
      { apply has_key_In, has_key_assoc. eauto. }
      exists g'. split; [congruence|]. apply getitem_ok. eauto.
    + intros f' (d & [= <-] & Hf')%getitem_ok.
      destruct (Hin k) as (g & g' & Hg & Hh & Hg').
      { rewrite <- Hkeys. apply has_key_In, has_key_assoc. eauto. }
      exists g. split; [apply getitem_ok; eauto|congruence].
Qed.

Lemma json_wf_get_path p :
  ∀ t o, json_wf t = true → get_path p t = Ok o → json_wf o = true.
Proof.
  induction p as [|k p IH]; intros t o Hwf; simpl.
  - by intros [= <-].
  - intros (c & (d & -> & Hc)%py_subscript_str_ok & H)%result_bind_ok.
    apply json_wf_obj in Hwf as [_ Hwf]. eapply IH; eauto.
Qed.

Lemma getindex_arr l (i : nat) :
  (Ok (JArr l)).[#Z.of_nat i]
  = match nth_error l i with Some x => Ok x | None => Err IndexError end.
Proof. unfold getindex. rsimpl. simpl. apply seq_index_nat. Qed.

(** ** The block guarded by ["additionalProperties" in objects_to_check] *)

Lemma rewrite_format_union_inv F F' :
  rewrite_format_union F = Ok F' →
  ∃ Fd Ad alts',
    F = JObj Fd ∧ assoc "additionalProperties" Fd = Some (JObj Ad)
    ∧ hoist_enums (default (JArr []) (assoc "anyOf" Ad)) = Ok alts'
    ∧ F' = JObj (alist_set "additionalProperties"
                   (JObj (alist_set "oneOf" alts'
                            (match assoc "anyOf" Ad with
                             | Some _ => alist_remove "anyOf" Ad
                             | None => Ad
                             end))) Fd).
Proof.
  unfold rewrite_format_union.
  intros (A & (Fd & [= ->] & HA)%getitem_ok & H)%result_bind_ok.
  apply result_bind_ok in H as ([alts A1] & Hpop & H).
  apply result_bind_ok in H as (A2 & Hset & H).
  apply result_bind_ok in H as (fs & Hfs & H).
  apply result_bind_ok in H as (alts' & Hh & [= <-]).
  destruct A as [| | | | |Ad]; try (simpl in Hpop; discriminate).
  exists Fd, Ad, alts'. split; [done|]. split; [done|].
  assert (HA1 : A1 = JObj (match assoc "anyOf" Ad with
                           | Some _ => alist_remove "anyOf" Ad
                           | None => Ad
                           end)
                ∧ alts = default (JArr []) (assoc "anyOf" Ad)).
  { simpl in Hpop. destruct (assoc "anyOf" Ad); by injection Hpop as <- <-. }
  destruct HA1 as [-> ->]. injection Hset as <-.
  unfold getitem in Hfs. rsimpl in Hfs. simpl in Hfs.
  rewrite assoc_set_eq in Hfs. injection Hfs as <-.
  split; [done|]. simpl.
  unfold has_key. rewrite assoc_set_eq, HA. by rewrite alist_set_set.
Qed.

Lemma hoist_enums_list alts l' :
  hoist_enums alts = Ok (JArr l') →
  ∃ l, alts = JArr l ∧ Forall2 (fun a a' => hoist_enums_of_format a = Ok a') l l'.
Proof.
  unfold hoist_enums.
  intros (items & Hit & H)%result_bind_ok.
  apply result_bind_ok in H as (items' & Hm & Heq).
  destruct alts; try (simpl in Hit; discriminate); try discriminate Heq.
  injection Hit as <-. injection Heq as <-.
  eexists. split; [done|]. by apply mapM_ok.
Qed.

Lemma hoist_enums_of_list l alts' :
  hoist_enums (JArr l) = Ok alts' →
  ∃ l', alts' = JArr l'
        ∧ Forall2 (fun a a' => hoist_enums_of_format a = Ok a') l l'.
Proof.
  unfold hoist_enums. simpl. rsimpl.
  intros (items' & Hm & [= <-])%result_bind_ok.
  eexists. split; [done|]. by apply mapM_ok.
Qed.

(** Under the rewritten union, the schema of each field of each
    alternative is the loop body's result on the schema it had. *)
Lemma rewrite_format_union_fields F F' i k :
  json_wf F = true →
  rewrite_format_union F = Ok F' →
  (∀ f, (Ok F).["additionalProperties"].["anyOf"].[#Z.of_nat i]
               .["properties"].[k] = Ok f →
        ∃ f', hoist_enum f = Ok f'
              ∧ (Ok F').["additionalProperties"].["oneOf"].[#Z.of_nat i]
                       .["properties"].[k] = Ok f')
  ∧ (∀ f', (Ok F').["additionalProperties"].["oneOf"].[#Z.of_nat i]
                  .["properties"].[k] = Ok f' →
        ∃ f, (Ok F).["additionalProperties"].["anyOf"].[#Z.of_nat i]
                   .["properties"].[k] = Ok f
             ∧ hoist_enum f = Ok f').
Proof.
  intros Hwf (Fd & Ad & alts' & -> & HA & Hh & ->)%rewrite_format_union_inv.
  assert (Hbefore : (Ok (JObj Fd)).["additionalProperties"].["anyOf"]
                    = match assoc "anyOf" Ad with
                      | Some v => Ok v
                      | None => Err KeyError
                      end).
  { unfold getitem. rsimpl. simpl. rewrite HA. done. }
  match goal with |- context [Ok (JObj (alist_set ?a ?b ?c))] =>
    assert (Hafter : (Ok (JObj (alist_set a b c)))
                       .["additionalProperties"].["oneOf"] = Ok alts')
  end.
  { unfold getitem. rsimpl. simpl. rewrite assoc_set_eq. rsimpl. simpl.
    by rewrite assoc_set_eq. }
  rewrite Hbefore, Hafter. clear Hbefore Hafter.
  apply json_wf_obj in Hwf as [_ Hwf]. specialize (Hwf _ _ HA).
  apply json_wf_obj in Hwf as [_ Hwf].
  split.
  - intros f (pd & Hpd & Hf)%getitem_ok.
    apply getindex_getitem_ok in Hpd as (l & ad & Hl & Hi & Hprops).
    destruct (assoc "anyOf" Ad) as [alts|] eqn:Halts; [|done].
    injection Hl as ->. specialize (Hwf _ _ Halts). simpl in Hh.
    apply hoist_enums_of_list in Hh as (l' & -> & Hall).
    destruct (Forall2_nth_error_l _ _ _ _ _ Hall Hi) as (a' & Hi' & Ha').
    destruct (hoist_enums_of_format_fields (JObj ad) a' k) as [Hfw _];
      [by eapply json_wf_arr|done|].
    destruct (Hfw f) as (f' & Hf' & Hk).
    { unfold getitem. rsimpl. simpl. rewrite Hprops. rsimpl. simpl.
      by rewrite Hf. }
    exists f'. split; [done|]. rewrite getindex_arr, Hi'. done.
  - intros f' (pd & Hpd & Hf)%getitem_ok.
    apply getindex_getitem_ok in Hpd as (l' & ad' & [= ->] & Hi' & Hprops).
    apply hoist_enums_list in Hh as (l & Hl & Hall).
    destruct (assoc "anyOf" Ad) as [alts|] eqn:Halts; simpl in Hl.
    + subst alts. specialize (Hwf _ _ Halts).
      destruct (Forall2_nth_error_r _ _ _ _ _ Hall Hi') as (a & Hi & Ha).
      destruct (hoist_enums_of_format_fields a (JObj ad') k) as [_ Hbw];
        [by eapply json_wf_arr|done|].
      destruct (Hbw f') as (f & Hf' & Hk).
      { unfold getitem. rsimpl. simpl. rewrite Hprops. rsimpl. simpl.
        by rewrite Hf. }
      exists f. split; [|done]. rewrite getindex_arr, Hi. done.
    + injection Hl as <-. inversion Hall; subst. by destruct i.
Qed.

(** ** What a completed run did *)

Lemma get_path_snoc p k t :
  get_path (p ++ [k]) t = (o ← get_path p t; py_subscript o (JStr k)).
Proof. rewrite <- getitem_get_path. done. Qed.

Lemma stream_field_get_path t k :
  stream_field t k = (o ← get_path stream_properties t; py_subscript o (JStr k)).
Proof. unfold stream_field. by rewrite stream_properties_chain. Qed.

Lemma field_of_format union t i k :
  field_of union t i k
  = (stream_field t "format").["additionalProperties"].[union]
                             .[#Z.of_nat i].["properties"].[k].
Proof. done. Qed.

Lemma replace_enum_allOf_and_anyOf_inv t t' :
  replace_enum_allOf_and_anyOf t = Ok t' →
  ∃ o o', get_path stream_properties t = Ok o
          ∧ normalize_node o = Ok o'
          ∧ get_path stream_properties t' = Ok o'.
Proof.
  rewrite replace_enum_allOf_and_anyOf_node.
  intros (o & Ho & H)%result_bind_ok.
  apply result_bind_ok in H as (o' & Ho' & [= <-]).
  exists o, o'. repeat split; try done. eapply get_store_path; eauto.
Qed.

Lemma anyOf_to_oneOf_node_inv o p o' :
  anyOf_to_oneOf_node o p = Ok o' →
  ∃ Nd v, py_subscript o (JStr p) = Ok (JObj Nd)
          ∧ assoc "anyOf" Nd = Some v
          ∧ o' = store o (JStr p)
                   (JObj (alist_set "oneOf" v (alist_remove "anyOf" Nd))).
Proof.
  unfold anyOf_to_oneOf_node, getitem. rsimpl.
  intros (N & HN & H)%result_bind_ok.
  apply result_bind_ok in H as ([v N1] & Hpop & H).
  apply result_bind_ok in H as (N2 & Hset & [= <-]).
  destruct N as [| | | | |Nd]; try (simpl in Hpop; discriminate).
  simpl in Hpop. destruct (assoc "anyOf" Nd) as [v'|] eqn:Hv; [|done].
  injection Hpop as <- <-. injection Hset as <-.
  exists Nd, v'. done.
Qed.

Lemma format_block_inv o o1 :
  format_block o = Ok o1 →
  ∃ F F', py_subscript o (JStr "format") = Ok F
          ∧ o1 = store o (JStr "format") F'
          ∧ ((py_in "additionalProperties" F = Ok false ∧ F' = F)
             ∨ (py_in "additionalProperties" F = Ok true
                ∧ rewrite_format_union F = Ok F')).
Proof.
  unfold format_block, getitem. rsimpl.
  intros (F & HF & H)%result_bind_ok.
  apply result_bind_ok in H as ([] & Hin & H).
  - apply result_bind_ok in H as (F' & HF' & [= <-]).
    exists F, F'. eauto.
  - injection H as <-. exists F, F. split; [done|].
    split; [by rewrite store_same|auto].
Qed.

Lemma normalize_node_inv o o' :
  normalize_node o = Ok o' →
  ∃ o1 o2, format_block o = Ok o1
           ∧ anyOf_to_oneOf_node o1 "primary_key" = Ok o2
           ∧ anyOf_to_oneOf_node o2 "input_schema" = Ok o'.
Proof.
  unfold normalize_node, properties_to_change.
  intros (o1 & H1 & H)%result_bind_ok. simpl in H.
  apply result_bind_ok in H as (o2 & H2 & H).
  apply result_bind_ok in H as (o3 & H3 & [= <-]).
  eauto.
Qed.

(** The format node after a completed run. *)
Lemma normalizer_format t t' :
  replace_enum_allOf_and_anyOf t = Ok t' →
  ∃ F F', stream_field t "format" = Ok F
          ∧ stream_field t' "format" = Ok F'
          ∧ ((py_in "additionalProperties" F = Ok false ∧ F' = F)
             ∨ (py_in "additionalProperties" F = Ok true
                ∧ rewrite_format_union F = Ok F')).
Proof.
  intros (o & o' & Ho & Hn & Ho')%replace_enum_allOf_and_anyOf_inv.
  apply normalize_node_inv in Hn as (o1 & o2 & H1 & H2 & H3).
  apply format_block_inv in H1 as (F & F' & HF & -> & Hcase).
  apply anyOf_to_oneOf_node_inv in H2 as (N1 & v1 & _ & _ & ->).
  apply anyOf_to_oneOf_node_inv in H3 as (N2 & v2 & _ & _ & ->).
  exists F, F'. rewrite !stream_field_get_path, Ho, Ho'. rsimpl.
  split; [done|]. split; [|done].
  rewrite !subscript_store_ne by done.
  eapply subscript_store_eq; eauto.
Qed.

(** The two union-typed stream fields after a completed run. *)
Lemma normalizer_anyOf t t' p :
  replace_enum_allOf_and_anyOf t = Ok t' →
  In p properties_to_change →
  ∃ Nd v, stream_field t p = Ok (JObj Nd)
          ∧ assoc "anyOf" Nd = Some v
          ∧ stream_field t' p
            = Ok (JObj (alist_set "oneOf" v (alist_remove "anyOf" Nd))).
Proof.
  intros (o & o' & Ho & Hn & Ho')%replace_enum_allOf_and_anyOf_inv Hp.
  apply normalize_node_inv in Hn as (o1 & o2 & H1 & H2 & H3).
  apply format_block_inv in H1 as (F & F' & HF & -> & _).
  apply anyOf_to_oneOf_node_inv in H2 as (N1 & v1 & HN1 & Hv1 & ->).
  apply anyOf_to_oneOf_node_inv in H3 as (N2 & v2 & HN2 & Hv2 & ->).
  rewrite !stream_field_get_path, Ho, Ho'. rsimpl.
  rewrite subscript_store_ne in HN1 by done.
  rewrite !subscript_store_ne in HN2 by done.
  destruct Hp as [<-|[<-|[]]].
  - exists N1, v1. split; [done|]. split; [done|].
    rewrite subscript_store_ne by done.
    eapply subscript_store_eq. rewrite subscript_store_ne by done. eauto.
  - exists N2, v2. split; [done|]. split; [done|].
    eapply subscript_store_eq. rewrite !subscript_store_ne by done. eauto.
Qed.

(** The fields of the format alternatives after a completed run. *)
Lemma normalizer_fields t t' i k :
  json_wf t = true →
  replace_enum_allOf_and_anyOf t = Ok t' →
  (∀ f, field_before t i k = Ok f →
        ∃ f', hoist_enum f = Ok f' ∧ field_after t' i k = Ok f')
  ∧ (∀ f', field_after t' i k = Ok f' →
        ∃ f, field_before t i k = Ok f ∧ hoist_enum f = Ok f').
Proof.
  intros Hwf Hrun.
  destruct (normalizer_format _ _ Hrun) as (F & F' & HF & HF' & Hcase).
  unfold field_before, field_after. rewrite !field_of_format, HF, HF'.
  destruct Hcase as [[Hin ->]|[Hin Hu]].
  - (* no [additionalProperties]: there are no alternatives *)
    assert (Hno : ∀ A, (Ok F).["additionalProperties"] = Ok A → False).
    { intros A (d & [= ->] & HA)%getitem_ok. simpl in Hin.
      unfold has_key in Hin. by rewrite HA in Hin. }
    split.
    + intros f (d & (l & a & Hl & _)%getindex_getitem_ok & _)%getitem_ok.
      apply getitem_ok in Hl as (? & H & _). by destruct (Hno _ H).
    + intros f (d & (l & a & Hl & _)%getindex_getitem_ok & _)%getitem_ok.
      apply getitem_ok in Hl as (? & H & _). by destruct (Hno _ H).
  - apply rewrite_format_union_fields; [|done].
    rewrite stream_field_get_path in HF.
    apply result_bind_ok in HF as (o & Ho & HF).
    apply py_subscript_str_ok in HF as (d & -> & HF).
    eapply json_wf_obj; [|done]. eapply json_wf_get_path; eauto.
Qed.

(** ** The loop body on one field *)

Lemma hoist_enum_unchanged f : is_allOf_enum f = Ok false → hoist_enum f = Ok f.
Proof. unfold hoist_enum. by intros ->. Qed.

Lemma assoc_remove_set {V} k k' (v : V) d :
  k ≠ k' → distinct (keys d) = true →
  assoc k (alist_remove k (alist_set k' v d)) = None.
Proof.
  intros Hne. induction d as [|[k0 v0] d IH]; simpl.
  - intros _. destruct (String.eqb k k') eqn:E; simpl; [|by rewrite E].
    apply String.eqb_eq in E. congruence.
  - intros [Hk0 Hd]%andb_prop.
    destruct (String.eqb k' k0) eqn:E'; simpl.
    + apply String.eqb_eq in E'. subst k0.
      destruct (String.eqb k k') eqn:E; simpl.
      { apply String.eqb_eq in E. congruence. }
      rewrite E. by apply assoc_remove_eq.
    + destruct (String.eqb k k0) eqn:E; simpl.
      * apply String.eqb_eq in E. subst k0. rewrite assoc_set_ne by done.
        rewrite existsb_eqb_keys in Hk0. unfold has_key in Hk0.
        by destruct (assoc k d).
      * rewrite E. auto.
Qed.

(** A rewritten field: the enum of the first [allOf] element becomes the
    field's [enum], [allOf] is gone, the field's other keys stay. *)
Lemma hoist_enum_rewritten f f' :
  json_wf f = true →
  is_allOf_enum f = Ok true →
  hoist_enum f = Ok f' →
  ∃ enum, (Ok f).["allOf"].[#0].["enum"] = Ok enum
          ∧ (Ok f').["enum"] = Ok enum
          ∧ py_in "allOf" f' = Ok false
          ∧ ∀ k, k ≠ "allOf" → k ≠ "enum" → (Ok f').[k] = (Ok f).[k].
Proof.
  intros Hwf Hc. unfold hoist_enum. rewrite Hc. rsimpl.
  intros (enum & He & H)%result_bind_ok.
  apply result_bind_ok in H as (f1 & Hset & H).
  apply result_bind_ok in H as ([v f2] & Hpop & [= <-]).
  destruct f as [| | | | |d]; try (simpl in Hset; discriminate).
  injection Hset as <-. simpl in Hpop.
  destruct (assoc "allOf" (alist_set "enum" enum d)); [|done].
  injection Hpop as <- <-.
  apply json_wf_obj in Hwf as [Hd _].
  exists enum. split; [done|]. split; [|split].
  - unfold getitem. rsimpl. simpl.
    rewrite assoc_remove_ne by done. by rewrite assoc_set_eq.
  - simpl. unfold has_key. by rewrite assoc_remove_set.
  - intros k Hk1 Hk2. unfold getitem. rsimpl. simpl.
    rewrite assoc_remove_ne by done. by rewrite assoc_set_ne.
Qed.

Lemma is_allOf_enum_after f f' :
  json_wf f = true → hoist_enum f = Ok f' → is_allOf_enum f' = Ok false.
Proof.
  intros Hwf Hh.
  destruct (is_allOf_enum f) as [[]|e] eqn:Hc.
  - destruct (hoist_enum_rewritten _ _ Hwf Hc Hh) as (_ & _ & _ & Hin & _).
    unfold is_allOf_enum. by rewrite Hin.
  - rewrite hoist_enum_unchanged in Hh by done. by injection Hh as <-.
  - unfold hoist_enum in Hh. by rewrite Hc in Hh.
Qed.

(** The condition of line 71 read from the field itself: it is decided by
    whether the first element of the field's [allOf] contains ["enum"]. *)
Lemma has_allOf_first f first :
  (Ok f).["allOf"].[#0] = Ok first → py_in "allOf" f = Ok true.
Proof.
  unfold getindex. intros (l & Hl & _)%result_bind_ok.
  apply getitem_ok in Hl as (d & [= ->] & Hl).
  simpl. unfold has_key. by rewrite Hl.
Qed.

Lemma is_allOf_enum_first f first :
  (Ok f).["allOf"].[#0] = Ok first → is_allOf_enum f = py_in "enum" first.
Proof.
  intros H0. unfold is_allOf_enum.
  rewrite (has_allOf_first _ _ H0). rsimpl. by rewrite H0.
Qed.

(** A field that line 71 passes over has no first [allOf] element that
    contains ["enum"]. *)
Lemma is_allOf_enum_false f first :
  is_allOf_enum f = Ok false →
  (Ok f).["allOf"].[#0] = Ok first → py_in "enum" first = Ok false.
Proof. intros H H0. by rewrite <- (is_allOf_enum_first _ _ H0). Qed.

(** Both union-typed stream fields are in the list the loop of lines
    76-79 runs over. *)
Lemma union_fields_listed name :
  name = "primary_key" ∨ name = "input_schema" →
  In name properties_to_change.
Proof. intros [->| ->]; simpl; auto. Qed.

Lemma json_wf_chain m k v :
  (∀ o, m = Ok o → json_wf o = true) → m.[k] = Ok v → json_wf v = true.
Proof.
  intros Hm (d & -> & Hk)%getitem_ok.
  eapply json_wf_obj; [|done]. by apply Hm.
Qed.

Lemma json_wf_field union t i k f :
  json_wf t = true → field_of union t i k = Ok f → json_wf f = true.
Proof.
  intros Hwf. unfold field_of. intros Hf.
  eapply json_wf_chain; [|exact Hf].
  intros props (l & a & Hl & Hi & Hp)%getindex_getitem_ok.
  assert (Hwl : json_wf (JArr l) = true).
  { eapply json_wf_chain; [|exact Hl]. intros A HA.
    eapply json_wf_chain; [|exact HA]. intros F HF.
    change (stream_field t "format" = Ok F) in HF.
    rewrite stream_field_get_path in HF.
    apply result_bind_ok in HF as (o & Ho & HF).
    apply py_subscript_str_ok in HF as (d' & -> & HF).
    eapply json_wf_obj; [|done]. eapply json_wf_get_path; eauto. }
  eapply json_wf_obj; [|exact Hp]. eapply json_wf_arr; eauto.
Qed.

(** * The normalizer: statements of the specification *)

(** C1, as stated, fails: the field
    [{"allOf": [{"enum": ["a","b"]}, {"title": "X"}]}] becomes
    [{"enum": ["a","b"]}], which is not [{"title": "X", "enum": ["a","b"]}]
    under Python's [==]: the title sits in the second [allOf] element and
    is dropped with it. *)
Lemma enum_hoist_loses_title :
  field_before Samples.spec_wrapped_enum 0 "kind" = Ok Samples.wrapped_enum
  ∧ (t' ← replace_enum_allOf_and_anyOf Samples.spec_wrapped_enum;
     field_after t' 0 "kind")
    = Ok (JObj [("enum", JArr [JStr "a"; JStr "b"])])
  ∧ py_eq (JObj [("enum", JArr [JStr "a"; JStr "b"])])
          (JObj [("title", JStr "X"); ("enum", JArr [JStr "a"; JStr "b"])])
    = false.
Proof. repeat split; vm_compute; reflexivity. Qed.

(** C1, amended: on a tree of dicts, a field of a format alternative whose
    schema is [{"allOf": [{"enum": ["a","b"]}, {"title": "X"}]}] has the
    schema [{"enum": ["a","b"]}] once the normalizer has completed: the
    enum of the first [allOf] element is hoisted, and [allOf] is removed
    together with its other elements. *)
Theorem enum_hoist schema schema' i key :
  json_wf schema = true →
  replace_enum_allOf_and_anyOf schema = Ok schema' →
  field_before schema i key = Ok Samples.wrapped_enum →
  field_after schema' i key = Ok (JObj [("enum", JArr [JStr "a"; JStr "b"])])
  ∧ py_in "allOf" (JObj [("enum", JArr [JStr "a"; JStr "b"])]) = Ok false.
Proof.
  intros Hwf Hrun Hf. split; [|done].
  destruct (normalizer_fields _ _ i key Hwf Hrun) as [Hfw _].
  destruct (Hfw _ Hf) as (f' & Hh & ->). f_equal.
  vm_compute in Hh. by injection Hh.
Qed.

Lemma enum_hoist_witness :
  field_after Samples.normalized_spec_wrapped_enum 0 "kind"
  = Ok (JObj [("enum", JArr [JStr "a"; JStr "b"])])
  ∧ py_in "allOf" (JObj [("enum", JArr [JStr "a"; JStr "b"])]) = Ok false.
Proof.
  apply (enum_hoist Samples.spec_wrapped_enum); vm_compute; reflexivity.
Defined.

(** C2, as stated, fails: a field whose [allOf] does not start with an
    enum still carries [allOf] after the normalizer. *)
Lemma allOf_survives_without_enum :
  (t' ← replace_enum_allOf_and_anyOf Samples.spec_wrapped_titles;
   field_after t' 0 "kind") = Ok Samples.wrapped_titles
  ∧ py_in "allOf" Samples.wrapped_titles = Ok true.
Proof. split; vm_compute; reflexivity. Qed.

(** C2, amended: once the normalizer has completed on a tree of dicts,
    no field of a format alternative carries an [allOf] whose first
    element contains ["enum"], and every field found afterwards was a
    field before.  Every field found before is found afterwards, and:
    when the first element of its [allOf] contained ["enum"], the field
    carries that enum under its own [enum] key, has no [allOf] key, and
    keeps its other keys, the rest of the [allOf] wrapper being dropped;
    when its [allOf] had no such first element, or it had no [allOf], the
    field is what it was, [allOf] included. *)
Theorem no_enum_under_allOf schema schema' i key :
  json_wf schema = true →
  replace_enum_allOf_and_anyOf schema = Ok schema' →
  (∀ f', field_after schema' i key = Ok f' →
     (∀ first, (Ok f').["allOf"].[#0] = Ok first →
               py_in "enum" first = Ok false)
     ∧ ∃ f, field_before schema i key = Ok f)
  ∧ (∀ f, field_before schema i key = Ok f →
     ∃ f', field_after schema' i key = Ok f'
           ∧ (∀ first, (Ok f).["allOf"].[#0] = Ok first →
                       py_in "enum" first = Ok true →
                ∃ enum, (Ok first).["enum"] = Ok enum
                        ∧ (Ok f').["enum"] = Ok enum
                        ∧ py_in "allOf" f' = Ok false
                        ∧ ∀ k, k ≠ "allOf" → k ≠ "enum" →
                               (Ok f').[k] = (Ok f).[k])
           ∧ ((∀ first, (Ok f).["allOf"].[#0] = Ok first →
                        py_in "enum" first = Ok false) →
              f' = f ∧ (Ok f').["allOf"] = (Ok f).["allOf"])).
Proof.
  intros Hwf Hrun.
  destruct (normalizer_fields _ _ i key Hwf Hrun) as [Hfw Hbw].
  split.
  - intros f' Hf'. destruct (Hbw _ Hf') as (f & Hf & Hh).
    assert (json_wf f = true) by (eapply json_wf_field; eauto).
    split; [|by exists f].
    intros first. apply is_allOf_enum_false. by eapply is_allOf_enum_after.
  - intros f Hf. destruct (Hfw _ Hf) as (f' & Hh & Hf').
    assert (json_wf f = true) by (eapply json_wf_field; eauto).
    exists f'. split; [done|]. split.
    + intros first H0 Hen.
      assert (Hc : is_allOf_enum f = Ok true)
        by (by rewrite (is_allOf_enum_first _ _ H0)).
      destruct (hoist_enum_rewritten _ _ H Hc Hh)
        as (enum & He & He' & Hno & Hrest).
      exists enum. split; [|done].
      change ((Ok f).["allOf"].[#0].["enum"]) with
        (getitem ((Ok f).["allOf"].[#0]) "enum") in He.
      by rewrite H0 in He.
    + intros Hnone.
      assert (Hc : is_allOf_enum f = Ok false).
      { unfold hoist_enum in Hh.
        destruct (is_allOf_enum f) as [[]|e] eqn:Hc; [|done|done].
        exfalso. unfold is_allOf_enum in Hc.
        destruct (py_in "allOf" f) as [[]|]; [|done|done]. rsimpl in Hc.
        apply result_bind_ok in Hc as (first & H0 & Hen).
        rewrite (Hnone _ H0) in Hen. done. }
      rewrite hoist_enum_unchanged in Hh by done. by injection Hh as <-.
Qed.

Lemma no_enum_under_allOf_witness :
  ∃ f' enum,
    field_after Samples.normalized_spec 0 "quoting_behavior" = Ok f'
    ∧ (Ok Samples.quoting_behavior).["allOf"].[#0].["enum"] = Ok enum
    ∧ (Ok f').["enum"] = Ok enum
    ∧ py_in "allOf" f' = Ok false
    ∧ (Ok f').["title"] = (Ok Samples.quoting_behavior).["title"]
    ∧ (Ok f').["default"] = (Ok Samples.quoting_behavior).["default"].
Proof.
  assert (Hwf : json_wf Samples.spec = true) by (vm_compute; reflexivity).
  assert (Hrun : replace_enum_allOf_and_anyOf Samples.spec
                 = Ok Samples.normalized_spec) by (vm_compute; reflexivity).
  destruct (no_enum_under_allOf Samples.spec Samples.normalized_spec
              0 "quoting_behavior" Hwf Hrun) as [_ Hfw].
  destruct (Hfw Samples.quoting_behavior) as (f' & Hf' & Hen & _);
    [vm_compute; reflexivity|].
  destruct (Hen (JObj [("title", JStr "QuotingBehavior");
                       ("description", JStr "An enumeration.");
                       ("enum", JArr [JStr "Quote All";
                                      JStr "Quote Special Characters";
                                      JStr "Quote None"])]))
    as (enum & He & He' & Hno & Hrest);
    [vm_compute; reflexivity|vm_compute; reflexivity|].
  exists f', enum. split; [exact Hf'|]. split; [exact He|].
  split; [exact He'|]. split; [exact Hno|].
  split; apply Hrest; discriminate.
Defined.

(** C4: when the normalizer completes, a [primary_key] whose schema is
    [{"anyOf": [T1, T2]}] has exactly the schema [{"oneOf": [T1, T2]}]
    afterwards, and so has an [input_schema] whose schema is
    [{"anyOf": [T1, T2]}]: the same list under the new key, and no other
    key. *)
Theorem anyOf_renamed_to_oneOf schema schema' T1 T2 :
  replace_enum_allOf_and_anyOf schema = Ok schema' →
  (stream_field schema "primary_key" = Ok (JObj [("anyOf", JArr [T1; T2])]) →
   stream_field schema' "primary_key" = Ok (JObj [("oneOf", JArr [T1; T2])]))
  ∧ (stream_field schema "input_schema"
     = Ok (JObj [("anyOf", JArr [T1; T2])]) →
     stream_field schema' "input_schema"
     = Ok (JObj [("oneOf", JArr [T1; T2])])).
Proof.
  intros Hrun.
  assert (H : ∀ name, name = "primary_key" ∨ name = "input_schema" →
    stream_field schema name = Ok (JObj [("anyOf", JArr [T1; T2])]) →
    stream_field schema' name = Ok (JObj [("oneOf", JArr [T1; T2])])).
  { intros name Hname%union_fields_listed Hf.
    destruct (normalizer_anyOf _ _ _ Hrun Hname) as (Nd & v & HN & Hv & ->).
    rewrite Hf in HN. injection HN as <-. simpl in Hv. by injection Hv as <-. }
  split; apply H; auto.
Qed.

Lemma anyOf_renamed_to_oneOf_witness :
  stream_field Samples.normalized_spec_two_types "primary_key"
  = Ok (JObj [("oneOf", JArr [JObj [("type", JStr "string")];
                              JObj [("type", JStr "integer")]])])
  ∧ stream_field Samples.normalized_spec_two_types "input_schema"
    = Ok (JObj [("oneOf", JArr [JObj [("type", JStr "string")];
                                JObj [("type", JStr "integer")]])]).
Proof.
  assert (Hrun : replace_enum_allOf_and_anyOf Samples.spec_two_types
                 = Ok Samples.normalized_spec_two_types)
    by (vm_compute; reflexivity).
  destruct (anyOf_renamed_to_oneOf Samples.spec_two_types
              Samples.normalized_spec_two_types
              (JObj [("type", JStr "string")])
              (JObj [("type", JStr "integer")]) Hrun) as [Hp Hi].
  split; [apply Hp|apply Hi]; reflexivity.
Defined.

(** C7: when the normalizer completes on a tree of dicts, a field of a
    format alternative that carries [allOf] but whose first [allOf]
    element carries no [enum] has the same schema afterwards, [allOf]
    included; a field whose schema changed had [allOf] with an enum in its
    first element. *)
Theorem allOf_without_enum_kept schema schema' i key f :
  json_wf schema = true →
  replace_enum_allOf_and_anyOf schema = Ok schema' →
  field_before schema i key = Ok f →
  (py_in "allOf" f = Ok true →
   (∀ first, (Ok f).["allOf"].[#0] = Ok first → py_in "enum" first = Ok false) →
   field_after schema' i key = Ok f)
  ∧ (field_after schema' i key ≠ Ok f → is_allOf_enum f = Ok true).
Proof.
  intros Hwf Hrun Hf.
  destruct (normalizer_fields _ _ i key Hwf Hrun) as [Hfw _].
  destruct (Hfw _ Hf) as (f' & Hh & Hf').
  assert (Hc : ∃ b, is_allOf_enum f = Ok b).
  { unfold hoist_enum in Hh. destruct (is_allOf_enum f); [eauto|done]. }
  destruct Hc as [b Hc].
  split.
  - intros Hin Hfirst.
    rewrite Hf'. rewrite hoist_enum_unchanged in Hh; [done|].
    rewrite Hc. f_equal.
    unfold is_allOf_enum in Hc. rewrite Hin in Hc. rsimpl in Hc.
    apply result_bind_ok in Hc as (first & H0 & Hb).
    rewrite (Hfirst _ H0) in Hb. by injection Hb.
  - intros Hne. destruct b; [done|].
    rewrite hoist_enum_unchanged in Hh by done. congruence.
Qed.

Lemma allOf_without_enum_kept_witness :
  field_after Samples.normalized_spec_wrapped_titles 0 "kind"
  = Ok Samples.wrapped_titles.
Proof.
  refine (proj1 (allOf_without_enum_kept Samples.spec_wrapped_titles
                   Samples.normalized_spec_wrapped_titles 0 "kind"
                   Samples.wrapped_titles _ _ _) _ _).
  - vm_compute. reflexivity.
  - vm_compute. reflexivity.
  - vm_compute. reflexivity.
  - vm_compute. reflexivity.
  - intros first H. vm_compute in H. injection H as <-. reflexivity.
Defined.

(** C8: when the format node has no [additionalProperties] key and the
    normalizer completes, the format node afterwards is the format node
    before. *)
Theorem format_untouched_without_additionalProperties schema schema' F :
  stream_field schema "format" = Ok F →
  py_in "additionalProperties" F = Ok false →
  replace_enum_allOf_and_anyOf schema = Ok schema' →
  stream_field schema' "format" = Ok F.
Proof.
  intros HF Hin Hrun.
  destruct (normalizer_format _ _ Hrun) as (F0 & F' & HF0 & HF' & Hcase).
  rewrite HF in HF0. injection HF0 as <-.
  destruct Hcase as [[_ ->]|[Hin' _]]; [done|congruence].
Qed.

Lemma format_untouched_without_additionalProperties_witness :
  stream_field Samples.normalized_spec_requiring_filetype "format"
  = Ok Samples.format_requiring_filetype.
Proof.
  apply (format_untouched_without_additionalProperties
           Samples.spec_requiring_filetype); vm_compute; reflexivity.
Defined.

(** * The legacy-format unifier *)

Lemma add_legacy_format_format t F :
  stream_field t "format" = Ok F →
  ∃ t', add_legacy_format t = Ok t'
        ∧ stream_field t' "format"
          = Ok (JObj [("oneOf", JArr [F; legacy_format_options])])
        ∧ ∀ name, name ≠ "format" → stream_field t' name = stream_field t name.
Proof.
  rewrite stream_field_get_path.
  intros (o & Ho & (d & -> & HF)%py_subscript_str_ok)%result_bind_ok.
  unfold add_legacy_format.
  change ((Ok t).["properties"].["streams"].["items"].["properties"].["format"])
    with (stream_field t "format").
  rewrite stream_field_get_path, stream_properties_chain, Ho. rsimpl.
  simpl py_subscript. rewrite HF. rsimpl. simpl py_setitem. rsimpl.
  eexists. split; [done|].
  split.
  - rewrite stream_field_get_path.
    erewrite get_store_path by eauto. rsimpl. simpl.
    by rewrite assoc_set_eq.
  - intros name Hne. rewrite !stream_field_get_path.
    erewrite get_store_path by eauto. rewrite Ho. rsimpl. simpl.
    rewrite assoc_set_ne by done. done.
Qed.

(** C3, as stated, fails: the first member of the new [oneOf] is the prior
    format schema, whatever it is; when that schema itself requires
    [filetype], so does the first member. *)
Lemma first_member_may_require_filetype :
  (s2 ← replace_enum_allOf_and_anyOf Samples.spec_requiring_filetype;
   s3 ← add_legacy_format s2;
   stream_field s3 "format")
  = Ok (JObj [("oneOf", JArr [Samples.format_requiring_filetype;
                              legacy_format_options])])
  ∧ declares_required "filetype" Samples.format_requiring_filetype = true.
Proof. split; vm_compute; reflexivity. Qed.

(** C3, amended: on every tree on which the normalizer completed,
    [add_legacy_format] completes and replaces the format schema [F] by
    exactly [{"oneOf": [F, L]}]: two members, the first [F] itself, the
    second the fixed legacy node [L], whose [required] is [["filetype"]].
    The stream's other fields are unchanged.  Whether the first member
    requires [filetype] is whatever [F] says. *)
Theorem legacy_format_added schema s2 :
  replace_enum_allOf_and_anyOf schema = Ok s2 →
  ∃ F s3,
    stream_field s2 "format" = Ok F
    ∧ add_legacy_format s2 = Ok s3
    ∧ stream_field s3 "format"
      = Ok (JObj [("oneOf", JArr [F; legacy_format_options])])
    ∧ (Ok legacy_format_options).["required"] = Ok (JArr [JStr "filetype"])
    ∧ (∀ key, declares_required key legacy_format_options = true
              ↔ key = "filetype")
    ∧ (∀ name, name ≠ "format" → stream_field s3 name = stream_field s2 name).
Proof.
  intros Hrun.
  destruct (normalizer_format _ _ Hrun) as (F0 & F & _ & HF & _).
  destruct (add_legacy_format_format _ _ HF) as (s3 & Hs3 & Hfmt & Hrest).
  exists F, s3. repeat split; try done.
  - simpl. rewrite orb_false_r. by intros ->%String.eqb_eq.
  - intros ->. done.
Qed.

Lemma legacy_format_added_witness :
  ∃ F s3,
    stream_field Samples.normalized_spec "format" = Ok F
    ∧ add_legacy_format Samples.normalized_spec = Ok s3
    ∧ stream_field s3 "format"
      = Ok (JObj [("oneOf", JArr [F; legacy_format_options])])
    ∧ (Ok legacy_format_options).["required"] = Ok (JArr [JStr "filetype"])
    ∧ (∀ key, declares_required key legacy_format_options = true
              ↔ key = "filetype")
    ∧ (∀ name, name ≠ "format" →
               stream_field s3 name = stream_field Samples.normalized_spec name).
Proof.
  apply (legacy_format_added Samples.spec). vm_compute. reflexivity.
Defined.

(** * The normalizer when [additionalProperties] has no [anyOf] *)

Lemma anyOf_to_oneOf_node_missing o name N :
  py_subscript o (JStr name) = Ok (JObj N) →
  assoc "anyOf" N = None →
  anyOf_to_oneOf_node o name = Err KeyError.
Proof.
  intros HN Hany. unfold anyOf_to_oneOf_node, getitem. rsimpl.
  rewrite HN. rsimpl. simpl. by rewrite Hany.
Qed.

Lemma anyOf_to_oneOf_node_present o name N v :
  py_subscript o (JStr name) = Ok (JObj N) →
  assoc "anyOf" N = Some v →
  anyOf_to_oneOf_node o name
  = Ok (store o (JStr name)
          (JObj (alist_set "oneOf" v (alist_remove "anyOf" N)))).
Proof.
  intros HN Hany. unfold anyOf_to_oneOf_node, getitem. rsimpl.
  rewrite HN. rsimpl. simpl. by rewrite Hany.
Qed.

(** C10, as stated, fails.  With [additionalProperties] a mapping
    without [anyOf], the normalizer raises [KeyError] when [primary_key]
    has no [anyOf]; and with [additionalProperties: true], a value that
    has no [anyOf] key either, line 67 itself raises [AttributeError]. *)
Lemma raises_without_anyOf_under_additionalProperties :
  (stream_field Samples.spec_no_union_plain_key "format")
    .["additionalProperties"] = Ok (JObj [("type", JStr "object")])
  ∧ py_in "anyOf" (JObj [("type", JStr "object")]) = Ok false
  ∧ replace_enum_allOf_and_anyOf Samples.spec_no_union_plain_key
    = Err KeyError
  ∧ (stream_field Samples.spec_additional_true "format")
      .["additionalProperties"] = Ok (JBool true)
  ∧ replace_enum_allOf_and_anyOf Samples.spec_additional_true
    = Err AttributeError.
Proof. repeat split; vm_compute; reflexivity. Qed.

(** C10, amended: when the format node's [additionalProperties] is a
    mapping without [anyOf], the guarded block does not raise: the pop
    yields the default, [oneOf] is set to the empty list on that mapping
    and the loop over it has nothing to do; after a completed run the
    format node is the former one with that [oneOf] added.  The run
    itself, [primary_key] and [input_schema] being mappings, completes
    when both carry [anyOf], and raises [KeyError] otherwise: their pop
    has no default. *)
Theorem pop_with_default_does_not_raise schema Fd Ad :
  stream_field schema "format" = Ok (JObj Fd) →
  assoc "additionalProperties" Fd = Some (JObj Ad) →
  assoc "anyOf" Ad = None →
  let F' := JObj (alist_set "additionalProperties"
                    (JObj (alist_set "oneOf" (JArr []) Ad)) Fd) in
  rewrite_format_union (JObj Fd) = Ok F'
  ∧ (∀ schema', replace_enum_allOf_and_anyOf schema = Ok schema' →
       stream_field schema' "format" = Ok F'
       ∧ (stream_field schema' "format").["additionalProperties"].["oneOf"]
         = Ok (JArr []))
  ∧ (∀ N1 N2,
       stream_field schema "primary_key" = Ok (JObj N1) →
       stream_field schema "input_schema" = Ok (JObj N2) →
       if has_key "anyOf" N1 && has_key "anyOf" N2
       then ∃ schema',
              replace_enum_allOf_and_anyOf schema = Ok schema'
              ∧ (stream_field schema' "format")
                  .["additionalProperties"].["oneOf"] = Ok (JArr [])
       else replace_enum_allOf_and_anyOf schema = Err KeyError).
Proof.
  intros HF HA Hany F'.
  assert (Hu : rewrite_format_union (JObj Fd) = Ok F').
  { unfold rewrite_format_union, getitem. rsimpl. simpl py_subscript.
    rewrite HA. rsimpl. simpl py_pop_default. rewrite Hany. rsimpl.
    simpl py_setitem. rsimpl. simpl py_subscript. rewrite assoc_set_eq.
    rsimpl. unfold hoist_enums. simpl py_iter. rsimpl. simpl mapM. rsimpl.
    unfold F'. simpl. unfold has_key. rewrite assoc_set_eq, HA.
    by rewrite alist_set_set. }
  assert (Hin : py_in "additionalProperties" (JObj Fd) = Ok true).
  { simpl. unfold has_key. by rewrite HA. }
  assert (Hafter : ∀ schema', replace_enum_allOf_and_anyOf schema = Ok schema' →
            stream_field schema' "format" = Ok F'
            ∧ (stream_field schema' "format").["additionalProperties"].["oneOf"]
              = Ok (JArr [])).
  { intros schema' Hrun.
    destruct (normalizer_format _ _ Hrun) as (F0 & F1 & HF0 & HF1 & Hcase).
    rewrite HF in HF0. injection HF0 as <-.
    destruct Hcase as [[Hin' _]|[_ Hu']]; [congruence|].
    rewrite Hu in Hu'. injection Hu' as <-. split; [done|]. rewrite HF1.
    unfold F', getitem. rsimpl. simpl. rewrite assoc_set_eq. rsimpl. simpl.
    by rewrite assoc_set_eq. }
  split; [done|]. split; [done|].
  intros N1 N2 H1 H2.
  assert (Hcases : if has_key "anyOf" N1 && has_key "anyOf" N2
                   then returns (replace_enum_allOf_and_anyOf schema)
                   else replace_enum_allOf_and_anyOf schema = Err KeyError).
  { rewrite replace_enum_allOf_and_anyOf_node.
    rewrite stream_field_get_path in HF, H1, H2.
    destruct (get_path stream_properties schema) as [o|] eqn:Ho; [|done].
    rsimpl in HF. rsimpl in H1. rsimpl in H2. rsimpl.
    unfold normalize_node, format_block, getitem. rsimpl.
    rewrite HF. rsimpl. rewrite Hin. rsimpl. rewrite Hu. rsimpl.
    unfold properties_to_change. simpl foldM. unfold has_key.
    destruct (assoc "anyOf" N1) as [v1|] eqn:Hv1; simpl andb.
    - erewrite anyOf_to_oneOf_node_present;
        [|by rewrite subscript_store_ne|done]. rsimpl.
      destruct (assoc "anyOf" N2) as [v2|] eqn:Hv2.
      + erewrite anyOf_to_oneOf_node_present;
          [|by rewrite !subscript_store_ne|done]. rsimpl.
        by eexists.
      + erewrite anyOf_to_oneOf_node_missing;
          [done|by rewrite !subscript_store_ne|done].
    - erewrite anyOf_to_oneOf_node_missing;
        [done|by rewrite subscript_store_ne|done]. }
  destruct (has_key "anyOf" N1 && has_key "anyOf" N2); [|done].
  destruct Hcases as [schema' Hret]. exists schema'. split; [done|].
  by apply Hafter.
Qed.

Lemma pop_with_default_does_not_raise_witness :
  ∃ schema',
    replace_enum_allOf_and_anyOf Samples.spec_no_union = Ok schema'
    ∧ (stream_field schema' "format").["additionalProperties"].["oneOf"]
      = Ok (JArr []).
Proof.
  refine (proj2 (proj2
    (pop_with_default_does_not_raise Samples.spec_no_union
       [("type", JStr "object");
        ("additionalProperties", JObj [("type", JStr "object")])]
       [("type", JStr "object")] _ _ _))
    [("title", JStr "Primary Key");
     ("anyOf", JArr [JObj [("type", JStr "string")];
                     JObj [("type", JStr "array");
                           ("items", JObj [("type", JStr "string")])]])]
    [("title", JStr "Input Schema");
     ("anyOf", JArr [JObj [("type", JStr "object")];
                     JObj [("type", JStr "string")]])] _ _);
    vm_compute; reflexivity.
Defined.

(** * When the normalizer raises *)











(** * Copies of trees *)

(** Induction on JSON values, with the hypothesis for every item of a
    list and every value of a dict. *)
Lemma json_induction (P : json → Prop) :
  P JNull → (∀ b, P (JBool b)) → (∀ n, P (JNum n)) → (∀ s, P (JStr s)) →
  (∀ items, Forall P items → P (JArr items)) →
  (∀ fields, Forall (fun kv => P (snd kv)) fields → P (JObj fields)) →
  ∀ t, P t.
Proof.
  intros Hnull Hbool Hnum Hstr Harr Hobj.
  fix IH 1. intros [|b|n|s|items|fields].
  - exact Hnull.
  - apply Hbool.
  - apply Hnum.
  - apply Hstr.
  - apply Harr. induction items as [|a items IHitems]; constructor.
    + apply IH.
    + exact IHitems.
  - apply Hobj. induction fields as [|[k a] fields IHfields]; constructor.
    + apply IH.
    + exact IHfields.
Qed.

(** As values, a tree and its deep copy are the same tree: what the copy
    changes is which objects hold it, which is the subject of the store
    layer. *)
Lemma tree_deepcopy_id t : Tree.deepcopy t = t.
Proof.
  induction t as [| | | |items IH|fields IH] using json_induction; simpl;
    try done; f_equal.
  - induction IH as [|a items Ha _ IHitems]; simpl; [done|]. congruence.
  - induction IH as [|[k a] fields Ha _ IHfields]; simpl; [done|].
    simpl in Ha. congruence.
Qed.

(** * Further properties of the normalizer *)

Local Open Scope list_scope.

Lemma get_store_path_sibling p k k' q v t :
  k ≠ k' →
  get_path (p ++ [k]) (store_path (p ++ k' :: q) v t) = get_path (p ++ [k]) t.
Proof.
  intros Hne. revert t. induction p as [|k0 p IH]; intros t.
  - change (store_path ([] ++ k' :: q) v t)
      with (match py_subscript t (JStr k') with
            | Ok o => store t (JStr k') (store_path q v o)
            | Err _ => t
            end).
    destruct (py_subscript t (JStr k')); [|done].
    simpl. rewrite subscript_store_ne; [done|]. by intros ->.
  - change (store_path ((k0 :: p) ++ k' :: q) v t)
      with (match py_subscript t (JStr k0) with
            | Ok o => store t (JStr k0) (store_path (p ++ k' :: q) v o)
            | Err _ => t
            end).
    destruct (py_subscript t (JStr k0)) as [o|e] eqn:Ho; [|done].
    simpl. rewrite (subscript_store_eq _ _ _ _ Ho), Ho. rsimpl. apply IH.
Qed.

Lemma replace_enum_allOf_and_anyOf_stored t t' :
  replace_enum_allOf_and_anyOf t = Ok t' →
  ∃ o o', get_path stream_properties t = Ok o
          ∧ normalize_node o = Ok o'
          ∧ t' = store_path stream_properties o' t.
Proof.
  rewrite replace_enum_allOf_and_anyOf_node.
  intros (o & Ho & H)%result_bind_ok.
  apply result_bind_ok in H as (o' & Ho' & [= <-]).
  by exists o, o'.
Qed.



(** X2: on a tree of dicts, a completed run turns the [anyOf] of
    [primary_key] and of [input_schema], whatever its value, into [oneOf]:
    afterwards the field has no [anyOf] key, its [oneOf] is the former
    [anyOf] (an [oneOf] it had before is overwritten), and every other key
    of the field has the value it had. *)
Theorem anyOf_rename_keeps_other_keys schema schema' name N :
  json_wf schema = true →
  name = "primary_key" ∨ name = "input_schema" →
  replace_enum_allOf_and_anyOf schema = Ok schema' →
  stream_field schema name = Ok N →
  ∃ v N',
    (Ok N).["anyOf"] = Ok v
    ∧ stream_field schema' name = Ok N'
    ∧ (Ok N').["oneOf"] = Ok v
    ∧ py_in "anyOf" N' = Ok false
    ∧ ∀ k, k ≠ "anyOf" → k ≠ "oneOf" → (Ok N').[k] = (Ok N).[k].
Proof.
  intros Hwf Hname%union_fields_listed Hrun HN.
  destruct (normalizer_anyOf _ _ _ Hrun Hname) as (Nd & v & HN' & Hv & Hafter).
  rewrite HN in HN'. injection HN' as ->.
  assert (Hd : distinct (keys Nd) = true).
  { rewrite stream_field_get_path in HN.
    apply result_bind_ok in HN as (o & Ho & HN).
    apply py_subscript_str_ok in HN as (d & -> & HN).
    eapply json_wf_obj. eapply json_wf_obj; [|exact HN].
    eapply json_wf_get_path; eauto. }
  exists v, (JObj (alist_set "oneOf" v (alist_remove "anyOf" Nd))).
  split; [apply getitem_ok; eauto|]. split; [done|].
  split; [apply getitem_ok; eexists; split; [done|apply assoc_set_eq]|].
  split.
  - simpl. unfold has_key. rewrite assoc_set_ne by done.
    by rewrite assoc_remove_eq.
  - intros k Hk1 Hk2. unfold getitem. rsimpl. simpl.
    rewrite assoc_set_ne by done. by rewrite assoc_remove_ne.
Qed.

Lemma anyOf_rename_keeps_other_keys_witness :
  (∃ v N',
     (Ok Samples.primary_key).["anyOf"] = Ok v
     ∧ stream_field Samples.normalized_spec "primary_key" = Ok N'
     ∧ (Ok N').["oneOf"] = Ok v
     ∧ py_in "anyOf" N' = Ok false
     ∧ ∀ k, k ≠ "anyOf" → k ≠ "oneOf" →
            (Ok N').[k] = (Ok Samples.primary_key).[k])
  ∧ (∃ v N',
       (Ok Samples.input_schema).["anyOf"] = Ok v
       ∧ stream_field Samples.normalized_spec "input_schema" = Ok N'
       ∧ (Ok N').["oneOf"] = Ok v
       ∧ py_in "anyOf" N' = Ok false
       ∧ ∀ k, k ≠ "anyOf" → k ≠ "oneOf" →
              (Ok N').[k] = (Ok Samples.input_schema).[k]).
Proof.
  split.
  - apply (anyOf_rename_keeps_other_keys Samples.spec Samples.normalized_spec
             "primary_key").
    + vm_compute. reflexivity.
    + left. reflexivity.
    + vm_compute. reflexivity.
    + vm_compute. reflexivity.
  - apply (anyOf_rename_keeps_other_keys Samples.spec Samples.normalized_spec
             "input_schema").
    + vm_compute. reflexivity.
    + right. reflexivity.
    + vm_compute. reflexivity.
    + vm_compute. reflexivity.
Defined.

(** ** The format alternatives *)

Lemma fold_fields_keys ks :
  ∀ pd p',
    foldM (fun properties key =>
             object_property ← py_subscript properties key;
             object_property ← hoist_enum object_property;
             Ok (store properties key object_property)) ks (JObj pd) = Ok p' →
    ∃ pd', p' = JObj pd' ∧ keys pd' = keys pd.
Proof.
  induction ks as [|key ks IH]; intros pd p'; simpl.
  - intros [= <-]. by exists pd.
  - intros (p1 & H1 & H)%result_bind_ok.
    apply result_bind_ok in H1 as (f & Hf & H1).
    apply result_bind_ok in H1 as (f1 & _ & [= <-]).
    destruct key as [| | |k| |]; try (simpl in Hf; discriminate).
    change (py_subscript (JObj pd) (JStr k) = Ok f) in Hf.
    apply py_subscript_str_ok in Hf as (d & [= <-] & Hf).
    assert (Hk : has_key k pd = true) by (apply has_key_assoc; eauto).
    simpl in H. rewrite Hk in H.
    apply IH in H as (pd' & -> & Hkeys).
    exists pd'. split; [done|]. by rewrite Hkeys, keys_set_present.
Qed.

Lemma hoist_enums_of_format_inv a a' :
  hoist_enums_of_format a = Ok a' →
  ∃ ad props props',
    a = JObj ad ∧ assoc "properties" ad = Some props
    ∧ a' = JObj (alist_set "properties" props' ad)
    ∧ ∀ pd, props = JObj pd → ∃ pd', props' = JObj pd' ∧ keys pd' = keys pd.
Proof.
  unfold hoist_enums_of_format.
  intros (props & (ad & [= ->] & Hprops)%getitem_ok & H)%result_bind_ok.
  apply result_bind_ok in H as (ks & Hks & H).
  apply result_bind_ok in H as (props' & Hfold & [= <-]).
  exists ad, props, props'. split; [done|]. split; [done|]. split.
  - simpl. unfold has_key. by rewrite Hprops.
  - intros pd ->. by eapply fold_fields_keys.
Qed.

(** X3: a completed run keeps the format alternatives in number and in
    order; each alternative keeps every key other than [properties] with
    its value, and its [properties] keep their keys, in the same order. *)
Theorem alternatives_preserved schema schema' alts :
  replace_enum_allOf_and_anyOf schema = Ok schema' →
  (stream_field schema "format").["additionalProperties"].["anyOf"]
  = Ok (JArr alts) →
  ∃ alts',
    (stream_field schema' "format").["additionalProperties"].["oneOf"]
    = Ok (JArr alts')
    ∧ length alts' = length alts
    ∧ ∀ i a', nth_error alts' i = Some a' →
        ∃ a, nth_error alts i = Some a
             ∧ (∀ k, k ≠ "properties" → (Ok a').[k] = (Ok a).[k])
             ∧ ∀ pd, (Ok a).["properties"] = Ok (JObj pd) →
                     ∃ pd', (Ok a').["properties"] = Ok (JObj pd')
                            ∧ keys pd' = keys pd.
Proof.
  intros Hrun Halts.
  destruct (normalizer_format _ _ Hrun) as (F & F' & HF & HF' & Hcase).
  rewrite HF in Halts. rewrite HF'.
  apply getitem_ok in Halts as (Ad & HA & Hany).
  apply getitem_ok in HA as (Fd & [= ->] & HA).
  destruct Hcase as [[Hin _]|[_ Hu]].
  { simpl in Hin. unfold has_key in Hin. by rewrite HA in Hin. }
  apply rewrite_format_union_inv in Hu
    as (Fd' & Ad' & alts'' & [= <-] & HA' & Hh & ->).
  rewrite HA in HA'. injection HA' as <-. rewrite Hany in Hh. simpl in Hh.
  apply hoist_enums_of_list in Hh as (alts' & -> & Hall).
  exists alts'. split; [|split].
  - unfold getitem. rsimpl. simpl. rewrite assoc_set_eq. rsimpl. simpl.
    by rewrite assoc_set_eq.
  - symmetry. by eapply Forall2_length.
  - intros i a' Hi.
    destruct (Forall2_nth_error_r _ _ _ _ _ Hall Hi) as (a & Ha & Hh).
    exists a. split; [done|].
    apply hoist_enums_of_format_inv in Hh
      as (ad & props & props' & -> & Hprops & -> & Hkeys).
    split.
    + intros k Hk. unfold getitem. rsimpl. simpl.
      rewrite assoc_set_ne; [done|congruence].
    + intros pd (d & [= <-] & Hpd)%getitem_ok.
      rewrite Hprops in Hpd. injection Hpd as ->.
      destruct (Hkeys pd eq_refl) as (pd' & -> & Hk).
      exists pd'. split; [|done].
      apply getitem_ok. eexists. split; [done|]. apply assoc_set_eq.
Qed.

Lemma alternatives_preserved_witness :
  ∃ alts',
    (stream_field Samples.normalized_spec "format")
      .["additionalProperties"].["oneOf"] = Ok (JArr alts')
    ∧ length alts' = length [Samples.csv_format]
    ∧ ∀ i a', nth_error alts' i = Some a' →
        ∃ a, nth_error [Samples.csv_format] i = Some a
             ∧ (∀ k, k ≠ "properties" → (Ok a').[k] = (Ok a).[k])
             ∧ ∀ pd, (Ok a).["properties"] = Ok (JObj pd) →
                     ∃ pd', (Ok a').["properties"] = Ok (JObj pd')
                            ∧ keys pd' = keys pd.
Proof.
  apply (alternatives_preserved Samples.spec); vm_compute; reflexivity.
Defined.

(** ** Alternatives the loop body cannot handle *)

Lemma normalizer_alternatives_return schema schema' alts :
  replace_enum_allOf_and_anyOf schema = Ok schema' →
  (stream_field schema "format").["additionalProperties"].["anyOf"]
  = Ok (JArr alts) →
  ∀ i a, nth_error alts i = Some a → returns (hoist_enums_of_format a).
Proof.
  intros Hrun Halts i a Hi.
  destruct (normalizer_format _ _ Hrun) as (F & F' & HF & HF' & Hcase).
  rewrite HF in Halts.
  apply getitem_ok in Halts as (Ad & HA & Hany).
  apply getitem_ok in HA as (Fd & [= ->] & HA).
  destruct Hcase as [[Hin _]|[_ Hu]].
  { simpl in Hin. unfold has_key in Hin. by rewrite HA in Hin. }
  apply rewrite_format_union_inv in Hu
    as (Fd' & Ad' & alts'' & [= <-] & HA' & Hh & ->).
  rewrite HA in HA'. injection HA' as <-. rewrite Hany in Hh. simpl in Hh.
  apply hoist_enums_of_list in Hh as (alts' & -> & Hall).
  destruct (Forall2_nth_error_l _ _ _ _ _ Hall Hi) as (a' & _ & Ha').
  by exists a'.
Qed.

(** X4: the run raises when a listed format alternative cannot be
    subscripted by ["properties"] (the key is missing, or the alternative
    is no mapping): line 69 is not guarded. *)
Theorem alternative_without_properties_raises schema alts i a e :
  (stream_field schema "format").["additionalProperties"].["anyOf"]
  = Ok (JArr alts) →
  nth_error alts i = Some a →
  (Ok a).["properties"] = Err e →
  raises (replace_enum_allOf_and_anyOf schema).
Proof.
  intros Halts Hi Hprops.
  destruct (replace_enum_allOf_and_anyOf schema) as [schema'|e'] eqn:Hrun;
    [|by exists e'].
  destruct (normalizer_alternatives_return _ _ _ Hrun Halts i a Hi)
    as [a' Ha'].
  unfold hoist_enums_of_format in Ha'. by rewrite Hprops in Ha'.
Qed.

Lemma alternative_without_properties_raises_witness :
  raises (replace_enum_allOf_and_anyOf Samples.spec_bare_alternative).
Proof.
  apply (alternative_without_properties_raises Samples.spec_bare_alternative
           [JObj [("title", JStr "CsvFormat")]] 0
           (JObj [("title", JStr "CsvFormat")]) KeyError);
    vm_compute; reflexivity.
Defined.

(** X5: on a tree of dicts, the run raises when a field of a format
    alternative carries an empty [allOf] list: line 71 indexes the list
    without checking its length. *)
Theorem empty_allOf_raises schema i key f :
  json_wf schema = true →
  field_before schema i key = Ok f →
  (Ok f).["allOf"] = Ok (JArr []) →
  raises (replace_enum_allOf_and_anyOf schema).
Proof.
  intros Hwf Hf Hall.
  destruct (replace_enum_allOf_and_anyOf schema) as [schema'|e'] eqn:Hrun;
    [|by exists e'].
  destruct (normalizer_fields _ _ i key Hwf Hrun) as [Hfw _].
  destruct (Hfw _ Hf) as (f' & Hh & _).
  apply getitem_ok in Hall as (d & [= ->] & Hall).
  unfold hoist_enum, is_allOf_enum, getitem, getindex in Hh.
  simpl in Hh. unfold has_key in Hh. rewrite Hall in Hh. by simpl in Hh.
Qed.

Lemma empty_allOf_raises_witness :
  raises (replace_enum_allOf_and_anyOf Samples.spec_empty_allOf).
Proof.
  apply (empty_allOf_raises Samples.spec_empty_allOf 0 "kind"
           (JObj [("allOf", JArr [])])); vm_compute; reflexivity.
Defined.

(** ** Running the normalizer again *)

Lemma rewrite_format_union_no_anyOf Fd Ad :
  assoc "additionalProperties" Fd = Some (JObj Ad) →
  assoc "anyOf" Ad = None →
  rewrite_format_union (JObj Fd)
  = Ok (JObj (alist_set "additionalProperties"
                (JObj (alist_set "oneOf" (JArr []) Ad)) Fd)).
Proof.
  intros HA Hany.
  unfold rewrite_format_union, getitem. rsimpl. simpl py_subscript.
  rewrite HA. rsimpl. simpl py_pop_default. rewrite Hany. rsimpl.
  simpl py_setitem. rsimpl. simpl py_subscript. rewrite assoc_set_eq.
  rsimpl. unfold hoist_enums. simpl py_iter. rsimpl. simpl mapM. rsimpl.
  simpl. unfold has_key. rewrite assoc_set_eq, HA.
  by rewrite alist_set_set.
Qed.

(** X6: the normalizer cannot be run twice.  On a tree of dicts on which
    it completed, a second run raises [KeyError]: the first run removed
    [anyOf] from [primary_key]. *)
Theorem normalizer_not_reentrant schema schema' :
  json_wf schema = true →
  replace_enum_allOf_and_anyOf schema = Ok schema' →
  replace_enum_allOf_and_anyOf schema' = Err KeyError.
Proof.
  intros Hwf (o & o' & Ho & Hn & ->)%replace_enum_allOf_and_anyOf_stored.
  rewrite replace_enum_allOf_and_anyOf_node.
  erewrite get_store_path by eauto. rsimpl.
  assert (Hwo : json_wf o = true) by (eapply json_wf_get_path; eauto).
  apply normalize_node_inv in Hn as (o1 & o2 & H1 & H2 & H3).
  apply format_block_inv in H1 as (F & F' & HF & -> & Hcase).
  apply anyOf_to_oneOf_node_inv in H2 as (N1 & v1 & HN1 & Hv1 & ->).
  apply anyOf_to_oneOf_node_inv in H3 as (N2 & v2 & HN2 & Hv2 & ->).
  set (N1' := JObj (alist_set "oneOf" v1 (alist_remove "anyOf" N1))) in *.
  set (N2' := JObj (alist_set "oneOf" v2 (alist_remove "anyOf" N2))) in *.
  set (o' := store (store (store o (JStr "format") F') (JStr "primary_key") N1')
               (JStr "input_schema") N2').
  assert (HF' : py_subscript o' (JStr "format") = Ok F').
  { unfold o'. rewrite !subscript_store_ne by done.
    eapply subscript_store_eq; eauto. }
  assert (HpkN : py_subscript o' (JStr "primary_key") = Ok N1').
  { unfold o'. rewrite subscript_store_ne by done.
    eapply subscript_store_eq; eauto. }
  assert (Hany1 : match N1' with
                  | JObj d => assoc "anyOf" d = None
                  | _ => False
                  end).
  { unfold N1'. rewrite assoc_set_ne by done. apply assoc_remove_eq.
    rewrite subscript_store_ne in HN1 by done.
    apply py_subscript_str_ok in HN1 as (d & -> & HN1).
    eapply json_wf_obj. eapply json_wf_obj; [exact Hwo|exact HN1]. }
  assert (Hblock : ∃ F'', format_block o' = Ok (store o' (JStr "format") F'')).
  { unfold format_block, getitem. rsimpl. rewrite HF'. rsimpl.
    destruct Hcase as [[Hin ->]|[Hin Hu]].
    - rewrite Hin. rsimpl. exists F. by rewrite store_same.
    - apply rewrite_format_union_inv in Hu
        as (Fd & Ad & alts' & -> & HA & Hh & ->).
      assert (HwA : distinct (keys Ad) = true).
      { apply py_subscript_str_ok in HF as (d & -> & HF).
        eapply json_wf_obj. eapply json_wf_obj; [|exact HA].
        eapply json_wf_obj; [exact Hwo|exact HF]. }
      simpl py_in. rewrite has_key_set. rewrite String.eqb_refl, orb_true_r.
      rsimpl. erewrite rewrite_format_union_no_anyOf.
      + rsimpl. by eexists.
      + apply assoc_set_eq.
      + rewrite assoc_set_ne by done.
        destruct (assoc "anyOf" Ad) eqn:E; [by apply assoc_remove_eq|done]. }
  destruct Hblock as [F'' Hblock].
  unfold normalize_node. rewrite Hblock. rsimpl.
  unfold properties_to_change. simpl foldM.
  destruct N1' as [| | | | |d1] eqn:E1; try done.
  rewrite (anyOf_to_oneOf_node_missing _ _ d1); [done| |done].
  by rewrite subscript_store_ne.
Qed.

Lemma normalizer_not_reentrant_witness :
  replace_enum_allOf_and_anyOf Samples.normalized_spec = Err KeyError.
Proof.
  apply (normalizer_not_reentrant Samples.spec); vm_compute; reflexivity.
Defined.

(** ** The order of keys after the rename *)

Lemma keys_remove {V} k (d : list (string * V)) :
  distinct (keys d) = true →
  keys (alist_remove k d)
  = List.filter (fun k' => negb (String.eqb k k')) (keys d).
Proof.
  induction d as [|[k0 v0] d IH]; simpl; [done|].
  intros [Hk0 Hd]%andb_prop.
  destruct (String.eqb k k0) eqn:E; simpl.
  - apply String.eqb_eq in E. subst k0.
    rewrite existsb_eqb_keys in Hk0. apply negb_true_iff in Hk0.
    clear IH Hd. induction d as [|[k1 v1] d IH]; simpl; [done|].
    unfold has_key in Hk0. simpl in Hk0.
    destruct (String.eqb k k1) eqn:E1; [done|]. simpl. f_equal.
    apply IH. unfold has_key. by destruct (assoc k d).
  - f_equal. by apply IH.
Qed.

Lemma keys_set_absent {V} k (v : V) d :
  has_key k d = false → keys (alist_set k v d) = keys d ++ [k].
Proof.
  unfold has_key. induction d as [|[k0 v0] d IH]; simpl; [done|].
  destruct (String.eqb k k0); [done|]. intros H. simpl. f_equal. by apply IH.
Qed.

(** X7: on a tree of dicts, when [primary_key] or [input_schema] has no
    [oneOf] key of its own, a completed run leaves its keys in the order
    they had, without [anyOf], followed by [oneOf]: the renamed key moves
    to the end of the mapping. *)
Theorem oneOf_goes_last schema schema' name Nd :
  json_wf schema = true →
  name = "primary_key" ∨ name = "input_schema" →
  replace_enum_allOf_and_anyOf schema = Ok schema' →
  stream_field schema name = Ok (JObj Nd) →
  has_key "oneOf" Nd = false →
  ∃ Nd', stream_field schema' name = Ok (JObj Nd')
         ∧ keys Nd'
           = List.filter (fun k => negb (String.eqb "anyOf" k)) (keys Nd)
             ++ ["oneOf"].
Proof.
  intros Hwf Hname%union_fields_listed Hrun HN Hone.
  destruct (normalizer_anyOf _ _ _ Hrun Hname) as (Nd0 & v & HN' & Hv & Hafter).
  rewrite HN in HN'. injection HN' as <-.
  assert (Hd : distinct (keys Nd) = true).
  { rewrite stream_field_get_path in HN.
    apply result_bind_ok in HN as (o & Ho & HN).
    apply py_subscript_str_ok in HN as (d & -> & HN).
    eapply json_wf_obj. eapply json_wf_obj; [|exact HN].
    eapply json_wf_get_path; eauto. }
  eexists. split; [exact Hafter|].
  rewrite keys_set_absent, keys_remove; [done..|].
  unfold has_key in *. by rewrite assoc_remove_ne.
Qed.

Lemma oneOf_goes_last_witness :
  (∃ Nd', stream_field Samples.normalized_spec "primary_key" = Ok (JObj Nd')
          ∧ keys Nd'
            = List.filter (fun k => negb (String.eqb "anyOf" k))
                ["title"; "anyOf"] ++ ["oneOf"])
  ∧ (∃ Nd', stream_field Samples.normalized_spec "input_schema"
            = Ok (JObj Nd')
            ∧ keys Nd'
              = List.filter (fun k => negb (String.eqb "anyOf" k))
                  ["title"; "anyOf"] ++ ["oneOf"]).
Proof.
  split.
  - apply (oneOf_goes_last Samples.spec Samples.normalized_spec "primary_key"
             [("title", JStr "Primary Key");
              ("anyOf", JArr [JObj [("type", JStr "string")];
                              JObj [("type", JStr "array");
                                    ("items",
                                      JObj [("type", JStr "string")])]])]).
    + vm_compute. reflexivity.
    + left. reflexivity.
    + vm_compute. reflexivity.
    + vm_compute. reflexivity.
    + vm_compute. reflexivity.
  - apply (oneOf_goes_last Samples.spec Samples.normalized_spec "input_schema"
             [("title", JStr "Input Schema");
              ("anyOf", JArr [JObj [("type", JStr "object")];
                              JObj [("type", JStr "string")]])]).
    + vm_compute. reflexivity.
    + right. reflexivity.
    + vm_compute. reflexivity.
    + vm_compute. reflexivity.
    + vm_compute. reflexivity.
Defined.

(** X13: on a tree of dicts, after a completed run the mapping under
    [additionalProperties] of the format node, when there is one, has no
    [anyOf] key and has an [oneOf] key. *)
Theorem no_anyOf_under_additionalProperties schema schema' A' :
  json_wf schema = true →
  replace_enum_allOf_and_anyOf schema = Ok schema' →
  (stream_field schema' "format").["additionalProperties"] = Ok A' →
  py_in "anyOf" A' = Ok false ∧ py_in "oneOf" A' = Ok true.
Proof.
  intros Hwf Hrun HA'.
  destruct (normalizer_format _ _ Hrun) as (F & F' & HF & HF' & Hcase).
  rewrite HF' in HA'.
  apply getitem_ok in HA' as (Fd' & [= ->] & HA').
  destruct Hcase as [[Hin <-]|[_ Hu]].
  { simpl in Hin. unfold has_key in Hin. by rewrite HA' in Hin. }
  apply rewrite_format_union_inv in Hu as (Fd & Ad & alts' & -> & HA & Hh & Heq).
  injection Heq as ->. rewrite assoc_set_eq in HA'. injection HA' as <-.
  assert (Hd : distinct (keys Ad) = true).
  { rewrite stream_field_get_path in HF.
    apply result_bind_ok in HF as (o & Ho & HF).
    apply py_subscript_str_ok in HF as (d & -> & HF).
    eapply json_wf_obj. eapply json_wf_obj; [|exact HA].
    eapply json_wf_obj; [|exact HF]. eapply json_wf_get_path; eauto. }
  simpl. unfold has_key. rewrite assoc_set_eq. split; [|done].
  rewrite assoc_set_ne by done.
  destruct (assoc "anyOf" Ad) eqn:E; [by rewrite assoc_remove_eq|by rewrite E].
Qed.

Lemma no_anyOf_under_additionalProperties_witness :
  py_in "anyOf"
    (JObj [("oneOf",
             JArr [JObj [("title", JStr "CsvFormat");
                         ("type", JStr "object");
                         ("properties",
                           JObj [("delimiter",
                                   JObj [("title", JStr "Delimiter");
                                         ("type", JStr "string")]);
                                 ("quoting_behavior",
                                   JObj [("title", JStr "Quoting Behavior");
                                         ("default",
                                           JStr "Quote Special Characters");
                                         ("enum",
                                           JArr [JStr "Quote All";
                                                 JStr "Quote Special Characters";
                                                 JStr "Quote None"])])])]])])
  = Ok false
  ∧ py_in "oneOf"
      (JObj [("oneOf",
               JArr [JObj [("title", JStr "CsvFormat");
                           ("type", JStr "object");
                           ("properties",
                             JObj [("delimiter",
                                     JObj [("title", JStr "Delimiter");
                                           ("type", JStr "string")]);
                                   ("quoting_behavior",
                                     JObj [("title", JStr "Quoting Behavior");
                                           ("default",
                                             JStr "Quote Special Characters");
                                           ("enum",
                                             JArr [JStr "Quote All";
                                                   JStr "Quote Special Characters";
                                                   JStr "Quote None"])])])]])])
    = Ok true.
Proof.
  apply (no_anyOf_under_additionalProperties Samples.spec
           Samples.normalized_spec); vm_compute; reflexivity.
Defined.

(** * Further properties of the unifier and of [schema] *)

Lemma add_legacy_format_stored t F :
  stream_field t "format" = Ok F →
  ∃ Pd, get_path stream_properties t = Ok (JObj Pd)
        ∧ add_legacy_format t
          = Ok (store_path stream_properties
                  (JObj (alist_set "format"
                           (JObj [("oneOf", JArr [F; legacy_format_options])])
                           Pd)) t).
Proof.
  rewrite stream_field_get_path.
  intros (o & Ho & (d & -> & HF)%py_subscript_str_ok)%result_bind_ok.
  exists d. split; [done|]. unfold add_legacy_format.
  change ((Ok t).["properties"].["streams"].["items"].["properties"].["format"])
    with (stream_field t "format").
  rewrite stream_field_get_path, stream_properties_chain, Ho. rsimpl.
  simpl py_subscript. rewrite HF. done.
Qed.

(** X8: [add_legacy_format] raises exactly when the lookup of the format
    node raises, with the same exception.  Otherwise it returns: the
    format entry holds the union, in the position it had in the stream
    schema node, and everything else in the document is what it was. *)
Theorem add_legacy_format_faults_and_frame t :
  match stream_field t "format" with
  | Err e => add_legacy_format t = Err e
  | Ok F =>
      ∃ t' Pd Pd',
        add_legacy_format t = Ok t'
        ∧ stream_field t' "format"
          = Ok (JObj [("oneOf", JArr [F; legacy_format_options])])
        ∧ get_path stream_properties t = Ok (JObj Pd)
        ∧ get_path stream_properties t' = Ok (JObj Pd')
        ∧ keys Pd' = keys Pd
        ∧ (∀ name, name ≠ "format" →
                   stream_field t' name = stream_field t name)
        ∧ (∀ p k' q k, stream_properties = p ++ k' :: q → k ≠ k' →
                       get_path (p ++ [k]) t' = get_path (p ++ [k]) t)
  end.
Proof.
  destruct (stream_field t "format") as [F|e] eqn:HF.
  - destruct (add_legacy_format_stored _ _ HF) as (Pd & HP & Hrun).
    destruct (add_legacy_format_format _ _ HF) as (t' & Hrun' & Hfmt & Hrest).
    exists t', Pd. eexists. split; [done|]. split; [done|].
    split; [done|]. rewrite Hrun in Hrun'. injection Hrun' as <-.
    split; [by eapply get_store_path|]. split; [|split; [done|]].
    + apply keys_set_present. apply has_key_assoc.
      rewrite stream_field_get_path, HP in HF. rsimpl in HF.
      apply py_subscript_str_ok in HF as (d & [= <-] & HF). eauto.
    + intros p k' q k -> Hne. by apply get_store_path_sibling.
  - unfold add_legacy_format.
    change ((Ok t).["properties"].["streams"].["items"].["properties"]
                  .["format"]) with (stream_field t "format").
    by rewrite HF.
Qed.

(** X9: [add_legacy_format] does not recognise a document it has already
    treated: a second application succeeds and wraps the union of the
    first in another union with the legacy node. *)
Theorem add_legacy_format_nests t t1 F :
  stream_field t "format" = Ok F →
  add_legacy_format t = Ok t1 →
  ∃ t2, add_legacy_format t1 = Ok t2
        ∧ stream_field t2 "format"
          = Ok (JObj [("oneOf",
                        JArr [JObj [("oneOf", JArr [F; legacy_format_options])];
                              legacy_format_options])]).
Proof.
  intros HF Hrun.
  destruct (add_legacy_format_format _ _ HF) as (t' & Hrun' & Hfmt & _).
  rewrite Hrun in Hrun'. injection Hrun' as <-.
  destruct (add_legacy_format_format _ _ Hfmt) as (t2 & Hrun2 & Hfmt2 & _).
  by exists t2.
Qed.

Lemma add_legacy_format_nests_witness :
  ∃ t2, add_legacy_format
          match add_legacy_format Samples.spec with
          | Ok t1 => t1
          | Err _ => JNull
          end = Ok t2
        ∧ stream_field t2 "format"
          = Ok (JObj [("oneOf",
                        JArr [JObj [("oneOf",
                                      JArr [Samples.format_of [Samples.csv_format];
                                            legacy_format_options])];
                              legacy_format_options])]).
Proof.
  apply (add_legacy_format_nests Samples.spec); vm_compute; reflexivity.
Defined.

(** X10: what [schema] serves.  When [schema] returns, [expand_refs]
    returned some tree [e], and in the returned document: the format
    entry is the union of a first member and the legacy node;
    [primary_key] and [input_schema] are those of [e], each with its
    [anyOf] removed and the value set under [oneOf]; and, [e] being a
    tree of dicts, no field of a format alternative under the first
    member has an [allOf] whose first element contains ["enum"]. *)
Theorem schema_serves (expand_refs : json → result json) raw out :
  Tree.schema expand_refs raw = Ok out →
  ∃ e F,
    expand_refs raw = Ok e
    ∧ stream_field out "format"
      = Ok (JObj [("oneOf", JArr [F; legacy_format_options])])
    ∧ (∃ Nd v, stream_field e "primary_key" = Ok (JObj Nd)
               ∧ assoc "anyOf" Nd = Some v
               ∧ stream_field out "primary_key"
                 = Ok (JObj (alist_set "oneOf" v (alist_remove "anyOf" Nd))))
    ∧ (∃ Nd v, stream_field e "input_schema" = Ok (JObj Nd)
               ∧ assoc "anyOf" Nd = Some v
               ∧ stream_field out "input_schema"
                 = Ok (JObj (alist_set "oneOf" v (alist_remove "anyOf" Nd))))
    ∧ (json_wf e = true →
       ∀ i key f first,
         field_served out i key = Ok f →
         (Ok f).["allOf"].[#0] = Ok first →
         py_in "enum" first = Ok false).
Proof.
  unfold Tree.schema. rewrite tree_deepcopy_id.
  intros (e & He & H)%result_bind_ok.
  apply result_bind_ok in H as (s2 & Hs2 & Hs3).
  destruct (normalizer_format _ _ Hs2) as (F0 & F & _ & HF & _).
  destruct (add_legacy_format_format _ _ HF) as (s3 & Hs3' & Hfmt & Hrest).
  rewrite Hs3 in Hs3'. injection Hs3' as <-.
  assert (Hunion : ∀ name, name = "primary_key" ∨ name = "input_schema" →
    ∃ Nd v, stream_field e name = Ok (JObj Nd)
            ∧ assoc "anyOf" Nd = Some v
            ∧ stream_field out name
              = Ok (JObj (alist_set "oneOf" v (alist_remove "anyOf" Nd)))).
  { intros name Hname.
    destruct (normalizer_anyOf _ _ _ Hs2 (union_fields_listed _ Hname))
      as (Nd & v & HN & Hv & HN').
    exists Nd, v. split; [done|]. split; [done|].
    rewrite Hrest; [done|]. by destruct Hname as [->| ->]. }
  exists e, F. split; [done|]. split; [done|].
  split; [apply Hunion; auto|]. split; [apply Hunion; auto|].
  intros Hwf i key f first Hf.
  assert (Hf' : field_after s2 i key = Ok f).
  { unfold field_after. rewrite field_of_format, HF.
    unfold field_served in Hf. rewrite Hfmt in Hf. exact Hf. }
  destruct (normalizer_fields _ _ i key Hwf Hs2) as [_ Hbw].
  destruct (Hbw _ Hf') as (f0 & Hf0 & Hh).
  apply is_allOf_enum_false.
  eapply is_allOf_enum_after; [|done]. by eapply json_wf_field.
Qed.

Lemma schema_serves_witness :
  ∃ e F,
    Ok Samples.spec = Ok e
    ∧ stream_field Samples.served_spec "format"
      = Ok (JObj [("oneOf", JArr [F; legacy_format_options])])
    ∧ (∃ Nd v, stream_field e "primary_key" = Ok (JObj Nd)
               ∧ assoc "anyOf" Nd = Some v
               ∧ stream_field Samples.served_spec "primary_key"
                 = Ok (JObj (alist_set "oneOf" v (alist_remove "anyOf" Nd))))
    ∧ (∃ Nd v, stream_field e "input_schema" = Ok (JObj Nd)
               ∧ assoc "anyOf" Nd = Some v
               ∧ stream_field Samples.served_spec "input_schema"
                 = Ok (JObj (alist_set "oneOf" v (alist_remove "anyOf" Nd))))
    ∧ (json_wf e = true →
       ∀ i key f first,
         field_served Samples.served_spec i key = Ok f →
         (Ok f).["allOf"].[#0] = Ok first →
         py_in "enum" first = Ok false).
Proof.
  apply (schema_serves Ok Samples.spec). vm_compute. reflexivity.
Defined.

(** X12: the order of the two stages matters.  Run after
    [add_legacy_format], the normalizer finds a format node without
    [additionalProperties] and leaves the union, and with it every
    alternative under its first member, as it found them. *)
Theorem normalizer_after_unifier_skips_format t t1 t2 F :
  stream_field t "format" = Ok F →
  add_legacy_format t = Ok t1 →
  replace_enum_allOf_and_anyOf t1 = Ok t2 →
  stream_field t2 "format"
  = Ok (JObj [("oneOf", JArr [F; legacy_format_options])]).
Proof.
  intros HF H1 H2.
  destruct (add_legacy_format_format _ _ HF) as (t' & H1' & Hfmt & _).
  rewrite H1 in H1'. injection H1' as <-.
  destruct (normalizer_format _ _ H2) as (F1 & F2 & HF1 & HF2 & Hcase).
  rewrite Hfmt in HF1. injection HF1 as <-.
  destruct Hcase as [[_ ->]|[Hin _]]; [done|]. by simpl in Hin.
Qed.

Lemma normalizer_after_unifier_skips_format_witness :
  stream_field
    match t1 ← add_legacy_format Samples.spec;
          replace_enum_allOf_and_anyOf t1 with
    | Ok t2 => t2
    | Err _ => JNull
    end "format"
  = Ok (JObj [("oneOf", JArr [Samples.format_of [Samples.csv_format];
                              legacy_format_options])]).
Proof.
  apply (normalizer_after_unifier_skips_format Samples.spec
           match add_legacy_format Samples.spec with
           | Ok t1 => t1
           | Err _ => JNull
           end); vm_compute; reflexivity.
Defined.

(** * Facts about the store *)

Import Heap.
Local Open Scope list_scope.

Section Isolation.
Variable h0 : heap.

Lemma isolated_refl : isolated h0 h0.
Proof. exists []. split; [by rewrite app_nil_r|constructor]. Qed.

Lemma isolated_lookup h l o :
  isolated h0 h → length h0 ≤ l → h !! l = Some o →
  Forall (value_ge (length h0)) (obj_values o).
Proof.
  intros (ext & -> & Hext) Hl Ho.
  rewrite lookup_app_r in Ho by done.
  eapply (proj1 (Forall_lookup _ _) Hext); eauto.
Qed.

Lemma isolated_old h l : isolated h0 h → l < (length h0) → h !! l = h0 !! l.
Proof. intros (ext & -> & _) Hl. by rewrite lookup_app_l. Qed.

Lemma isolated_insert h l o :
  isolated h0 h → length h0 ≤ l → Forall (value_ge (length h0)) (obj_values o) →
  isolated h0 (<[l := o]> h).
Proof.
  intros (ext & -> & Hext) Hl Ho.
  exists (<[l - (length h0) := o]> ext). split.
  - by rewrite insert_app_r_alt.
  - by apply Forall_insert.
Qed.

Lemma isolated_alloc h o :
  isolated h0 h → Forall (value_ge (length h0)) (obj_values o) →
  isolated h0 (h ++ [o]) ∧ length h0 ≤ length h.
Proof.
  intros (ext & -> & Hext) Ho. split.
  - exists (ext ++ [o]). split; [by rewrite app_assoc|].
    apply Forall_app. split; [done|]. by constructor.
  - rewrite length_app. lia.
Qed.

Lemma safe_ret {A} (a : A) (ok : A → Prop) : ok a → safe h0 (ret a) ok.
Proof. intros Ha h Hh. split; [done|]. by intros ? [= <-]. Qed.

Lemma safe_raise {A} e (ok : A → Prop) : safe h0 (raise e) ok.
Proof. intros h Hh. split; done. Qed.

Lemma safe_bind {A B} (m : M A) (f : A → M B) okA (okB : B → Prop) :
  safe h0 m okA → (∀ a, okA a → safe h0 (f a) okB) → safe h0 (m ≫= f) okB.
Proof.
  intros Hm Hf h Hh. unfold mbind, M_bind.
  destruct (Hm h Hh) as [Hh1 Ha].
  destruct (m h) as [[a|e] h1]; simpl in *; [|done].
  by apply Hf; [apply Ha|].
Qed.

Lemma safe_weaken {A} (m : M A) (ok ok' : A → Prop) :
  safe h0 m ok → (∀ a, ok a → ok' a) → safe h0 m ok'.
Proof.
  intros Hm Hw h Hh. destruct (Hm h Hh) as [? Ha]. split; [done|].
  intros a ?. by apply Hw, Ha.
Qed.

Lemma safe_forM {B} (xs : list B) (body : B → M unit) (P : B → Prop) :
  Forall P xs → (∀ x, P x → safe h0 (body x) (fun _ => True)) →
  safe h0 (forM xs body) (fun _ => True).
Proof.
  intros Hxs Hbody. induction Hxs as [|x xs Hx Hxs IH]; simpl.
  - by apply safe_ret.
  - eapply safe_bind; [by apply Hbody|]. intros _ _. apply IH.
Qed.

Lemma safe_get_obj l :
  length h0 ≤ l → safe h0 (get_obj l) (fun o => Forall (value_ge (length h0)) (obj_values o)).
Proof.
  intros Hl h Hh. unfold get_obj. cbv beta.
  destruct (h !! l) as [o|] eqn:Ho; simpl; split; try done.
  intros a [= <-]. by eapply isolated_lookup.
Qed.

Lemma safe_get_obj_any l : safe h0 (get_obj l) (fun _ => True).
Proof.
  intros h Hh. unfold get_obj. cbv beta. by destruct (h !! l).
Qed.

Lemma safe_put_obj l o :
  length h0 ≤ l → Forall (value_ge (length h0)) (obj_values o) →
  safe h0 (put_obj l o) (fun _ => True).
Proof.
  intros Hl Ho h Hh. unfold put_obj. simpl. split; [|done].
  by apply isolated_insert.
Qed.

Lemma safe_alloc_loc o :
  Forall (value_ge (length h0)) (obj_values o) →
  safe h0 (alloc_loc o) (fun l => length h0 ≤ l).
Proof.
  intros Ho h Hh. unfold alloc_loc. simpl.
  destruct (isolated_alloc h o Hh Ho). split; [done|]. by intros ? [= <-].
Qed.

Lemma safe_alloc o :
  Forall (value_ge (length h0)) (obj_values o) →
  safe h0 (alloc o) (value_ge (length h0)).
Proof.
  intros Ho. unfold alloc. eapply safe_bind; [by apply safe_alloc_loc|].
  intros l Hl. by apply safe_ret.
Qed.

Lemma value_ge_assoc k d v :
  Forall (value_ge (length h0)) (map snd d) → assoc k d = Some v →
  value_ge (length h0) v.
Proof.
  induction d as [|[k' v'] d IH]; simpl; [done|].
  intros [H1 H2]%Forall_cons. destruct (String.eqb k k'); [|by apply IH].
  by intros [= <-].
Qed.

Lemma value_ge_set k v d :
  value_ge (length h0) v → Forall (value_ge (length h0)) (map snd d) →
  Forall (value_ge (length h0)) (map snd (alist_set k v d)).
Proof.
  intros Hv. induction d as [|[k' v'] d IH]; simpl.
  - intros _. by repeat constructor.
  - intros [H1 H2]%Forall_cons.
    destruct (String.eqb k k'); simpl; constructor; auto.
Qed.

Lemma value_ge_remove k d :
  Forall (value_ge (length h0)) (map snd d) →
  Forall (value_ge (length h0)) (map snd (alist_remove k d)).
Proof.
  induction d as [|[k' v'] d IH]; simpl; [done|].
  intros [H1 H2]%Forall_cons.
  destruct (String.eqb k k'); simpl; [done|]. constructor; auto.
Qed.

Lemma value_ge_seq_index items i :
  Forall (value_ge (length h0)) items →
  safe h0 (lift (seq_index items i)) (value_ge (length h0)).
Proof.
  intros Hi h Hh. unfold lift. simpl. split; [done|].
  unfold seq_index. intros a Ha.
  destruct (_ && _); [|done].
  destruct (nth_error items _) eqn:E; [|done]. injection Ha as <-.
  rewrite Forall_forall in Hi. apply Hi.
  apply list_elem_of_In. eapply nth_error_In; eauto.
Qed.

Lemma value_ge_chars s : Forall (value_ge (length h0)) (chars s).
Proof. induction s; simpl; constructor; done. Qed.

Lemma safe_subscript o k :
  value_ge (length h0) o → safe h0 (subscript o k) (value_ge (length h0)).
Proof.
  intros Ho. destruct o as [| | |s|l]; simpl; try apply safe_raise.
  - destruct (as_index k); [|apply safe_raise].
    apply value_ge_seq_index, value_ge_chars.
  - eapply safe_bind; [by apply safe_get_obj|].
    intros [fields|items] Hobj; simpl in Hobj.
    + destruct k; try apply safe_raise.
      destruct (assoc s fields) eqn:E; [|apply safe_raise].
      apply safe_ret. by eapply value_ge_assoc.
    + destruct (as_index k); [|apply safe_raise].
      by apply value_ge_seq_index.
Qed.

Lemma safe_getitem m k :
  safe h0 m (value_ge (length h0)) →
  safe h0 (getitem m k) (value_ge (length h0)).
Proof.
  intros Hm. eapply safe_bind; [done|]. intros; by apply safe_subscript.
Qed.

Lemma safe_getindex m i :
  safe h0 m (value_ge (length h0)) →
  safe h0 (getindex m i) (value_ge (length h0)).
Proof.
  intros Hm. eapply safe_bind; [done|]. intros; by apply safe_subscript.
Qed.

Lemma safe_contains k o :
  value_ge (length h0) o → safe h0 (contains k o) (fun _ => True).
Proof.
  intros Ho. destruct o as [| | |s|l]; simpl;
    try apply safe_raise; try by apply safe_ret.
  eapply safe_bind; [by apply safe_get_obj|].
  intros [fields|items] _; by apply safe_ret.
Qed.

Lemma safe_setitem o k v :
  value_ge (length h0) o → value_ge (length h0) v →
  safe h0 (setitem o k v) (fun _ => True).
Proof.
  intros Ho Hv. destruct o as [| | |s|l]; simpl; try apply safe_raise.
  eapply safe_bind; [by apply safe_get_obj|].
  intros [fields|items] Hobj; [|apply safe_raise].
  apply safe_put_obj; [done|]. by apply value_ge_set.
Qed.

Lemma safe_pop o k :
  value_ge (length h0) o → safe h0 (pop o k) (value_ge (length h0)).
Proof.
  intros Ho. destruct o as [| | |s|l]; simpl; try apply safe_raise.
  eapply safe_bind; [by apply safe_get_obj|].
  intros [fields|items] Hobj; [|apply safe_raise].
  destruct (assoc k fields) eqn:E; [|apply safe_raise].
  eapply safe_bind; [apply safe_put_obj; [done|by apply value_ge_remove]|].
  intros _ _. apply safe_ret. by eapply value_ge_assoc.
Qed.

Lemma safe_pop_default o k d :
  value_ge (length h0) o → value_ge (length h0) d →
  safe h0 (pop_default o k d) (value_ge (length h0)).
Proof.
  intros Ho Hd. destruct o as [| | |s|l]; simpl; try apply safe_raise.
  eapply safe_bind; [by apply safe_get_obj|].
  intros [fields|items] Hobj; [|apply safe_raise].
  destruct (assoc k fields) eqn:E; [|by apply safe_ret].
  eapply safe_bind; [apply safe_put_obj; [done|by apply value_ge_remove]|].
  intros _ _. apply safe_ret. by eapply value_ge_assoc.
Qed.

Lemma safe_check_unchanged l ks :
  safe h0 (check_unchanged l ks) (fun _ => True).
Proof.
  eapply safe_bind; [apply safe_get_obj_any|].
  intros [fields|items] _; [|by apply safe_ret].
  destruct (same_keys _ _); [by apply safe_ret|apply safe_raise].
Qed.

Lemma safe_for_each o body :
  value_ge (length h0) o →
  (∀ x, value_ge (length h0) x → safe h0 (body x) (fun _ => True)) →
  safe h0 (for_each o body) (fun _ => True).
Proof.
  intros Ho Hbody. destruct o as [| | |s|l]; simpl; try apply safe_raise.
  - eapply safe_forM; [apply value_ge_chars|done].
  - eapply safe_bind; [by apply safe_get_obj|].
    intros [fields|items] Hobj; simpl in Hobj.
    + apply (safe_forM _ _ (fun _ => True)); [by apply Forall_true|].
      intros k _. eapply safe_bind; [by apply Hbody|].
      intros _ _. apply safe_check_unchanged.
    + by eapply safe_forM.
Qed.
Lemma safe_list_append y v :
  length h0 ≤ y → value_ge (length h0) v →
  safe h0 (list_append y v) (fun _ => True).
Proof.
  intros Hy Hv. eapply safe_bind; [by apply safe_get_obj|].
  intros [fields|items] Hobj; [apply safe_raise|].
  apply safe_put_obj; [done|]. simpl in *.
  apply Forall_app. split; [done|]. by constructor.
Qed.

Lemma safe_dict_set y k v :
  length h0 ≤ y → value_ge (length h0) v →
  safe h0 (dict_set y k v) (fun _ => True).
Proof.
  intros Hy Hv. eapply safe_bind; [by apply safe_get_obj|].
  intros [fields|items] Hobj; [|apply safe_raise].
  apply safe_put_obj; [done|]. by apply value_ge_set.
Qed.

Lemma memo_ge_cons l y memo :
  length h0 ≤ y → memo_ge (length h0) memo → memo_ge (length h0) ((l, y) :: memo).
Proof.
  intros Hy Hm l' y'. simpl. destruct (Nat.eqb l' l); [by intros [= <-]|].
  apply Hm.
Qed.

Lemma safe_copy_items copy y items :
  length h0 ≤ y →
  (∀ a memo, memo_ge (length h0) memo →
     safe h0 (copy a memo)
       (fun r => value_ge (length h0) (fst r) ∧ memo_ge (length h0) (snd r))) →
  ∀ memo, memo_ge (length h0) memo →
          safe h0 (copy_items copy y items memo) (memo_ge (length h0)).
Proof.
  intros Hy Hcopy. induction items as [|a items IH]; intros memo Hm; simpl.
  - by apply safe_ret.
  - eapply safe_bind; [by apply Hcopy|]. intros r [Ha Hm'].
    eapply safe_bind; [by apply safe_list_append|]. intros _ _. by apply IH.
Qed.

Lemma safe_copy_fields copy y fields :
  length h0 ≤ y →
  (∀ a memo, memo_ge (length h0) memo →
     safe h0 (copy a memo)
       (fun r => value_ge (length h0) (fst r) ∧ memo_ge (length h0) (snd r))) →
  ∀ memo, memo_ge (length h0) memo →
          safe h0 (copy_fields copy y fields memo) (memo_ge (length h0)).
Proof.
  intros Hy Hcopy. induction fields as [|[k a] fields IH]; intros memo Hm; simpl.
  - by apply safe_ret.
  - eapply safe_bind; [by apply Hcopy|]. intros r [Ha Hm'].
    eapply safe_bind; [by apply safe_dict_set|]. intros _ _. by apply IH.
Qed.

Lemma safe_deepcopy_memo fuel :
  ∀ x memo,
    memo_ge (length h0) memo →
    safe h0 (deepcopy_memo fuel x memo)
      (fun r => value_ge (length h0) (fst r) ∧ memo_ge (length h0) (snd r)).
Proof.
  induction fuel as [|fuel IH]; intros x memo Hmemo;
    (destruct x as [| | | |l]; simpl; try by apply safe_ret);
    (destruct (memo_get l memo) as [y|] eqn:Hy;
       [apply safe_ret; split; [by apply (Hmemo l)|done]|]).
  - apply safe_raise.
  - eapply safe_bind; [apply safe_get_obj_any|].
    intros [fields|items] _.
    + eapply safe_bind; [apply safe_alloc_loc; constructor|].
      intros y Hy'. simpl in Hy'.
      eapply safe_bind;
        [apply safe_copy_fields; [done|done|by apply memo_ge_cons]|].
      intros memo' Hmemo'. by apply safe_ret.
    + eapply safe_bind; [apply safe_alloc_loc; constructor|].
      intros y Hy'. simpl in Hy'.
      eapply safe_bind;
        [apply safe_copy_items; [done|done|by apply memo_ge_cons]|].
      intros memo' Hmemo'. by apply safe_ret.
Qed.

Lemma safe_deepcopy x : safe h0 (deepcopy x) (value_ge (length h0)).
Proof.
  intros h Hh. unfold deepcopy.
  eapply (safe_bind (deepcopy_memo (S (length h)) x [])); [| |done].
  - apply safe_deepcopy_memo. by intros ? ?.
  - intros [v memo] [Hv _]. by apply safe_ret.
Qed.

(** ** The three functions leave the older objects alone *)

Lemma safe_is_allOf_enum v :
  value_ge (length h0) v → safe h0 (is_allOf_enum v) (fun _ => True).
Proof.
  intros Hv. eapply safe_bind; [by apply safe_contains|].
  intros [] _; [|by apply safe_ret].
  eapply safe_bind.
  - apply safe_getindex, safe_getitem. by apply safe_ret.
  - intros first Hf. by apply safe_contains.
Qed.

Lemma safe_hoist_enum format key :
  value_ge (length h0) format → safe h0 (hoist_enum format key) (fun _ => True).
Proof.
  intros Hf. eapply safe_bind; [apply safe_getitem; by apply safe_ret|].
  intros props Hp. eapply safe_bind; [by apply safe_subscript|].
  intros op Hop. eapply safe_bind; [by apply safe_is_allOf_enum|].
  intros [] _; [|by apply safe_ret].
  eapply safe_bind.
  { apply safe_getitem, safe_getindex, safe_getitem. by apply safe_ret. }
  intros enum He. eapply safe_bind; [by apply safe_setitem|].
  intros _ _. eapply safe_bind; [by apply safe_pop|].
  intros _ _. by apply safe_ret.
Qed.

Lemma safe_hoist_enums_of_format format :
  value_ge (length h0) format →
  safe h0 (hoist_enums_of_format format) (fun _ => True).
Proof.
  intros Hf. eapply safe_bind; [apply safe_getitem; by apply safe_ret|].
  intros props Hp. apply safe_for_each; [done|].
  intros key _. by apply safe_hoist_enum.
Qed.

Lemma safe_stream_properties schema :
  value_ge (length h0) schema →
  safe h0 (stream_properties schema) (value_ge (length h0)).
Proof.
  intros Hs. unfold stream_properties.
  repeat apply safe_getitem. by apply safe_ret.
Qed.

Lemma safe_rewrite_format_union v :
  value_ge (length h0) v → safe h0 (rewrite_format_union v) (fun _ => True).
Proof.
  intros Hv. eapply safe_bind; [apply safe_getitem; by apply safe_ret|].
  intros additional Ha.
  eapply safe_bind with (okA := fun _ => True).
  { destruct additional; try apply safe_raise; by apply safe_ret. }
  intros _ _.
  eapply safe_bind; [apply safe_alloc; constructor|].
  intros default Hd. eapply safe_bind; [by apply safe_pop_default|].
  intros any_of Hany.
  eapply safe_bind; [apply safe_getitem; by apply safe_ret|].
  intros additional' Ha'. eapply safe_bind; [by apply safe_setitem|].
  intros _ _.
  eapply safe_bind; [do 2 apply safe_getitem; by apply safe_ret|].
  intros formats Hfs. apply safe_for_each; [done|].
  intros; by apply safe_hoist_enums_of_format.
Qed.

Lemma safe_anyOf_to_oneOf schema name :
  value_ge (length h0) schema →
  safe h0 (anyOf_to_oneOf schema name) (fun _ => True).
Proof.
  intros Hs.
  eapply safe_bind; [by apply safe_getitem, safe_stream_properties|].
  intros node Hn. eapply safe_bind; [by apply safe_pop|].
  intros any_of Hany.
  eapply safe_bind; [by apply safe_getitem, safe_stream_properties|].
  intros node' Hn'. by apply safe_setitem.
Qed.

Lemma safe_replace_enum_allOf_and_anyOf schema :
  value_ge (length h0) schema →
  safe h0 (replace_enum_allOf_and_anyOf schema) (value_ge (length h0)).
Proof.
  intros Hs.
  eapply safe_bind; [by apply safe_getitem, safe_stream_properties|].
  intros objects_to_check Ho. eapply safe_bind; [by apply safe_contains|].
  intros has _.
  eapply safe_bind with (okA := fun _ => True).
  { destruct has; [by apply safe_rewrite_format_union|by apply safe_ret]. }
  intros _ _. eapply safe_bind.
  { apply (safe_forM _ _ (fun _ => True)); [by apply Forall_true|].
    intros; by apply safe_anyOf_to_oneOf. }
  intros _ _. by apply safe_ret.
Qed.

Lemma safe_add_legacy_format schema :
  value_ge (length h0) schema →
  safe h0 (add_legacy_format schema) (value_ge (length h0)).
Proof.
  intros Hs. unfold add_legacy_format.
  eapply safe_bind; [apply safe_alloc; by repeat constructor|].
  intros required Hr.
  eapply safe_bind; [apply safe_alloc; by repeat constructor|].
  intros filetype Hf.
  eapply safe_bind; [apply safe_alloc; by repeat constructor|].
  intros properties Hp.
  eapply safe_bind; [apply safe_alloc; by repeat constructor|].
  intros legacy Hl.
  eapply safe_bind; [by apply safe_getitem, safe_stream_properties|].
  intros csv Hc.
  eapply safe_bind; [apply safe_alloc; by repeat constructor|].
  intros members Hm.
  eapply safe_bind; [apply safe_alloc; by repeat constructor|].
  intros union Hu.
  eapply safe_bind; [by apply safe_stream_properties|].
  intros props Hps. eapply safe_bind; [by apply safe_setitem|].
  intros _ _. by apply safe_ret.
Qed.
End Isolation.

(** ** Reading the old objects from a newer store *)

Lemma heap_wf_lookup h l o :
  heap_wf h = true → h !! l = Some o →
  Forall (fun v => value_in (length h) v = true) (obj_values o).
Proof.
  unfold heap_wf. rewrite forallb_forall. intros H Ho.
  apply Forall_forall. intros v Hv.
  specialize (H o). rewrite forallb_forall in H. apply H.
  - apply list_elem_of_In. by eapply list_elem_of_lookup_2.
  - by apply list_elem_of_In.
Qed.

Lemma reachable_ge h0 h v l :
  isolated h0 h → value_ge (length h0) v → reachable h v l → length h0 ≤ l.
Proof.
  intros Hh Hv Hr. induction Hr as [l|l o v l' Ho Hin Hr IH]; [done|].
  apply IH. simpl in Hv.
  pose proof (isolated_lookup _ _ _ _ Hh Hv Ho) as Hall.
  rewrite Forall_forall in Hall. by apply Hall, list_elem_of_In.
Qed.

Lemma reachable_lt h0 h v l :
  heap_wf h0 = true → (∀ l, l < length h0 → h !! l = h0 !! l) →
  value_in (length h0) v = true → reachable h v l → l < length h0.
Proof.
  intros Hwf Hold Hv Hr. induction Hr as [l|l o v l' Ho Hin Hr IH].
  - by apply Nat.ltb_lt.
  - apply IH. simpl in Hv. apply Nat.ltb_lt in Hv.
    rewrite Hold in Ho by done.
    pose proof (heap_wf_lookup _ _ _ Hwf Ho) as Hall.
    rewrite Forall_forall in Hall. by apply Hall, list_elem_of_In.
Qed.

Lemma reify_old h0 h fuel :
  heap_wf h0 = true → (∀ l, l < length h0 → h !! l = h0 !! l) →
  ∀ v, value_in (length h0) v = true → reify fuel h v = reify fuel h0 v.
Proof.
  intros Hwf Hold. induction fuel as [|fuel IH]; intros v Hv;
    destruct v as [| | | |l]; simpl; try done.
  apply Nat.ltb_lt in Hv. rewrite Hold by done.
  destruct (h0 !! l) as [[fields|items]|] eqn:Ho; [| |done].
  - f_equal. pose proof (heap_wf_lookup _ _ _ Hwf Ho) as Hall.
    simpl in Hall. clear Ho.
    induction fields as [|[k a] fields IHf]; [done|].
    apply Forall_cons in Hall as [Ha Hall].
    rewrite IH by done. by rewrite IHf.
  - f_equal. pose proof (heap_wf_lookup _ _ _ Hwf Ho) as Hall.
    simpl in Hall. clear Ho.
    induction items as [|a items IHi]; [done|].
    apply Forall_cons in Hall as [Ha Hall].
    rewrite IH by done. by rewrite IHi.
Qed.

(** * [schema] works on a copy *)

Section SchemaIsolation.
(** [expand_refs] receives the copy and nothing else: it reaches, and so
    mutates, only objects it can get to from its argument and objects it
    creates. *)
Variable expand_refs : value → M unit.
Hypothesis expand_refs_local :
  ∀ h0 v, value_ge (length h0) v → safe h0 (expand_refs v) (fun _ => True).

Lemma safe_schema h0 raw :
  safe h0 (schema expand_refs raw) (value_ge (length h0)).
Proof.
  eapply safe_bind; [apply safe_deepcopy|].
  intros copy Hc. eapply safe_bind; [by apply expand_refs_local|].
  intros _ _. eapply safe_bind; [by apply safe_replace_enum_allOf_and_anyOf|].
  intros _ _. eapply safe_bind; [by apply safe_add_legacy_format|].
  intros _ _. by apply safe_ret.
Qed.

(** C6: [schema] leaves every object of the store it was called on as it
    was, whether it returns or raises, so the raw tree reads as before;
    no object of the tree it returns is an object of the raw tree, and
    overwriting any object of the returned tree afterwards leaves the raw
    tree as it was. *)
Theorem schema_isolates_input h raw :
  heap_wf h = true →
  value_in (length h) raw = true →
  let h' := snd (schema expand_refs raw h) in
  (∀ l, l < length h → h' !! l = h !! l)
  ∧ (∀ fuel, reify fuel h' raw = reify fuel h raw)
  ∧ ∀ out, fst (schema expand_refs raw h) = Ok out →
      (∀ l, reachable h' out l → length h ≤ l ∧ ¬ reachable h' raw l)
      ∧ (∀ l o fuel, reachable h' out l →
           reify fuel (<[l := o]> h') raw = reify fuel h raw).
Proof.
  intros Hwf Hraw h'.
  destruct (safe_schema h raw h (isolated_refl h)) as [Hiso Hout].
  fold h' in Hiso.
  assert (Hold : ∀ l, l < length h → h' !! l = h !! l)
    by (intros; by apply isolated_old).
  split; [done|]. split; [intros; by apply reify_old|].
  intros out Hrun. specialize (Hout _ Hrun).
  assert (Hge : ∀ l, reachable h' out l → length h ≤ l)
    by (intros; by eapply reachable_ge).
  split.
  - intros l Hl. split; [by apply Hge|].
    intros Hl'. apply (reachable_lt h) in Hl'; try done.
    apply Hge in Hl. lia.
  - intros l o fuel Hl. apply reify_old; try done.
    intros l' Hl'. apply Hge in Hl.
    rewrite list_lookup_insert_ne by lia. by apply Hold.
Qed.
End SchemaIsolation.

Lemma no_refs_local h0 v :
  value_ge (length h0) v → safe h0 (Samples.no_refs v) (fun _ => True).
Proof. intros _. by apply safe_ret. Qed.

Lemma schema_isolates_input_witness :
  let h' := snd (schema Samples.no_refs Samples.spec_root Samples.spec_heap) in
  (∀ l, l < length Samples.spec_heap → h' !! l = Samples.spec_heap !! l)
  ∧ (∀ fuel, reify fuel h' Samples.spec_root
             = reify fuel Samples.spec_heap Samples.spec_root)
  ∧ ∀ out,
      fst (schema Samples.no_refs Samples.spec_root Samples.spec_heap) = Ok out →
      (∀ l, reachable h' out l →
            length Samples.spec_heap ≤ l ∧ ¬ reachable h' Samples.spec_root l)
      ∧ (∀ l o fuel, reachable h' out l →
           reify fuel (<[l := o]> h') Samples.spec_root
           = reify fuel Samples.spec_heap Samples.spec_root).
Proof.
  apply (schema_isolates_input Samples.no_refs no_refs_local).
  - vm_compute. reflexivity.
  - vm_compute. reflexivity.
Defined.

(** * The static methods called on a tree of their own *)



(** * Two runs on stores with the same structure *)

Lemma sub_refl R : sub R R.
Proof. by intros ? ?. Qed.

Lemma sub_trans R R' R'' : sub R R' → sub R' R'' → sub R R''.
Proof. intros H1 H2 ? ? ?. by apply H2, H1. Qed.

Lemma vrel_mono R R' v1 v2 : sub R R' → vrel R v1 v2 → vrel R' v1 v2.
Proof. intros HR. destruct v1, v2; simpl; try done. apply HR. Qed.

Lemma orel_mono R R' o1 o2 : sub R R' → orel R o1 o2 → orel R' o1 o2.
Proof.
  intros HR. destruct o1, o2; simpl; try done.
  - intros H. eapply Forall2_impl; [exact H|].
    intros ? ? [? ?]. split; [done|]. by eapply vrel_mono.
  - intros H. eapply Forall2_impl; [exact H|]. intros ? ?. by apply vrel_mono.
Qed.

Lemma memo_rel_mono R R' m1 m2 :
  sub R R' → memo_rel R m1 m2 → memo_rel R' m1 m2.
Proof.
  intros HR H. eapply Forall2_impl; [exact H|].
  intros ? ? [? ?]. split; by apply HR.
Qed.

Lemma mrel_ret {A} (Q : (loc → loc → Prop) → A → A → Prop) R a1 a2 :
  Q R a1 a2 → mrel Q R (ret a1) (ret a2).
Proof. intros Ha h1 h2 Hh. exists R. split; [apply sub_refl|done]. Qed.

Lemma mrel_raise {A} (Q : (loc → loc → Prop) → A → A → Prop) R e :
  mrel Q R (raise e) (raise e).
Proof. intros h1 h2 Hh. exists R. split; [apply sub_refl|done]. Qed.

Lemma mrel_lift {A} (Q : (loc → loc → Prop) → A → A → Prop) R r1 r2 :
  rrel (Q R) r1 r2 → mrel Q R (lift r1) (lift r2).
Proof. intros Hr h1 h2 Hh. exists R. split; [apply sub_refl|done]. Qed.

Lemma mrel_bind {A B} (QA : (loc → loc → Prop) → A → A → Prop)
    (QB : (loc → loc → Prop) → B → B → Prop) R m1 m2 f1 f2 :
  mrel QA R m1 m2 →
  (∀ R', sub R R' → ∀ a1 a2, QA R' a1 a2 → mrel QB R' (f1 a1) (f2 a2)) →
  mrel QB R (m1 ≫= f1) (m2 ≫= f2).
Proof.
  intros Hm Hf h1 h2 Hh. unfold mbind, M_bind.
  destruct (Hm h1 h2 Hh) as (R' & HR' & Hh' & Hr).
  destruct (m1 h1) as [[a1|e1] h1'], (m2 h2) as [[a2|e2] h2'];
    simpl in *; try done.
  - destruct (Hf R' HR' a1 a2 Hr h1' h2' Hh') as (R'' & HR'' & Hh'' & Hr').
    exists R''. split; [by eapply sub_trans|done].
  - exists R'. done.
Qed.

Lemma mrel_weaken {A} (Q Q' : (loc → loc → Prop) → A → A → Prop) R m1 m2 :
  mrel Q R m1 m2 → (∀ R' a1 a2, Q R' a1 a2 → Q' R' a1 a2) →
  mrel Q' R m1 m2.
Proof.
  intros Hm HQ h1 h2 Hh. destruct (Hm h1 h2 Hh) as (R' & HR' & Hh' & Hr).
  exists R'. split; [done|]. split; [done|].
  destruct (fst (m1 h1)), (fst (m2 h2)); simpl in *; auto.
Qed.

Lemma mrel_get_obj R l1 l2 : R l1 l2 → mrel orel R (get_obj l1) (get_obj l2).
Proof.
  intros HR h1 h2 Hh. exists R. split; [apply sub_refl|].
  destruct Hh as (Hf & Hi & Hobj).
  destruct (Hobj l1 l2 HR) as (o1 & o2 & H1 & H2 & Ho).
  unfold get_obj. rewrite H1, H2. simpl. done.
Qed.

Lemma mrel_put_obj R l1 l2 o1 o2 :
  R l1 l2 → orel R o1 o2 →
  mrel (fun _ _ _ => True) R (put_obj l1 o1) (put_obj l2 o2).
Proof.
  intros HR Ho h1 h2 Hh. exists R. split; [apply sub_refl|].
  split; [|done]. unfold put_obj. simpl.
  destruct Hh as (Hf & Hi & Hobj). split; [done|]. split; [done|].
  intros a1 a2 Ha.
  destruct (Hobj l1 l2 HR) as (p1 & p2 & Hp1 & Hp2 & _).
  apply lookup_lt_Some in Hp1, Hp2.
  destruct (decide (a1 = l1)) as [->|Hne].
  - assert (a2 = l2) as -> by (by eapply Hf).
    exists o1, o2. by rewrite !list_lookup_insert_eq.
  - assert (a2 ≠ l2) by (intros ->; apply Hne; by eapply Hi).
    destruct (Hobj a1 a2 Ha) as (q1 & q2 & Hq1 & Hq2 & Hq).
    exists q1, q2. by rewrite !list_lookup_insert_ne.
Qed.

Lemma mrel_alloc_loc R o1 o2 :
  orel R o1 o2 → mrel (fun R l1 l2 => R l1 l2) R (alloc_loc o1) (alloc_loc o2).
Proof.
  intros Ho h1 h2 (Hf & Hi & Hobj). unfold alloc_loc. simpl.
  set (R' := fun a b => R a b ∨ (a = length h1 ∧ b = length h2)).
  assert (HR' : sub R R') by (intros ? ? ?; by left).
  assert (Hlt : ∀ a b, R a b → a < length h1 ∧ b < length h2).
  { intros a b Hab. destruct (Hobj a b Hab) as (? & ? & H1 & H2 & _).
    split; by eapply lookup_lt_Some. }
  exists R'. split; [done|]. split; [|by right].
  split; [|split].
  - intros a b b' [H|[-> ->]] [H'|[? ->]]; try done.
    + by eapply Hf.
    + apply Hlt in H. lia.
    + apply Hlt in H'. lia.
  - intros a a' b [H|[-> ->]] [H'|[-> ?]]; try done.
    + by eapply Hi.
    + apply Hlt in H. lia.
    + apply Hlt in H'. lia.
  - intros a b [H|[-> ->]].
    + destruct (Hobj a b H) as (q1 & q2 & Hq1 & Hq2 & Hq).
      exists q1, q2. rewrite !lookup_app_l by (by eapply lookup_lt_Some).
      split; [done|]. split; [done|]. by eapply orel_mono.
    + exists o1, o2. rewrite !lookup_app_r by done.
      rewrite !Nat.sub_diag. simpl. split; [done|]. split; [done|].
      by eapply orel_mono.
Qed.

Lemma mrel_alloc R o1 o2 : orel R o1 o2 → mrel vrel R (alloc o1) (alloc o2).
Proof.
  intros Ho. eapply mrel_bind; [by apply mrel_alloc_loc|].
  intros R' _ l1 l2 Hl. by apply mrel_ret.
Qed.

Lemma mrel_forM {B} (P : (loc → loc → Prop) → B → B → Prop) body1 body2 :
  (∀ R R' x1 x2, sub R R' → P R x1 x2 → P R' x1 x2) →
  ∀ xs1 xs2 R,
    Forall2 (P R) xs1 xs2 →
    (∀ R', sub R R' → ∀ x1 x2, P R' x1 x2 →
           mrel (fun _ _ _ => True) R' (body1 x1) (body2 x2)) →
    mrel (fun _ _ _ => True) R (forM xs1 body1) (forM xs2 body2).
Proof.
  intros Hmono xs1. induction xs1 as [|x1 xs1 IH]; intros xs2 R Hxs Hbody;
    inversion Hxs as [|? x2 ? xs2' Hx Hxs']; subst; simpl.
  - by apply mrel_ret.
  - eapply mrel_bind; [by apply Hbody; [apply sub_refl|]|].
    intros R' HR' ? ? _. apply IH.
    + eapply Forall2_impl; [done|]. intros; by eapply Hmono.
    + intros R'' HR'' y1 y2 Hy. apply Hbody; [|done]. by eapply sub_trans.
Qed.

Ltac vrel_cases v1 v2 H :=
  destruct v1, v2; simpl in H; try done;
  try (injection H as <-).

Lemma assoc_rel R k d1 d2 :
  orel R (ODict d1) (ODict d2) →
  match assoc k d1, assoc k d2 with
  | Some v1, Some v2 => vrel R v1 v2
  | None, None => True
  | _, _ => False
  end.
Proof.
  simpl. induction 1 as [|[k1 v1] [k2 v2] d1 d2 [Hk Hv] Hd IH]; simpl; [done|].
  simpl in Hk, Hv. subst k2. by destruct (String.eqb k k1).
Qed.

Lemma has_key_rel R k d1 d2 :
  orel R (ODict d1) (ODict d2) → has_key k d1 = has_key k d2.
Proof.
  intros H. apply (assoc_rel R k) in H. unfold has_key.
  by destruct (assoc k d1), (assoc k d2).
Qed.

Lemma keys_rel R d1 d2 : orel R (ODict d1) (ODict d2) → keys d1 = keys d2.
Proof.
  simpl. induction 1 as [|[k1 v1] [k2 v2] d1 d2 [Hk Hv] Hd IH]; simpl; [done|].
  simpl in Hk. by rewrite Hk, IH.
Qed.

Lemma set_rel R k v1 v2 d1 d2 :
  vrel R v1 v2 → orel R (ODict d1) (ODict d2) →
  orel R (ODict (alist_set k v1 d1)) (ODict (alist_set k v2 d2)).
Proof.
  intros Hv. simpl.
  induction 1 as [|[k1 w1] [k2 w2] d1 d2 [Hk Hw] Hd IH]; simpl.
  - by repeat constructor.
  - simpl in Hk, Hw. subst k2.
    destruct (String.eqb k k1); constructor; try done.
Qed.

Lemma remove_rel R k d1 d2 :
  orel R (ODict d1) (ODict d2) →
  orel R (ODict (alist_remove k d1)) (ODict (alist_remove k d2)).
Proof.
  simpl. induction 1 as [|[k1 w1] [k2 w2] d1 d2 [Hk Hw] Hd IH]; simpl; [done|].
  simpl in Hk, Hw. subst k2.
  destruct (String.eqb k k1); [done|]. by constructor.
Qed.

Lemma as_index_rel R k1 k2 : vrel R k1 k2 → as_index k1 = as_index k2.
Proof. intros H. by vrel_cases k1 k2 H. Qed.

Lemma nth_error_rel {A} (P : A → A → Prop) l1 l2 n :
  Forall2 P l1 l2 →
  match nth_error l1 n, nth_error l2 n with
  | Some x1, Some x2 => P x1 x2
  | None, None => True
  | _, _ => False
  end.
Proof.
  intros H. revert n. induction H; intros [|n]; simpl; try done. apply IHForall2.
Qed.

Lemma seq_index_rel R i1 i2 i :
  Forall2 (vrel R) i1 i2 → rrel (vrel R) (seq_index i1 i) (seq_index i2 i).
Proof.
  intros H. unfold seq_index. rewrite <- (Forall2_length _ _ _ H).
  destruct (_ && _); [|done].
  pose proof (nth_error_rel _ _ _
    (Z.to_nat (if (i <? 0)%Z then (Z.of_nat (length i1) + i)%Z else i)) H).
  by destruct (nth_error i1 _), (nth_error i2 _).
Qed.

Lemma chars_rel R s : Forall2 (vrel R) (chars s) (chars s).
Proof. induction s; simpl; constructor; done. Qed.

Lemma existsb_rel R k i1 i2 :
  Forall2 (vrel R) i1 i2 →
  existsb (fun x => match x with VStr s => String.eqb k s | _ => false end) i1
  = existsb (fun x => match x with VStr s => String.eqb k s | _ => false end) i2.
Proof.
  induction 1 as [|v1 v2 i1 i2 Hv Hi IH]; simpl; [done|].
  rewrite IH. f_equal. by vrel_cases v1 v2 Hv.
Qed.

Lemma mrel_subscript R o1 o2 k1 k2 :
  vrel R o1 o2 → vrel R k1 k2 →
  mrel vrel R (subscript o1 k1) (subscript o2 k2).
Proof.
  intros Ho Hk. vrel_cases o1 o2 Ho; simpl; try apply mrel_raise.
  - rewrite (as_index_rel _ _ _ Hk).
    destruct (as_index k2); [|apply mrel_raise].
    apply mrel_lift, seq_index_rel, chars_rel.
  - eapply mrel_bind; [by apply mrel_get_obj|].
    intros R' HR' [d1|i1] [d2|i2] Hobj; try done.
    + apply (vrel_mono _ _ _ _ HR') in Hk.
      vrel_cases k1 k2 Hk; try apply mrel_raise.
      pose proof (assoc_rel _ s _ _ Hobj).
      destruct (assoc s d1), (assoc s d2); try done;
        [by apply mrel_ret|apply mrel_raise].
    + rewrite (as_index_rel _ _ _ Hk).
      destruct (as_index k2); [|apply mrel_raise].
      by apply mrel_lift, seq_index_rel.
Qed.

Lemma mrel_getitem R m1 m2 k :
  mrel vrel R m1 m2 → mrel vrel R (getitem m1 k) (getitem m2 k).
Proof.
  intros Hm. eapply mrel_bind; [done|].
  intros R' _ ? ? ?. by apply mrel_subscript.
Qed.

Lemma mrel_getindex R m1 m2 i :
  mrel vrel R m1 m2 → mrel vrel R (getindex m1 i) (getindex m2 i).
Proof.
  intros Hm. eapply mrel_bind; [done|].
  intros R' _ ? ? ?. by apply mrel_subscript.
Qed.

Lemma mrel_contains R k o1 o2 :
  vrel R o1 o2 →
  mrel (fun _ b1 b2 => b1 = b2) R (contains k o1) (contains k o2).
Proof.
  intros Ho. vrel_cases o1 o2 Ho; simpl;
    try apply mrel_raise; try by apply mrel_ret.
  eapply mrel_bind; [by apply mrel_get_obj|].
  intros R' HR' [d1|i1] [d2|i2] Hobj; try done; apply mrel_ret.
  - by eapply has_key_rel.
  - by eapply existsb_rel.
Qed.

Lemma mrel_setitem R o1 o2 k v1 v2 :
  vrel R o1 o2 → vrel R v1 v2 →
  mrel (fun _ _ _ => True) R (setitem o1 k v1) (setitem o2 k v2).
Proof.
  intros Ho Hv. vrel_cases o1 o2 Ho; simpl; try apply mrel_raise.
  eapply mrel_bind; [by apply mrel_get_obj|].
  intros R' HR' [d1|i1] [d2|i2] Hobj; try done; [|apply mrel_raise].
  apply mrel_put_obj; [by apply HR'|].
  apply set_rel; [by eapply vrel_mono|done].
Qed.

Lemma mrel_pop R o1 o2 k :
  vrel R o1 o2 → mrel vrel R (pop o1 k) (pop o2 k).
Proof.
  intros Ho. vrel_cases o1 o2 Ho; simpl; try apply mrel_raise.
  eapply mrel_bind; [by apply mrel_get_obj|].
  intros R' HR' [d1|i1] [d2|i2] Hobj; try done; [|apply mrel_raise].
  pose proof (assoc_rel _ k _ _ Hobj).
  destruct (assoc k d1), (assoc k d2); try done; [|apply mrel_raise].
  eapply mrel_bind; [apply mrel_put_obj; [by apply HR'|by apply remove_rel]|].
  intros R'' HR'' _ _ _. apply mrel_ret. by eapply vrel_mono.
Qed.

Lemma mrel_pop_default R o1 o2 k d1 d2 :
  vrel R o1 o2 → vrel R d1 d2 →
  mrel vrel R (pop_default o1 k d1) (pop_default o2 k d2).
Proof.
  intros Ho Hd. vrel_cases o1 o2 Ho; simpl; try apply mrel_raise.
  eapply mrel_bind; [by apply mrel_get_obj|].
  intros R' HR' [f1|i1] [f2|i2] Hobj; try done; [|apply mrel_raise].
  pose proof (assoc_rel _ k _ _ Hobj).
  destruct (assoc k f1), (assoc k f2); try done;
    [|apply mrel_ret; by eapply vrel_mono].
  eapply mrel_bind; [apply mrel_put_obj; [by apply HR'|by apply remove_rel]|].
  intros R'' HR'' _ _ _. apply mrel_ret. by eapply vrel_mono.
Qed.

Lemma mrel_check_unchanged R l1 l2 ks :
  R l1 l2 →
  mrel (fun _ _ _ => True) R (check_unchanged l1 ks) (check_unchanged l2 ks).
Proof.
  intros Hl. eapply mrel_bind; [by apply mrel_get_obj|].
  intros R' HR' [d1|i1] [d2|i2] Hobj; try done; [|by apply mrel_ret].
  rewrite (keys_rel _ _ _ Hobj).
  destruct (same_keys _ _); [by apply mrel_ret|apply mrel_raise].
Qed.

Lemma mrel_for_each R o1 o2 body1 body2 :
  vrel R o1 o2 →
  (∀ R', sub R R' → ∀ x1 x2, vrel R' x1 x2 →
         mrel (fun _ _ _ => True) R' (body1 x1) (body2 x2)) →
  mrel (fun _ _ _ => True) R (for_each o1 body1) (for_each o2 body2).
Proof.
  intros Ho Hbody. vrel_cases o1 o2 Ho; simpl; try apply mrel_raise.
  - apply (mrel_forM vrel); [intros; by eapply vrel_mono|apply chars_rel|done].
  - eapply mrel_bind; [by apply mrel_get_obj|].
    intros R' HR' [d1|i1] [d2|i2] Hobj; try done.
    + rewrite (keys_rel _ _ _ Hobj).
      apply (mrel_forM (fun _ k1 k2 => k1 = k2)); [done| |].
      { clear. induction (keys d2); by constructor. }
      intros R'' HR'' k ? <-.
      eapply mrel_bind.
      { apply Hbody; [by eapply sub_trans|done]. }
      intros R3 HR3 _ _ _. apply mrel_check_unchanged.
      by apply HR3, HR'', HR'.
    + apply (mrel_forM vrel); [intros; by eapply vrel_mono|done|].
      intros R'' HR'' x1 x2 Hx. apply Hbody; [by eapply sub_trans|done].
Qed.

(** Facts stated for paired stores are carried to any larger pairing. *)
Ltac lift :=
  repeat match goal with
         | HR : sub ?R ?R', H : vrel ?R _ _ |- _ =>
             apply (vrel_mono R R' _ _ HR) in H
         | HR : sub ?R ?R', H : memo_rel ?R _ _ |- _ =>
             apply (memo_rel_mono R R' _ _ HR) in H
         | HR : sub ?R ?R', H : ?R _ _ |- _ => apply HR in H
         end.

Lemma mrel_list_append R y1 y2 v1 v2 :
  R y1 y2 → vrel R v1 v2 →
  mrel (fun _ _ _ => True) R (list_append y1 v1) (list_append y2 v2).
Proof.
  intros Hy Hv. eapply mrel_bind; [by apply mrel_get_obj|].
  intros R' HR' [d1|i1] [d2|i2] Hobj; try done; [apply mrel_raise|]. lift.
  apply mrel_put_obj; [done|]. simpl in *.
  apply Forall2_app; [done|]. by constructor.
Qed.

Lemma mrel_dict_set R y1 y2 k v1 v2 :
  R y1 y2 → vrel R v1 v2 →
  mrel (fun _ _ _ => True) R (dict_set y1 k v1) (dict_set y2 k v2).
Proof.
  intros Hy Hv. eapply mrel_bind; [by apply mrel_get_obj|].
  intros R' HR' [d1|i1] [d2|i2] Hobj; try done; [|apply mrel_raise]. lift.
  apply mrel_put_obj; [done|]. by apply set_rel.
Qed.

Lemma mrel_copy_items copy1 copy2 :
  (∀ R a1 a2 memo1 memo2, vrel R a1 a2 → memo_rel R memo1 memo2 →
     mrel copy_rel R (copy1 a1 memo1) (copy2 a2 memo2)) →
  ∀ items1 items2 R y1 y2 memo1 memo2,
    Forall2 (vrel R) items1 items2 → R y1 y2 → memo_rel R memo1 memo2 →
    mrel memo_rel R (copy_items copy1 y1 items1 memo1)
                    (copy_items copy2 y2 items2 memo2).
Proof.
  intros Hcopy items1.
  induction items1 as [|a1 items1 IH];
    intros items2 R y1 y2 memo1 memo2 Hitems Hy Hm;
    inversion Hitems as [|? a2 ? items2' Ha Hitems']; subst; simpl.
  - by apply mrel_ret.
  - eapply mrel_bind; [by apply Hcopy|].
    intros R' HR' r1 r2 [Hr Hm']. lift.
    eapply mrel_bind; [by apply mrel_list_append|].
    intros R'' HR'' _ _ _. lift. apply IH; try done.
    eapply Forall2_impl; [done|]. intros ? ? ?.
    eapply vrel_mono; [|done]. by eapply sub_trans.
Qed.

Lemma mrel_copy_fields copy1 copy2 :
  (∀ R a1 a2 memo1 memo2, vrel R a1 a2 → memo_rel R memo1 memo2 →
     mrel copy_rel R (copy1 a1 memo1) (copy2 a2 memo2)) →
  ∀ fields1 fields2 R y1 y2 memo1 memo2,
    orel R (ODict fields1) (ODict fields2) → R y1 y2 →
    memo_rel R memo1 memo2 →
    mrel memo_rel R (copy_fields copy1 y1 fields1 memo1)
                    (copy_fields copy2 y2 fields2 memo2).
Proof.
  intros Hcopy fields1.
  induction fields1 as [|[k1 a1] fields1 IH];
    intros fields2 R y1 y2 memo1 memo2 Hfields Hy Hm;
    inversion Hfields as [|? [k2 a2] ? fields2' [Hk Ha] Hfields']; subst;
    simpl in *.
  - by apply mrel_ret.
  - subst k2. eapply mrel_bind; [by apply Hcopy|].
    intros R' HR' r1 r2 [Hr Hm']. lift.
    eapply mrel_bind; [by apply mrel_dict_set|].
    intros R'' HR'' _ _ _. lift. apply IH; try done.
    eapply Forall2_impl; [done|]. intros ? ? [? ?]. split; [done|].
    eapply vrel_mono; [|done]. by eapply sub_trans.
Qed.

Lemma memo_get_rel R l1 l2 memo1 memo2 :
  (∀ l1 l2 l2', R l1 l2 → R l1 l2' → l2 = l2') →
  (∀ l1 l1' l2, R l1 l2 → R l1' l2 → l1 = l1') →
  R l1 l2 → memo_rel R memo1 memo2 →
  match memo_get l1 memo1, memo_get l2 memo2 with
  | Some y1, Some y2 => R y1 y2
  | None, None => True
  | _, _ => False
  end.
Proof.
  intros Hf Hi Hl.
  induction 1 as [|[k1 y1] [k2 y2] memo1 memo2 [Hk Hy] Hm IH]; simpl; [done|].
  simpl in Hk, Hy.
  destruct (Nat.eqb l1 k1) eqn:E1, (Nat.eqb l2 k2) eqn:E2; try done.
  - apply Nat.eqb_eq in E1. apply Nat.eqb_neq in E2. subst k1.
    destruct E2. by eapply Hf.
  - apply Nat.eqb_neq in E1. apply Nat.eqb_eq in E2. subst k2.
    destruct E1. by eapply Hi.
Qed.

Lemma mrel_deepcopy_memo fuel :
  ∀ R x1 x2 memo1 memo2,
    vrel R x1 x2 → memo_rel R memo1 memo2 →
    mrel copy_rel R (deepcopy_memo fuel x1 memo1) (deepcopy_memo fuel x2 memo2).
Proof.
  induction fuel as [|fuel IH]; intros R x1 x2 memo1 memo2 Hx Hm;
    (vrel_cases x1 x2 Hx; simpl; try by apply mrel_ret);
    intros h1 h2 Hh;
    (pose proof (memo_get_rel R l l0 memo1 memo2
                   (proj1 Hh) (proj1 (proj2 Hh)) Hx Hm) as Hget;
     destruct (memo_get l memo1) as [y1|], (memo_get l0 memo2) as [y2|];
     try done; [by apply mrel_ret|]).
  - by apply mrel_raise.
  - revert h1 h2 Hh.
    eapply mrel_bind; [by apply mrel_get_obj|].
    intros R' HR' [d1|i1] [d2|i2] Hobj; try done; lift.
    + eapply mrel_bind; [apply mrel_alloc_loc; constructor|].
      intros R'' HR'' y1 y2 Hy. lift.
      eapply mrel_bind.
      { apply mrel_copy_fields; try done.
        - by eapply orel_mono.
        - constructor; done. }
      intros R3 HR3 m1 m2 Hm3. lift. by apply mrel_ret.
    + eapply mrel_bind; [apply mrel_alloc_loc; constructor|].
      intros R'' HR'' y1 y2 Hy. lift.
      eapply mrel_bind.
      { apply mrel_copy_items; try done.
        - eapply Forall2_impl; [done|]. intros ? ? ?. by eapply vrel_mono.
        - constructor; done. }
      intros R3 HR3 m1 m2 Hm3. lift. by apply mrel_ret.
Qed.

(** ** The three functions on paired stores *)

Lemma mrel_is_allOf_enum R v1 v2 :
  vrel R v1 v2 →
  mrel (fun _ b1 b2 => b1 = b2) R (is_allOf_enum v1) (is_allOf_enum v2).
Proof.
  intros Hv. eapply mrel_bind; [by apply mrel_contains|].
  intros R' HR' b ? <-. lift. destruct b; [|by apply mrel_ret].
  eapply mrel_bind; [apply mrel_getindex, mrel_getitem; by apply mrel_ret|].
  intros R'' HR'' f1 f2 Hf. by apply mrel_contains.
Qed.

Lemma mrel_hoist_enum R format1 format2 key1 key2 :
  vrel R format1 format2 → vrel R key1 key2 →
  mrel (fun _ _ _ => True) R (hoist_enum format1 key1) (hoist_enum format2 key2).
Proof.
  intros Hf Hk. eapply mrel_bind; [apply mrel_getitem; by apply mrel_ret|].
  intros R1 HR1 p1 p2 Hp. lift.
  eapply mrel_bind; [by apply mrel_subscript|].
  intros R2 HR2 op1 op2 Hop. lift.
  eapply mrel_bind; [by apply mrel_is_allOf_enum|].
  intros R3 HR3 b ? <-. lift. destruct b; [|by apply mrel_ret].
  eapply mrel_bind.
  { apply mrel_getitem, mrel_getindex, mrel_getitem. by apply mrel_ret. }
  intros R4 HR4 e1 e2 He. lift.
  eapply mrel_bind; [by apply mrel_setitem|].
  intros R5 HR5 _ _ _. lift.
  eapply mrel_bind; [by apply mrel_pop|].
  intros R6 HR6 _ _ _. by apply mrel_ret.
Qed.

Lemma mrel_hoist_enums_of_format R format1 format2 :
  vrel R format1 format2 →
  mrel (fun _ _ _ => True) R (hoist_enums_of_format format1)
                             (hoist_enums_of_format format2).
Proof.
  intros Hf. eapply mrel_bind; [apply mrel_getitem; by apply mrel_ret|].
  intros R1 HR1 p1 p2 Hp. lift.
  apply mrel_for_each; [done|].
  intros R2 HR2 k1 k2 Hk. lift. by apply mrel_hoist_enum.
Qed.

Lemma mrel_stream_properties R s1 s2 :
  vrel R s1 s2 → mrel vrel R (stream_properties s1) (stream_properties s2).
Proof.
  intros Hs. unfold stream_properties.
  repeat apply mrel_getitem. by apply mrel_ret.
Qed.

Lemma mrel_rewrite_format_union R v1 v2 :
  vrel R v1 v2 →
  mrel (fun _ _ _ => True) R (rewrite_format_union v1) (rewrite_format_union v2).
Proof.
  intros Hv. eapply mrel_bind; [apply mrel_getitem; by apply mrel_ret|].
  intros R1 HR1 a1 a2 Ha. lift.
  eapply mrel_bind with (QA := fun _ _ _ => True).
  { vrel_cases a1 a2 Ha; try apply mrel_raise; by apply mrel_ret. }
  intros R1' HR1' _ _ _. lift.
  eapply mrel_bind; [apply mrel_alloc; by constructor|].
  intros R2 HR2 d1 d2 Hd. lift.
  eapply mrel_bind; [by apply mrel_pop_default|].
  intros R3 HR3 any1 any2 Hany. lift.
  eapply mrel_bind; [apply mrel_getitem; by apply mrel_ret|].
  intros R4 HR4 b1 b2 Hb. lift.
  eapply mrel_bind; [by apply mrel_setitem|].
  intros R5 HR5 _ _ _. lift.
  eapply mrel_bind; [do 2 apply mrel_getitem; by apply mrel_ret|].
  intros R6 HR6 f1 f2 Hfs. lift.
  apply mrel_for_each; [done|].
  intros R7 HR7 x1 x2 Hx. by apply mrel_hoist_enums_of_format.
Qed.

Lemma mrel_anyOf_to_oneOf R s1 s2 name :
  vrel R s1 s2 →
  mrel (fun _ _ _ => True) R (anyOf_to_oneOf s1 name) (anyOf_to_oneOf s2 name).
Proof.
  intros Hs.
  eapply mrel_bind; [by apply mrel_getitem, mrel_stream_properties|].
  intros R1 HR1 n1 n2 Hn. lift.
  eapply mrel_bind; [by apply mrel_pop|].
  intros R2 HR2 a1 a2 Ha. lift.
  eapply mrel_bind; [by apply mrel_getitem, mrel_stream_properties|].
  intros R3 HR3 m1 m2 Hm. lift. by apply mrel_setitem.
Qed.

Lemma mrel_replace_enum_allOf_and_anyOf R s1 s2 :
  vrel R s1 s2 →
  mrel vrel R (replace_enum_allOf_and_anyOf s1)
              (replace_enum_allOf_and_anyOf s2).
Proof.
  intros Hs.
  eapply mrel_bind; [by apply mrel_getitem, mrel_stream_properties|].
  intros R1 HR1 o1 o2 Ho. lift.
  eapply mrel_bind; [by apply mrel_contains|].
  intros R2 HR2 b ? <-. lift.
  eapply mrel_bind with (QA := fun _ _ _ => True).
  { destruct b; [by apply mrel_rewrite_format_union|by apply mrel_ret]. }
  intros R3 HR3 _ _ _. lift.
  eapply mrel_bind.
  { apply (mrel_forM (fun _ k1 k2 => k1 = k2)); [done| |].
    - repeat constructor.
    - intros R4 HR4 k ? <-. lift. by apply mrel_anyOf_to_oneOf. }
  intros R5 HR5 _ _ _. lift. by apply mrel_ret.
Qed.

Lemma mrel_add_legacy_format R s1 s2 :
  vrel R s1 s2 →
  mrel vrel R (add_legacy_format s1) (add_legacy_format s2).
Proof.
  intros Hs. unfold add_legacy_format.
  eapply mrel_bind; [apply mrel_alloc; by repeat constructor|].
  intros R1 HR1 req1 req2 Hreq. lift.
  eapply mrel_bind; [apply mrel_alloc; by repeat constructor|].
  intros R2 HR2 ft1 ft2 Hft. lift.
  eapply mrel_bind; [apply mrel_alloc; by repeat constructor|].
  intros R3 HR3 p1 p2 Hp. lift.
  eapply mrel_bind; [apply mrel_alloc; by repeat constructor|].
  intros R4 HR4 l1 l2 Hl. lift.
  eapply mrel_bind; [by apply mrel_getitem, mrel_stream_properties|].
  intros R5 HR5 c1 c2 Hc. lift.
  eapply mrel_bind; [apply mrel_alloc; by repeat constructor|].
  intros R6 HR6 m1 m2 Hm. lift.
  eapply mrel_bind; [apply mrel_alloc; by repeat constructor|].
  intros R7 HR7 u1 u2 Hu. lift.
  eapply mrel_bind; [by apply mrel_stream_properties|].
  intros R8 HR8 q1 q2 Hq. lift.
  eapply mrel_bind; [by apply mrel_setitem|].
  intros R9 HR9 _ _ _. lift. by apply mrel_ret.
Qed.

(** * [deepcopy] returns *)

Lemma M_bind_ok {A B} (m : M A) (f : A → M B) h b h' :
  (m ≫= f) h = (Ok b, h') ↔ ∃ a h1, m h = (Ok a, h1) ∧ f a h1 = (Ok b, h').
Proof.
  unfold mbind, M_bind. destruct (m h) as [[a|e] h1]; split.
  - eauto.
  - by intros (? & ? & [= <- <-] & ?).
  - done.
  - by intros (? & ? & ? & ?).
Qed.

Lemma M_bind_run {A B} (m : M A) (f : A → M B) h a h' :
  m h = (Ok a, h') → (m ≫= f) h = f a h'.
Proof. intros H. unfold mbind, M_bind. by rewrite H. Qed.

(** More fuel does not change a copy that was completed. *)
Lemma copy_items_more copy1 copy2 y :
  (∀ a memo h r h', copy1 a memo h = (Ok r, h') → copy2 a memo h = (Ok r, h')) →
  ∀ items memo h r h',
    copy_items copy1 y items memo h = (Ok r, h') →
    copy_items copy2 y items memo h = (Ok r, h').
Proof.
  intros Hc. induction items as [|a items IH]; intros memo h r h'; simpl; [done|].
  intros (r1 & h1 & H1 & H)%M_bind_ok.
  apply M_bind_ok in H as ([] & h2 & H2 & H).
  apply M_bind_ok. exists r1, h1. split; [by apply Hc|].
  apply M_bind_ok. exists tt, h2. split; [done|]. by apply IH.
Qed.

Lemma copy_fields_more copy1 copy2 y :
  (∀ a memo h r h', copy1 a memo h = (Ok r, h') → copy2 a memo h = (Ok r, h')) →
  ∀ fields memo h r h',
    copy_fields copy1 y fields memo h = (Ok r, h') →
    copy_fields copy2 y fields memo h = (Ok r, h').
Proof.
  intros Hc. induction fields as [|[k a] fields IH]; intros memo h r h'; simpl;
    [done|].
  intros (r1 & h1 & H1 & H)%M_bind_ok.
  apply M_bind_ok in H as ([] & h2 & H2 & H).
  apply M_bind_ok. exists r1, h1. split; [by apply Hc|].
  apply M_bind_ok. exists tt, h2. split; [done|]. by apply IH.
Qed.

Lemma deepcopy_memo_S fuel :
  ∀ x memo h r h',
    deepcopy_memo fuel x memo h = (Ok r, h') →
    deepcopy_memo (S fuel) x memo h = (Ok r, h').
Proof.
  induction fuel as [|fuel IH]; intros x memo h r h';
    (destruct x as [| | | |l]; [done..|]);
    simpl; (destruct (memo_get l memo); [done|]); [done|].
  intros (obj & h1 & H1 & H)%M_bind_ok.
  apply M_bind_ok. exists obj, h1. split; [done|].
  destruct obj as [fields|items].
  - apply M_bind_ok in H as (y & h2 & H2 & H).
    apply M_bind_ok in H as (m & h3 & H3 & H).
    apply M_bind_ok. exists y, h2. split; [done|].
    apply M_bind_ok. exists m, h3. split; [|done].
    eapply copy_fields_more; [|done]. apply IH.
  - apply M_bind_ok in H as (y & h2 & H2 & H).
    apply M_bind_ok in H as (m & h3 & H3 & H).
    apply M_bind_ok. exists y, h2. split; [done|].
    apply M_bind_ok. exists m, h3. split; [|done].
    eapply copy_items_more; [|done]. apply IH.
Qed.

Lemma deepcopy_memo_more fuel fuel' x memo h r h' :
  fuel ≤ fuel' →
  deepcopy_memo fuel x memo h = (Ok r, h') →
  deepcopy_memo fuel' x memo h = (Ok r, h').
Proof.
  induction 1 as [|fuel' Hle IH]; [done|]. intros Hc.
  by apply deepcopy_memo_S, IH.
Qed.

Lemma memo_ext_refl memo : memo_ext memo memo.
Proof. by intros ? ?. Qed.

Lemma memo_ext_trans m1 m2 m3 :
  memo_ext m1 m2 → memo_ext m2 m3 → memo_ext m1 m3.
Proof. intros H1 H2 ? ? ?. by apply H2, H1. Qed.

Lemma memo_ext_cons l y memo :
  memo_get l memo = None → memo_ext memo ((l, y) :: memo).
Proof.
  intros Hl l' y' H. simpl. destruct (Nat.eqb l' l) eqn:E; [|done].
  apply Nat.eqb_eq in E. congruence.
Qed.

Lemma unmemoized_ext n memo memo' :
  memo_ext memo memo' → unmemoized n memo' ≤ unmemoized n memo.
Proof.
  intros Hext. induction n as [|n IH]; simpl; [done|].
  destruct (memo_get n memo) as [y|] eqn:E.
  - by rewrite (Hext _ _ E).
  - destruct (memo_get n memo'); lia.
Qed.

Lemma unmemoized_cons n l y memo :
  l < n → memo_get l memo = None →
  S (unmemoized n ((l, y) :: memo)) ≤ unmemoized n memo.
Proof.
  intros Hl Hnone. induction n as [|n IH]; [lia|].
  cbn [unmemoized memo_get].
  destruct (Nat.eqb n l) eqn:E.
  - apply Nat.eqb_eq in E. subst n. rewrite Hnone.
    pose proof (unmemoized_ext l memo ((l, y) :: memo)
                  (memo_ext_cons l y memo Hnone)). lia.
  - apply Nat.eqb_neq in E. assert (l < n) by lia.
    destruct (memo_get n memo); lia.
Qed.

Lemma get_obj_ok l h o : h !! l = Some o → get_obj l h = (Ok o, h).
Proof. intros H. unfold get_obj. by rewrite H. Qed.

Lemma list_append_ok y v h acc :
  h !! y = Some (OList acc) →
  list_append y v h = (Ok tt, <[y := OList (acc ++ [v])]> h).
Proof.
  intros H. unfold list_append. apply M_bind_ok.
  exists (OList acc), h. split; [by apply get_obj_ok|done].
Qed.

Lemma dict_set_ok y k v h acc :
  h !! y = Some (ODict acc) →
  dict_set y k v h = (Ok tt, <[y := ODict (alist_set k v acc)]> h).
Proof.
  intros H. unfold dict_set. apply M_bind_ok.
  exists (ODict acc), h. split; [by apply get_obj_ok|done].
Qed.

Section DeepcopyReturns.
Variable h0 : heap.
Hypothesis h0_wf : heap_wf h0 = true.

Lemma copy_items_total copy fuel y :
  copies_well h0 fuel copy → length h0 ≤ y →
  ∀ items memo h acc,
    Forall (fun v => value_in (length h0) v = true) items →
    unmemoized (length h0) memo ≤ fuel →
    (∀ l, l < length h0 → h !! l = h0 !! l) →
    h !! y = Some (OList acc) →
    ∃ memo' h',
      copy_items copy y items memo h = (Ok memo', h')
      ∧ memo_ext memo memo'
      ∧ (∀ l, l < length h → l ≠ y → h' !! l = h !! l)
      ∧ length h ≤ length h'.
Proof.
  intros Hcopy Hy. induction items as [|a items IH];
    intros memo h acc Hitems Hu Hframe Hacc; simpl.
  - exists memo, h. split; [done|]. split; [apply memo_ext_refl|done].
  - apply Forall_cons in Hitems as [Ha Hitems].
    pose proof (lookup_lt_Some _ _ _ Hacc) as Hylt.
    destruct (Hcopy a memo h Ha Hu Hframe) as (r & h1 & Hr & Hext & Hold & Hlen);
      [lia|].
    assert (Hacc1 : h1 !! y = Some (OList acc)) by (by rewrite Hold).
    destruct (IH (snd r) (<[y := OList (acc ++ [fst r])]> h1) (acc ++ [fst r]))
      as (memo' & h' & Hrest & Hext' & Hold' & Hlen'); [done| | | |].
    + pose proof (unmemoized_ext (length h0) _ _ Hext). lia.
    + intros l Hl. rewrite list_lookup_insert_ne by lia.
      rewrite Hold by lia. by apply Hframe.
    + apply list_lookup_insert_eq. lia.
    + exists memo', h'. split; [|split; [|split]].
      * apply M_bind_ok. exists r, h1. split; [done|].
        apply M_bind_ok. eexists tt, _. split; [by apply list_append_ok|done].
      * by eapply memo_ext_trans.
      * intros l Hl Hne. rewrite Hold' by (rewrite ?length_insert; lia).
        rewrite list_lookup_insert_ne by done. by apply Hold.
      * rewrite length_insert in Hlen'. lia.
Qed.

Lemma copy_fields_total copy fuel y :
  copies_well h0 fuel copy → length h0 ≤ y →
  ∀ fields memo h acc,
    Forall (fun v => value_in (length h0) v = true) (map snd fields) →
    unmemoized (length h0) memo ≤ fuel →
    (∀ l, l < length h0 → h !! l = h0 !! l) →
    h !! y = Some (ODict acc) →
    ∃ memo' h',
      copy_fields copy y fields memo h = (Ok memo', h')
      ∧ memo_ext memo memo'
      ∧ (∀ l, l < length h → l ≠ y → h' !! l = h !! l)
      ∧ length h ≤ length h'.
Proof.
  intros Hcopy Hy. induction fields as [|[k a] fields IH];
    intros memo h acc Hfields Hu Hframe Hacc; simpl.
  - exists memo, h. split; [done|]. split; [apply memo_ext_refl|done].
  - simpl in Hfields. apply Forall_cons in Hfields as [Ha Hfields].
    pose proof (lookup_lt_Some _ _ _ Hacc) as Hylt.
    destruct (Hcopy a memo h Ha Hu Hframe) as (r & h1 & Hr & Hext & Hold & Hlen);
      [lia|].
    assert (Hacc1 : h1 !! y = Some (ODict acc)) by (by rewrite Hold).
    destruct (IH (snd r) (<[y := ODict (alist_set k (fst r) acc)]> h1)
                 (alist_set k (fst r) acc))
      as (memo' & h' & Hrest & Hext' & Hold' & Hlen'); [done| | | |].
    + pose proof (unmemoized_ext (length h0) _ _ Hext). lia.
    + intros l Hl. rewrite list_lookup_insert_ne by lia.
      rewrite Hold by lia. by apply Hframe.
    + apply list_lookup_insert_eq. lia.
    + exists memo', h'. split; [|split; [|split]].
      * apply M_bind_ok. exists r, h1. split; [done|].
        apply M_bind_ok. eexists tt, _. split; [by apply dict_set_ok|done].
      * by eapply memo_ext_trans.
      * intros l Hl Hne. rewrite Hold' by (rewrite ?length_insert; lia).
        rewrite list_lookup_insert_ne by done. by apply Hold.
      * rewrite length_insert in Hlen'. lia.
Qed.

(** With as much fuel as there are objects outside the memo, the copy of
    a value of a well-formed store returns. *)
Lemma deepcopy_memo_total fuel : copies_well h0 fuel (deepcopy_memo fuel).
Proof.
  induction fuel as [|fuel IH]; intros a memo h Ha Hu Hframe Hlen;
    (destruct a as [| | | |l];
     try (eexists (_, memo), h; simpl;
          split; [done|]; split; [apply memo_ext_refl|done]));
    simpl in Ha; apply Nat.ltb_lt in Ha; simpl;
    (destruct (memo_get l memo) as [y|] eqn:Hget;
     [eexists (_, memo), h; simpl;
      split; [done|]; split; [apply memo_ext_refl|done]|]);
    pose proof (unmemoized_cons _ l (length h) memo Ha Hget) as Hcount;
    [lia|].
  destruct (lookup_lt_is_Some_2 h0 l Ha) as [obj Hobj].
  pose proof (heap_wf_lookup _ _ _ h0_wf Hobj) as Hvals.
  assert (Hobj' : h !! l = Some obj) by (by rewrite Hframe).
  assert (Hframe1 : ∀ o l', l' < length h0 → (h ++ [o]) !! l' = h0 !! l').
  { intros o l' Hl'. rewrite lookup_app_l by lia. by apply Hframe. }
  assert (Hy : ∀ o : object, (h ++ [o]) !! length h = Some o).
  { intros o. rewrite lookup_app_r by done. by rewrite Nat.sub_diag. }
  destruct obj as [fields|items]; simpl in Hvals.
  - destruct (copy_fields_total _ fuel (length h) IH Hlen fields
                ((l, length h) :: memo) (h ++ [ODict []]) [])
      as (memo' & h' & Hrun & Hext & Hold & Hlen');
      [exact Hvals|lia|apply Hframe1|apply Hy|].
    exists (VRef (length h), memo'), h'. split; [|split; [|split]].
    + apply M_bind_ok. exists (ODict fields), h.
      split; [by apply get_obj_ok|].
      apply M_bind_ok. exists (length h), (h ++ [ODict []]). split; [done|].
      apply M_bind_ok. exists memo', h'. done.
    + eapply memo_ext_trans; [by apply memo_ext_cons|done].
    + intros l' Hl'. rewrite Hold by (rewrite ?length_app; simpl; lia).
      by rewrite lookup_app_l.
    + rewrite length_app in Hlen'. simpl in Hlen'. lia.
  - destruct (copy_items_total _ fuel (length h) IH Hlen items
                ((l, length h) :: memo) (h ++ [OList []]) [])
      as (memo' & h' & Hrun & Hext & Hold & Hlen');
      [exact Hvals|lia|apply Hframe1|apply Hy|].
    exists (VRef (length h), memo'), h'. split; [|split; [|split]].
    + apply M_bind_ok. exists (OList items), h.
      split; [by apply get_obj_ok|].
      apply M_bind_ok. exists (length h), (h ++ [OList []]). split; [done|].
      apply M_bind_ok. exists memo', h'. done.
    + eapply memo_ext_trans; [by apply memo_ext_cons|done].
    + intros l' Hl'. rewrite Hold by (rewrite ?length_app; simpl; lia).
      by rewrite lookup_app_l.
    + rewrite length_app in Hlen'. simpl in Hlen'. lia.
Qed.

Lemma unmemoized_nil n : unmemoized n [] = n.
Proof. induction n; simpl; congruence. Qed.

(** [copy.deepcopy] of a value of a well-formed store returns, and on any
    later store that still has those objects it is the copy made with
    the fuel of the original store. *)
Lemma deepcopy_returns x h :
  value_in (length h0) x = true →
  (∀ l, l < length h0 → h !! l = h0 !! l) →
  length h0 ≤ length h →
  ∃ r h', deepcopy_memo (S (length h0)) x [] h = (Ok r, h')
          ∧ deepcopy x h = (Ok (fst r), h').
Proof.
  intros Hx Hframe Hlen.
  destruct (deepcopy_memo_total (S (length h0)) x [] h)
    as (r & h' & Hrun & _); try done.
  { rewrite unmemoized_nil. lia. }
  exists r, h'. split; [done|].
  unfold deepcopy. apply M_bind_ok. exists r, h'. split; [|done].
  eapply deepcopy_memo_more; [|done]. lia.
Qed.
End DeepcopyReturns.

(** * Two calls of [schema] on the same raw tree *)

(** Paired values unfold to the same tree. *)
Lemma reify_rel R h1 h2 :
  hrel R h1 h2 →
  ∀ fuel v1 v2, vrel R v1 v2 → reify fuel h1 v1 = reify fuel h2 v2.
Proof.
  intros (_ & _ & Hobj). induction fuel as [|fuel IH]; intros v1 v2 Hv;
    vrel_cases v1 v2 Hv; simpl; try done.
  destruct (Hobj _ _ Hv) as (o1 & o2 & -> & -> & Ho).
  destruct o1 as [d1|i1], o2 as [d2|i2]; try done; simpl in Ho; f_equal.
  - induction Ho as [|[k1 a1] [k2 a2] d1 d2 [Hk Ha] Hd IHd]; [done|].
    simpl in Hk, Ha. subst k2. by rewrite (IH _ _ Ha), IHd.
  - induction Ho as [|a1 a2 i1 i2 Ha Hi IHi]; [done|].
    by rewrite (IH _ _ Ha), IHi.
Qed.

(** A paired value unfolds to the same tree in any store that has the
    objects of its store as they are. *)
Lemma reify_later R h1 h2 h' :
  hrel R h1 h2 → (∀ l, l < length h1 → h' !! l = h1 !! l) →
  ∀ fuel v1 v2, vrel R v1 v2 → reify fuel h' v1 = reify fuel h1 v1.
Proof.
  intros (_ & _ & Hobj) Hold. induction fuel as [|fuel IH]; intros v1 v2 Hv;
    vrel_cases v1 v2 Hv; simpl; try done.
  destruct (Hobj _ _ Hv) as (o1 & o2 & H1 & H2 & Ho).
  rewrite Hold by (by eapply lookup_lt_Some). rewrite H1.
  destruct o1 as [d1|i1], o2 as [d2|i2]; try done; simpl in Ho; f_equal.
  - clear H1 H2. induction Ho as [|[k1 a1] [k2 a2] d1 d2 [Hk Ha] Hd IHd];
      [done|].
    simpl in Ha. by rewrite (IH _ _ Ha), IHd.
  - clear H1 H2. induction Ho as [|a1 a2 i1 i2 Ha Hi IHi]; [done|].
    by rewrite (IH _ _ Ha), IHi.
Qed.

(** A well-formed store is paired, object for object, with any store
    that still has its objects. *)
Lemma hrel_old h h1 :
  heap_wf h = true → (∀ l, l < length h → h1 !! l = h !! l) →
  hrel (fun a b => a = b ∧ a < length h) h h1.
Proof.
  intros Hwf Hold. split; [|split].
  - by intros ? ? ? [<- _] [<- _].
  - by intros ? ? ? [-> _] [-> _].
  - intros l ? [<- Hl]. destruct (lookup_lt_is_Some_2 h l Hl) as [o Ho].
    exists o, o. rewrite Hold by done. split; [done|]. split; [done|].
    pose proof (heap_wf_lookup _ _ _ Hwf Ho) as Hvals.
    assert (Hv : ∀ v, value_in (length h) v = true →
                      vrel (fun a b => a = b ∧ a < length h) v v).
    { intros [| | | |a] Ha; simpl; try done. by apply Nat.ltb_lt in Ha. }
    clear Ho. destruct o as [d|i]; simpl in *.
    + induction d as [|[k a] d IH]; [constructor|].
      simpl in Hvals. apply Forall_cons in Hvals as [Ha Hd].
      constructor; [|by apply IH]. split; [done|]. by apply Hv.
    + induction i as [|a i IH]; [constructor|].
      apply Forall_cons in Hvals as [Ha Hi].
      constructor; [by apply Hv|by apply IH].
Qed.

Section SchemaTwice.
(** [expand_refs] receives the copy and nothing else, and does not depend
    on which objects of the store make up the tree it is given. *)
Variable expand_refs : value → M unit.
Hypothesis expand_refs_local :
  ∀ h0 v, value_ge (length h0) v → safe h0 (expand_refs v) (fun _ => True).
Hypothesis expand_refs_rel :
  ∀ R v1 v2, vrel R v1 v2 →
             mrel (fun _ _ _ => True) R (expand_refs v1) (expand_refs v2).

Lemma mrel_schema_fueled R fuel raw1 raw2 :
  vrel R raw1 raw2 →
  mrel vrel R
    (transformed_schema ← (r ← deepcopy_memo fuel raw1 []; ret (fst r));
     _ ← expand_refs transformed_schema;
     _ ← replace_enum_allOf_and_anyOf transformed_schema;
     _ ← add_legacy_format transformed_schema;
     ret transformed_schema)
    (transformed_schema ← (r ← deepcopy_memo fuel raw2 []; ret (fst r));
     _ ← expand_refs transformed_schema;
     _ ← replace_enum_allOf_and_anyOf transformed_schema;
     _ ← add_legacy_format transformed_schema;
     ret transformed_schema).
Proof.
  intros Hraw. eapply mrel_bind.
  { eapply mrel_bind; [apply mrel_deepcopy_memo; [done|constructor]|].
    intros R1 HR1 r1 r2 [Hr _]. by apply mrel_ret. }
  intros R1 HR1 c1 c2 Hc. lift.
  eapply mrel_bind; [by apply expand_refs_rel|].
  intros R2 HR2 _ _ _. lift.
  eapply mrel_bind; [by apply mrel_replace_enum_allOf_and_anyOf|].
  intros R3 HR3 _ _ _. lift.
  eapply mrel_bind; [by apply mrel_add_legacy_format|].
  intros R4 HR4 _ _ _. lift. by apply mrel_ret.
Qed.

Lemma schema_fueled h0 raw h :
  heap_wf h0 = true → value_in (length h0) raw = true →
  (∀ l, l < length h0 → h !! l = h0 !! l) → length h0 ≤ length h →
  schema expand_refs raw h
  = (transformed_schema ← (r ← deepcopy_memo (S (length h0)) raw [];
                           ret (fst r));
     _ ← expand_refs transformed_schema;
     _ ← replace_enum_allOf_and_anyOf transformed_schema;
     _ ← add_legacy_format transformed_schema;
     ret transformed_schema) h.
Proof.
  intros Hwf Hraw Hold Hlen.
  destruct (deepcopy_returns h0 Hwf raw h Hraw Hold Hlen)
    as (r & h' & Hm & Hd).
  assert (Hi : (r ← deepcopy_memo (S (length h0)) raw []; ret (fst r)) h
               = (Ok (fst r), h'))
    by (by rewrite (M_bind_run _ _ _ _ _ Hm)).
  unfold schema.
  rewrite (M_bind_run _ _ _ _ _ Hd), (M_bind_run _ _ _ _ _ Hi). done.
Qed.

(** C9: called twice on the same raw tree of a well-formed store, the
    second call on the store the first one left, [schema] either raises
    the same exception both times or returns two trees that unfold to the
    same tree, to every depth. *)
Theorem schema_deterministic h raw :
  heap_wf h = true →
  value_in (length h) raw = true →
  let run1 := schema expand_refs raw h in
  let run2 := schema expand_refs raw (snd run1) in
  match fst run1, fst run2 with
  | Ok out1, Ok out2 =>
      ∀ fuel, reify fuel (snd run2) out1 = reify fuel (snd run2) out2
  | Err e1, Err e2 => e1 = e2
  | _, _ => False
  end.
Proof.
  intros Hwf Hraw run1 run2.
  destruct (safe_schema expand_refs expand_refs_local h raw h
              (isolated_refl h)) as [Hiso1 _].
  fold run1 in Hiso1.
  assert (Hold1 : ∀ l, l < length h → snd run1 !! l = h !! l)
    by (intros; by apply isolated_old).
  assert (Hlen1 : length h ≤ length (snd run1)).
  { destruct Hiso1 as (ext & -> & _). rewrite length_app. lia. }
  destruct (safe_schema expand_refs expand_refs_local (snd run1) raw (snd run1)
              (isolated_refl _)) as [Hiso2 _].
  fold run2 in Hiso2.
  assert (Hold2 : ∀ l, l < length (snd run1) → snd run2 !! l = snd run1 !! l)
    by (intros; by apply isolated_old).
  pose proof (hrel_old h (snd run1) Hwf Hold1) as Hrel.
  assert (Hvraw : vrel (fun a b => a = b ∧ a < length h) raw raw).
  { destruct raw; simpl; try done. by apply Nat.ltb_lt in Hraw. }
  destruct (mrel_schema_fueled _ (S (length h)) raw raw Hvraw _ _ Hrel)
    as (R' & _ & Hrel' & Hres).
  rewrite <- (schema_fueled h raw h Hwf Hraw) in Hrel', Hres by done.
  rewrite <- (schema_fueled h raw (snd run1) Hwf Hraw Hold1 Hlen1)
    in Hrel', Hres.
  fold run1 in Hrel', Hres. fold run2 in Hrel', Hres.
  destruct (fst run1) as [out1|e1], (fst run2) as [out2|e2]; simpl in Hres;
    try done.
  intros fuel.
  rewrite (reify_later _ _ _ _ Hrel' Hold2 fuel out1 out2 Hres).
  by apply (reify_rel R').
Qed.
End SchemaTwice.

Lemma no_refs_rel R v1 v2 :
  vrel R v1 v2 →
  mrel (fun _ _ _ => True) R (Samples.no_refs v1) (Samples.no_refs v2).
Proof. intros _. by apply mrel_ret. Qed.

Lemma schema_deterministic_witness :
  let run1 := schema Samples.no_refs Samples.spec_root Samples.spec_heap in
  let run2 := schema Samples.no_refs Samples.spec_root (snd run1) in
  match fst run1, fst run2 with
  | Ok out1, Ok out2 =>
      ∀ fuel, reify fuel (snd run2) out1 = reify fuel (snd run2) out2
  | Err e1, Err e2 => e1 = e2
  | _, _ => False
  end.
Proof.
  apply (schema_deterministic Samples.no_refs no_refs_local no_refs_rel).
  - vm_compute. reflexivity.
  - vm_compute. reflexivity.
Defined.

(** * The two layers on the sample schema *)

(** On the sample schema, the pass over the store returns a tree that
    unfolds to what the pass over trees returns, and leaves the raw tree
    as it was. *)
Example schema_layers_agree :
  let run := schema Samples.no_refs Samples.spec_root Samples.spec_heap in
  match fst run, Tree.schema Ok Samples.spec with
  | Ok out, Ok t =>
      reify 20 (snd run) out = Some t
      ∧ reify 20 (snd run) Samples.spec_root = Some Samples.spec
  | _, _ => False
  end.
Proof. vm_compute. split; reflexivity. Qed.

(** Two calls on the sample schema return two different objects that
    unfold to the same tree. *)
Example schema_twice_on_sample :
  let run1 := schema Samples.no_refs Samples.spec_root Samples.spec_heap in
  let run2 := schema Samples.no_refs Samples.spec_root (snd run1) in
  match fst run1, fst run2 with
  | Ok out1, Ok out2 =>
      out1 ≠ out2
      ∧ reify 20 (snd run2) out1 = reify 20 (snd run2) out2
      ∧ is_Some (reify 20 (snd run2) out1)
  | _, _ => False
  end.
Proof. vm_compute. repeat split; [discriminate|eauto]. Qed.

(** Both layers raise the same exception on the sample whose format node
    allows any additional property. *)
Example schema_layers_agree_on_fault :
  Tree.schema Ok Samples.spec_additional_true = Err AttributeError
  ∧ match load Samples.spec_additional_true [] with
    | (Ok raw, h) => fst (schema Samples.no_refs raw h) = Err AttributeError
    | _ => False
    end.
Proof. split; vm_compute; reflexivity. Qed.
